(** * Voter RAG chatbot: dump parser, document synthesizer and
      conversation dispatcher

    A shallow embedding of [src/utils/data_loader.py] and of the
    [ConversationManager] of [src/rag/chain.py].

    Python strings are sequences of Unicode code points: a [str] is a
    list of code points ([N]).  Dictionaries are [gmap]s keyed by the
    (ASCII) field names; a value that may be [None] is an [option].
    External calls (reading the file, retrieval and generation) are
    parameters that return a value or raise. *)

From Stdlib Require Import NArith ZArith Ascii String.
From stdpp Require Import gmap strings list fin_maps.

Set Warnings "-register-all".

Abbreviation str := (list N).

(** An ASCII literal of the source as a sequence of code points. *)
Definition lit (s : string) : str :=
  List.map N_of_ascii (list_ascii_of_string s).

(** How a Python call ends: with a value, or with an exception that
    propagates to the caller. *)
Inductive outcome (E A : Type) : Type :=
| Returned (a : A)
| Raised (e : E).
Arguments Returned {E A} a.
Arguments Raised {E A} e.

(* ===================================================================== *)
(** ** The Unicode tables the Python runtime consults *)
(* ===================================================================== *)

Module Unicode.

(** [str.isspace] for one code point.  It is the class used by
    [str.strip()], by [str.split()] and by [\s] in a [str] pattern. *)
Definition is_space (c : N) : bool :=
  ((0x09 <=? c) && (c <=? 0x0d) || (0x1c <=? c) && (c <=? 0x20)
   || (c =? 0x85) || (c =? 0xa0) || (c =? 0x1680)
   || (0x2000 <=? c) && (c <=? 0x200a)
   || (c =? 0x2028) || (c =? 0x2029) || (c =? 0x202f)
   || (c =? 0x205f) || (c =? 0x3000))%N.

(** First code points of the runs of ten decimal digits (general
    category Nd, Unicode 14.0); U+1D7CE starts five consecutive runs. *)
Definition decimal_runs : list N :=
  [ 0x30; 0x660; 0x6f0; 0x7c0; 0x966; 0x9e6; 0xa66; 0xae6; 0xb66; 0xbe6;
    0xc66; 0xce6; 0xd66; 0xde6; 0xe50; 0xed0; 0xf20; 0x1040; 0x1090;
    0x17e0; 0x1810; 0x1946; 0x19d0; 0x1a80; 0x1a90; 0x1b50; 0x1bb0;
    0x1c40; 0x1c50; 0xa620; 0xa8d0; 0xa900; 0xa9d0; 0xa9f0; 0xaa50;
    0xabf0; 0xff10; 0x104a0; 0x10d30; 0x11066; 0x110f0; 0x11136;
    0x111d0; 0x112f0; 0x11450; 0x114d0; 0x11650; 0x116c0; 0x11730;
    0x118e0; 0x11950; 0x11c50; 0x11d50; 0x11da0; 0x16a60; 0x16ac0;
    0x16b50; 0x1d7ce; 0x1d7d8; 0x1d7e2; 0x1d7ec; 0x1d7f6; 0x1e140;
    0x1e2f0; 0x1e950; 0x1fbf0 ]%N.

(** [str.isdecimal] for one code point: the class [\d] of a [str]
    pattern (Bengali digits U+09E6..U+09EF included). *)
Definition is_decimal (c : N) : bool :=
  existsb (fun lo => (lo <=? c) && (c <? lo + 10))%N decimal_runs.

End Unicode.

(* ===================================================================== *)
(** ** The [str] methods the two modules use *)
(* ===================================================================== *)

Module PyStr.

Definition QUOTE : N := 39.    (* ' *)
Definition COMMA : N := 44.    (* , *)
Definition LPAREN : N := 40.   (* ( *)
Definition RPAREN : N := 41.   (* ) *)
Definition NEWLINE : N := 10.  (* \n *)

(** [s.startswith(p)] *)
Fixpoint startswith (s p : str) {struct p} : bool :=
  match p, s with
  | [], _ => true
  | _ :: _, [] => false
  | c :: p', d :: s' => (c =? d)%N && startswith s' p'
  end.

(** [s.endswith(p)] *)
Definition endswith (s p : str) : bool := startswith (rev s) (rev p).

(** [needle in s] *)
Fixpoint contains (s needle : str) : bool :=
  startswith s needle
  || match s with [] => false | _ :: s' => contains s' needle end.

(** [a == b] on strings *)
Definition str_eqb (a b : str) : bool := bool_decide (a = b).

Fixpoint lstrip_by (p : N -> bool) (s : str) : str :=
  match s with
  | c :: s' => if p c then lstrip_by p s' else s
  | [] => []
  end.

Definition rstrip_by (p : N -> bool) (s : str) : str :=
  rev (lstrip_by p (rev s)).

(** [s.strip()]: whitespace is removed at both ends. *)
Definition strip (s : str) : str :=
  rstrip_by Unicode.is_space (lstrip_by Unicode.is_space s).

(** [s.strip(chars)]: the characters of [chars] are removed at both
    ends. *)
Definition strip_chars (chars s : str) : str :=
  let p c := bool_decide (c ∈ chars) in rstrip_by p (lstrip_by p s).

(** Slices with constant bounds: [s[1:]], [s[:-k]] and [s[1:-1]]. *)
Definition slice_from_1 (s : str) : str := drop 1 s.
Definition slice_to_minus (k : nat) (s : str) : str :=
  take (length s - k) s.
Definition slice_1_minus_1 (s : str) : str :=
  drop 1 (take (length s - 1) s).

(** [s.split(sep)] for a one-character separator; [cur] is the piece
    being read.  The result is never empty. *)
Fixpoint split_on (sep : N) (cur s : str) : list str :=
  match s with
  | [] => [cur]
  | c :: s' =>
      if (c =? sep)%N then cur :: split_on sep [] s'
      else split_on sep (cur ++ [c]) s'
  end.

Definition flush (cur : str) : list str :=
  match cur with [] => [] | _ => [cur] end.

(** [s.split()]: the maximal runs of non-whitespace characters. *)
Fixpoint split_ws (cur s : str) : list str :=
  match s with
  | [] => flush cur
  | c :: s' =>
      if Unicode.is_space c then flush cur ++ split_ws [] s'
      else split_ws (cur ++ [c]) s'
  end.

Definition split (s : str) : list str := split_ws [] s.

(** [sep.join(parts)] *)
Fixpoint join (sep : str) (parts : list str) : str :=
  match parts with
  | [] => []
  | [p] => p
  | p :: ps => p ++ sep ++ join sep ps
  end.

End PyStr.

(* ===================================================================== *)
(** ** The fragment of [re] the parser uses *)
(* ===================================================================== *)

Module Regex.

(** Patterns: a literal character, one character of a class, a greedy
    starred class, an optional character, an alternation and a capturing
    group.  A sequence of patterns is a list. *)
Inductive regex : Type :=
| RChar (c : N)
| RSet (p : N -> bool)
| RStar (p : N -> bool)
| ROpt (c : N)
| RAlt (a b : list regex)
| RGroup (body : list regex).

(** A successful attempt: the texts of the groups, in the order in which
    they closed, and the unread rest of the subject. *)
Definition result : Type := list str * str.
Definition cont : Type := str -> list str -> option result.

Definition or_else (a : option result) (b : option result) : option result :=
  match a with Some r => Some r | None => b end.

(** [p*], greedy: the longest run is tried first and given back one
    character at a time while the continuation fails. *)
Fixpoint star (p : N -> bool) (s : str) (k : str -> option result)
  : option result :=
  match s with
  | c :: s' => if p c then or_else (star p s' k) (k s) else k s
  | [] => k s
  end.

(** The backtracking matcher, in continuation-passing style. *)
Fixpoint m (r : regex) : str -> list str -> cont -> option result :=
  let fix mseq (rs : list regex) : str -> list str -> cont -> option result :=
    match rs with
    | [] => fun s caps k => k s caps
    | r :: rs' =>
        fun s caps k => m r s caps (fun s' caps' => mseq rs' s' caps' k)
    end in
  fun s caps k =>
  match r with
  | RChar c =>
      match s with
      | d :: s' => if (c =? d)%N then k s' caps else None
      | [] => None
      end
  | RSet p =>
      match s with
      | d :: s' => if p d then k s' caps else None
      | [] => None
      end
  | RStar p => star p s (fun s' => k s' caps)
  | ROpt c =>
      match s with
      | d :: s' => if (c =? d)%N then or_else (k s' caps) (k s caps)
                   else k s caps
      | [] => k s caps
      end
  | RAlt a b => or_else (mseq a s caps k) (mseq b s caps k)
  | RGroup body =>
      mseq body s caps
        (fun s' caps' => k s' (caps' ++ [take (length s - length s') s]))
  end.

Fixpoint mseq (rs : list regex) : str -> list str -> cont -> option result :=
  match rs with
  | [] => fun s caps k => k s caps
  | r :: rs' =>
      fun s caps k => m r s caps (fun s' caps' => mseq rs' s' caps' k)
  end.

(** One attempt at the head of [s]. *)
Definition match_here (rs : list regex) (s : str) : option result :=
  mseq rs s [] (fun s' caps => Some (caps, s')).

(** [re.findall(rs, s)] for a pattern with several groups: the tuples of
    group texts of the successive non-overlapping matches, leftmost first.
    [skip] counts the characters of the current match still to pass over. *)
Fixpoint findall_from (rs : list regex) (skip : nat) (s : str)
  : list (list str) :=
  match s with
  | [] =>
      match skip, match_here rs [] with
      | 0, Some (caps, _) => [caps]
      | _, _ => []
      end
  | _ :: s' =>
      match skip with
      | S n => findall_from rs n s'
      | 0 =>
          match match_here rs s with
          | Some (caps, rest) =>
              caps :: findall_from rs (length s - length rest - 1) s'
          | None => findall_from rs 0 s'
          end
      end
  end.

Definition findall (rs : list regex) (s : str) : list (list str) :=
  findall_from rs 0 s.

(** [re.split(rs, s)] for a pattern without groups that matches no empty
    string: the pieces between the successive matches.  [cur] is the piece
    being read. *)
Fixpoint split_from (rs : list regex) (skip : nat) (cur s : str)
  : list str :=
  match s with
  | [] => [cur]
  | c :: s' =>
      match skip with
      | S n => split_from rs n cur s'
      | 0 =>
          match match_here rs s with
          | Some (_, rest) =>
              cur :: split_from rs (length s - length rest - 1) [] s'
          | None => split_from rs 0 (cur ++ [c]) s'
          end
      end
  end.

Definition re_split (rs : list regex) (s : str) : list str :=
  split_from rs 0 [] s.

(** The literal text [t] as a pattern. *)
Definition text (t : str) : list regex := List.map RChar t.

(** A run of [p] characters cannot go on into [s]. *)
Definition stops (p : N -> bool) (s : str) : Prop :=
  match s with [] => True | c :: _ => p c = false end.

End Regex.

(* ===================================================================== *)
(** ** [utils/data_loader.py] *)
(* ===================================================================== *)

Module DataLoader.
Import PyStr Regex.

(** A Raw Record: field name to string-or-[None]. *)
Abbreviation voter := (gmap string (option str)).

(** [columns], as in the CREATE TABLE statement. *)
Definition columns : list string :=
  [ "id"; "serial_bn"; "serial"; "name"; "name_normalized";
    "voter_id_bn"; "voter_id"; "father_name"; "father_name_normalized";
    "mother_name"; "occupation"; "date_of_birth"; "address";
    "voter_area_no_bn"; "voter_area_no"; "union"; "ward_bn"; "ward";
    "gender"; "created_at"; "updated_at"; "phonetic_name";
    "phonetic_father_name" ]%string.

(** [enumerate(l)] *)
Definition enumerate {A : Type} (l : list A) : list (nat * A) :=
  imap (fun i x => (i, x)) l.

(** *** The primary strategy *)

Definition not_quote (c : N) : bool := negb (c =? QUOTE)%N.

(** The three shapes of value in [insert_pattern]. *)
Inductive group_kind : Type :=
| Digits          (* a group of one or more \d *)
| Quoted          (* a quote, a group of non-quote characters, a quote *)
| NullOrQuoted.   (* a group: NULL, or a quoted run of non-quotes *)

Definition group_regex (g : group_kind) : list regex :=
  match g with
  | Digits => [RGroup [RSet Unicode.is_decimal; RStar Unicode.is_decimal]]
  | Quoted => [RChar QUOTE; RGroup [RStar not_quote]; RChar QUOTE]
  | NullOrQuoted =>
      [RGroup [RAlt (text (lit "NULL"))
                    [RChar QUOTE; RStar not_quote; RChar QUOTE]]]
  end.

(** The values of [insert_pattern], from left to right. *)
Definition insert_groups : list group_kind :=
  [ Digits; Quoted; Quoted; Quoted; Quoted; NullOrQuoted; NullOrQuoted;
    Quoted; Quoted; Quoted; NullOrQuoted; Quoted; Quoted; Quoted; Quoted;
    Quoted; Quoted; Quoted; Quoted; Quoted; Quoted; Quoted; Quoted ].

(** The separator [,\s*] between two values. *)
Definition value_sep : list regex := [RChar COMMA; RStar Unicode.is_space].

Fixpoint sep_by (sep : list regex) (gs : list (list regex)) : list regex :=
  match gs with
  | [] => []
  | [g] => g
  | g :: gs' => g ++ sep ++ sep_by sep gs'
  end.

(** [insert_pattern]: [\(], the 23 values separated by [,\s*], [\)]. *)
Definition insert_pattern : list regex :=
  RChar LPAREN :: sep_by value_sep (List.map group_regex insert_groups)
  ++ [RChar RPAREN].

(** The clean-up of one group of a match (the [if]/[elif]/[else] on
    [value]). *)
Definition clean_match_value (value : str) : option str :=
  if str_eqb value (lit "NULL") then None
  else if startswith value (lit "'") && endswith value (lit "'")
       then Some (slice_1_minus_1 value)
       else Some value.

(** The body of [for match in matches]: the dictionary built from one
    match. *)
Definition voter_of_match (mt : list str) : voter :=
  fold_left
    (fun (voter : voter) '(i, col) =>
       match mt !! i with
       | Some value => <[col := clean_match_value value]> voter
       | None => <[col := None]> voter
       end)
    (enumerate columns) ∅.

(** The records of the primary strategy. *)
Definition primary_voters (content : str) : list voter :=
  List.map voter_of_match (findall insert_pattern content).

(** *** The fallback strategy *)

Record scan_state : Type := ScanState {
  scan_values : list str;
  scan_current : str;
  scan_in_quotes : bool
}.

(** The body of [for char in record]. *)
Definition scan_char (st : scan_state) (char : N) : scan_state :=
  let '(ScanState values current in_quotes) := st in
  if (char =? QUOTE)%N && negb in_quotes then
    ScanState values (current ++ [char]) true
  else if (char =? QUOTE)%N && in_quotes then
    ScanState values (current ++ [char]) false
  else if (char =? COMMA)%N && negb in_quotes then
    ScanState (values ++ [strip current]) [] in_quotes
  else
    ScanState values (current ++ [char]) in_quotes.

(** [values] after the scanning loop and the final [if current]. *)
Definition raw_values (record : str) : list str :=
  let '(ScanState values current _) :=
    fold_left scan_char record (ScanState [] [] false) in
  match current with
  | [] => values
  | _ :: _ => values ++ [strip current]
  end.

(** The body of [for v in values] ("Clean values"). *)
Definition clean_value (v : str) : option str :=
  let v := strip v in
  if startswith v (lit "'") && endswith v (lit "'")
  then Some (slice_1_minus_1 v)
  else if str_eqb v (lit "NULL") then None
  else Some v.

Definition parse_record_values (record : str) : list (option str) :=
  List.map clean_value (raw_values record).

(** The body of [for line in lines], on the pair
    [(in_values, current_values)]. *)
Definition scan_line (st : bool * str) (line : str) : bool * str :=
  let '(in_values, current_values) := st in
  if contains line (lit "INSERT INTO") && contains line (lit "voters")
  then (true, current_values)
  else if in_values then (in_values, current_values ++ line)
  else (in_values, current_values).

(** [r'\),\s*\n?\('] *)
Definition row_split_pattern : list regex :=
  [RChar RPAREN; RChar COMMA; RStar Unicode.is_space; ROpt NEWLINE;
   RChar LPAREN].

(** "Clean up the record". *)
Definition trim_record (record : str) : str :=
  let record := strip record in
  let record :=
    if startswith record (lit "(") then slice_from_1 record else record in
  let record :=
    if endswith record (lit ");") then slice_to_minus 2 record else record in
  let record :=
    if endswith record (lit ")") then slice_to_minus 1 record else record in
  record.

(** The dictionary built from the values of one record. *)
Definition voter_of_values (columns : list string)
    (values : list (option str)) : voter :=
  fold_left
    (fun (voter : voter) '(i, col) =>
       let value := match values !! i with Some v => v | None => None end in
       match value with
       | None => <[col := None]> voter
       | Some v =>
           if str_eqb v (lit "NULL") then <[col := None]> voter
           else <[col := Some (strip_chars (lit "'") v)]> voter
       end)
    (enumerate columns) ∅.

(** The body of [for record in records]: [None] when nothing is
    appended to [voters]. *)
Definition record_voter (columns : list string) (record : str)
  : option voter :=
  let record := trim_record record in
  match record with
  | [] => None
  | _ :: _ =>
      let values := parse_record_values record in
      (* len(values) >= len(columns) *)
      if length columns <=? length values
      then Some (voter_of_values columns values)
      else None
  end.

(** [records]: the chunks between two matches of the row separator in
    the text gathered after the INSERT line. *)
Definition records (content : str) : list str :=
  let lines := split_on NEWLINE [] content in
  let '(_, current_values) := fold_left scan_line lines (false, []) in
  re_split row_split_pattern current_values.

Definition parse_sql_alternative (content : str) (columns : list string)
  : list voter :=
  omap (record_voter columns) (records content).

(** *** The Document Synthesizer *)

(** A Retrieval Document: the dictionary with the keys ['id'],
    ['content'] and ['metadata']; a value of the metadata is whatever
    [voter.get] returned, [None] included. *)
Record document : Type := Document {
  doc_id : str;
  doc_content : str;
  doc_metadata : gmap string (option str)
}.

(** The labels of the lines of the text body. *)
Definition label_name : str :=                (* নাম (Name):  *)
  [0x9a8; 0x9be; 0x9ae]%N ++ lit " (Name): ".
Definition label_phonetic_name : str := lit "Phonetic Name: ".
Definition label_father_name : str :=         (* পিতার নাম (Father's Name):  *)
  [0x9aa; 0x9bf; 0x9a4; 0x9be; 0x9b0; 0x20; 0x9a8; 0x9be; 0x9ae]%N
  ++ lit " (Father's Name): ".
Definition label_phonetic_father_name : str := lit "Phonetic Father: ".
Definition label_mother_name : str :=         (* মাতার নাম (Mother's Name):  *)
  [0x9ae; 0x9be; 0x9a4; 0x9be; 0x9b0; 0x20; 0x9a8; 0x9be; 0x9ae]%N
  ++ lit " (Mother's Name): ".
Definition label_occupation : str :=          (* পেশা (Occupation):  *)
  [0x9aa; 0x9c7; 0x9b6; 0x9be]%N ++ lit " (Occupation): ".
Definition label_date_of_birth : str :=       (* জন্ম তারিখ (Date of Birth):  *)
  [0x99c; 0x9a8; 0x9cd; 0x9ae; 0x20; 0x9a4; 0x9be; 0x9b0; 0x9bf; 0x996]%N
  ++ lit " (Date of Birth): ".
Definition label_address : str :=             (* ঠিকানা (Address):  *)
  [0x9a0; 0x9bf; 0x995; 0x9be; 0x9a8; 0x9be]%N ++ lit " (Address): ".
Definition label_ward : str :=                (* ওয়ার্ড নং (Ward No):  *)
  [0x993; 0x9af; 0x9bc; 0x9be; 0x9b0; 0x9cd; 0x9a1; 0x20; 0x9a8; 0x982]%N
  ++ lit " (Ward No): ".
Definition label_ward_bn : str :=             (* ওয়ার্ড (বাংলা):  *)
  [0x993; 0x9af; 0x9bc; 0x9be; 0x9b0; 0x9cd; 0x9a1; 0x20; 0x28;
   0x9ac; 0x9be; 0x982; 0x9b2; 0x9be]%N ++ lit "): ".
Definition label_union : str :=               (* ইউনিয়ন (Union):  *)
  [0x987; 0x989; 0x9a8; 0x9bf; 0x9af; 0x9bc; 0x9a8]%N ++ lit " (Union): ".
Definition label_gender : str :=              (* লিঙ্গ (Gender):  *)
  [0x9b2; 0x9bf; 0x999; 0x9cd; 0x997]%N ++ lit " (Gender): ".
Definition label_serial : str :=              (* ক্রমিক নং (Serial):  *)
  [0x995; 0x9cd; 0x9b0; 0x9ae; 0x9bf; 0x995; 0x20; 0x9a8; 0x982]%N
  ++ lit " (Serial): ".

(** [if voter.get(key): text_parts.append(f"<label>{voter[key]}")]: the
    line is added when the value is a non-empty string; [None], the
    empty string and a missing key add nothing. *)
Definition text_part (voter : voter) (key : string) (label : str)
  : list str :=
  match voter !! key with
  | Some (Some (c :: v)) => [label ++ c :: v]
  | _ => []
  end.

(** [text_parts] at the end of the loop body. *)
Definition text_parts (voter : voter) : list str :=
  text_part voter "name" label_name
  ++ text_part voter "phonetic_name" label_phonetic_name
  ++ text_part voter "father_name" label_father_name
  ++ text_part voter "phonetic_father_name" label_phonetic_father_name
  ++ text_part voter "mother_name" label_mother_name
  ++ text_part voter "occupation" label_occupation
  ++ text_part voter "date_of_birth" label_date_of_birth
  ++ text_part voter "address" label_address
  ++ text_part voter "ward" label_ward
  ++ text_part voter "ward_bn" label_ward_bn
  ++ text_part voter "union" label_union
  ++ text_part voter "gender" label_gender
  ++ text_part voter "serial" label_serial.

(** [voter.get(key, '')]: the default is used for a missing key only. *)
Definition get_or_empty (voter : voter) (key : string) : option str :=
  match voter !! key with
  | Some v => v
  | None => Some []
  end.

(** [str(x)] for a string or [None]. *)
Definition py_str (x : option str) : str :=
  match x with
  | Some s => s
  | None => lit "None"
  end.

(** The dictionary ['metadata']. *)
Definition metadata_of (voter : voter) : gmap string (option str) :=
  <["id" := Some (py_str (get_or_empty voter "id"))]>
  (<["name" := get_or_empty voter "name"]>
  (<["father_name" := get_or_empty voter "father_name"]>
  (<["mother_name" := get_or_empty voter "mother_name"]>
  (<["occupation" := get_or_empty voter "occupation"]>
  (<["ward" := get_or_empty voter "ward"]>
  (<["union" := get_or_empty voter "union"]>
  (<["gender" := get_or_empty voter "gender"]>
  (<["date_of_birth" := get_or_empty voter "date_of_birth"]>
  (<["address" := get_or_empty voter "address"]>
  (<["serial" := get_or_empty voter "serial"]> ∅)))))))))).

(** The body of [for voter in voters]. *)
Definition voter_document (voter : voter) : document :=
  {| doc_id := py_str (get_or_empty voter "id");
     doc_content := join [NEWLINE] (text_parts voter);
     doc_metadata := metadata_of voter |}.

Definition create_voter_documents (voters : list voter) : list document :=
  List.map voter_document voters.

(** *** The entry point *)

(** [parse_sql_dump] once the file has been read. *)
Definition parse_sql_content (content : str) : list voter :=
  let voters := primary_voters content in
  if bool_decide (length voters = 0)
  then parse_sql_alternative content columns
  else voters.

Section Files.

(** [open(file_path, 'r', encoding='utf-8').read()]: the text of the
    file, or the exception raised by the runtime. *)
Context {exn : Type}.
Variable read_text : string -> outcome exn str.

Definition parse_sql_dump (file_path : string) : outcome exn (list voter) :=
  match read_text file_path with
  | Raised e => Raised e
  | Returned content => Returned (parse_sql_content content)
  end.

(** [load_voters_from_sql]: the records and their documents. *)
Definition load_voters_from_sql (file_path : string)
  : outcome exn (list voter * list document) :=
  match parse_sql_dump file_path with
  | Raised e => Raised e
  | Returned voters => Returned (voters, create_voter_documents voters)
  end.

End Files.

(** *** Vocabulary of the statements *)

(** The record has the declared keys and no other. *)
Definition has_declared_keys (v : voter) : Prop :=
  forall col, col ∈ columns <-> is_Some (v !! col).

(** What [voter_of_match] stores for the column of index [i]. *)
Definition match_field (mt : list str) (i : nat) : option str :=
  match mt !! i with
  | Some value => clean_match_value value
  | None => None
  end.

(** What [voter_of_values] stores for the column of index [i]. *)
Definition values_field (values : list (option str)) (i : nat) : option str :=
  match values !! i with
  | Some (Some v) =>
      if str_eqb v (lit "NULL") then None
      else Some (strip_chars (lit "'") v)
  | _ => None
  end.

(** A token of a record: every comma is inside quotes and every quote is
    closed.  [q] tells whether the scan is inside a quoted string. *)
Fixpoint closed_from (q : bool) (tok : str) : bool :=
  match tok with
  | [] => negb q
  | c :: t =>
      if (c =? QUOTE)%N then closed_from (negb q) t
      else if (c =? COMMA)%N && negb q then false
      else closed_from q t
  end.

Definition closed_token (tok : str) : bool := closed_from false tok.

(** The quoted token whose body is [a], a doubled quote, [b]. *)
Definition doubled_quote_token (a b : str) : str :=
  QUOTE :: a ++ [QUOTE; QUOTE] ++ b ++ [QUOTE].

(** The text a group of kind [g] can capture. *)
Definition capture_ok (g : group_kind) (cap : str) : Prop :=
  match g with
  | Digits => cap <> [] /\ forallb Unicode.is_decimal cap = true
  | Quoted => forallb not_quote cap = true
  | NullOrQuoted =>
      cap = lit "NULL"
      \/ exists b, cap = QUOTE :: b ++ [QUOTE] /\ forallb not_quote b = true
  end.

(** A value as it is written in a row: [NULL], or a quoted body. *)
Inductive token : Type :=
| TNull
| TQuoted (body : str).

Definition token_text (t : token) : str :=
  match t with
  | TNull => lit "NULL"
  | TQuoted body => QUOTE :: body ++ [QUOTE]
  end.

(** The value [t] is in the grammar of a group of kind [g]. *)
Definition admits (g : group_kind) (t : token) : bool :=
  match g, t with
  | Quoted, TQuoted body => forallb not_quote body
  | NullOrQuoted, TNull => true
  | NullOrQuoted, TQuoted body => forallb not_quote body
  | _, _ => false
  end.

(** The text the group captures on [t]. *)
Definition capture (g : group_kind) (t : token) : str :=
  match g, t with
  | Quoted, TQuoted body => body
  | _, _ => token_text t
  end.

(** The value the record holds for a token read by a group of kind [g]. *)
Definition token_value (g : group_kind) (t : token) : option str :=
  match g, t with
  | _, TNull => None
  | Quoted, TQuoted body =>
      if str_eqb body (lit "NULL") then None else Some body
  | _, TQuoted body => Some body
  end.

(** The values after the first, each with the blanks written before it:
    they are in the grammar of the groups [gs]. *)
Fixpoint fields_ok (gs : list group_kind) (fs : list (str * token)) : bool :=
  match gs, fs with
  | [], [] => true
  | g :: gs', (ws, t) :: fs' =>
      forallb Unicode.is_space ws && admits g t && fields_ok gs' fs'
  | _, _ => false
  end.

Fixpoint fields_text (fs : list (str * token)) : str :=
  match fs with
  | [] => []
  | (ws, t) :: fs' => COMMA :: ws ++ token_text t ++ fields_text fs'
  end.

Fixpoint captures (gs : list group_kind) (fs : list (str * token))
  : list str :=
  match gs, fs with
  | g :: gs', (_, t) :: fs' => capture g t :: captures gs' fs'
  | _, _ => []
  end.

Fixpoint fields_pattern (gs : list group_kind) : list regex :=
  match gs with
  | [] => []
  | g :: gs' => value_sep ++ group_regex g ++ fields_pattern gs'
  end.

(** A row-tuple as it is written in a dump: the integer, then the 22
    other values. *)
Record row_tuple : Type := RowTuple {
  row_id : str;
  row_fields : list (str * token)
}.

Definition row_text (r : row_tuple) : str :=
  LPAREN :: row_id r ++ fields_text (row_fields r) ++ [RPAREN].

(** The row is in the grammar of [insert_pattern]: a non-empty run of
    decimal digits, then 22 values, [NULL] only where the pattern has
    it. *)
Definition well_formed (r : row_tuple) : bool :=
  match row_id r with [] => false | _ :: _ => true end
  && forallb Unicode.is_decimal (row_id r)
  && fields_ok (tail insert_groups) (row_fields r).

Definition row_captures (r : row_tuple) : list str :=
  row_id r :: captures (tail insert_groups) (row_fields r).

(** The first quote character of [body] is followed by a second one. *)
Fixpoint doubled_quote_first (body : str) : bool :=
  match body with
  | [] => false
  | c :: rest =>
      if (c =? QUOTE)%N
      then match rest with d :: _ => (d =? QUOTE)%N | [] => false end
      else doubled_quote_first rest
  end.

(** The value [t] cannot be read by a group of kind [g]: a bare [NULL]
    where the group wants a quoted string, or a quoted string whose first
    quote character inside is doubled. *)
Definition rejects (g : group_kind) (t : token) : bool :=
  match g, t with
  | Digits, _ => false
  | Quoted, TNull => true
  | NullOrQuoted, TNull => false
  | _, TQuoted body => doubled_quote_first body
  end.

(** The values of a row are written plainly: blanks, then [NULL] or a
    string between quotes with no quote inside. *)
Definition plain_fields (fs : list (str * token)) : bool :=
  forallb (fun '(ws, t) =>
             forallb Unicode.is_space ws
             && match t with
                | TNull => true
                | TQuoted body => forallb not_quote body
                end) fs.

(** The values of a row as they stand between the commas. *)
Definition row_tokens (r : row_tuple) : list str :=
  row_id r :: List.map (fun '(ws, t) => ws ++ token_text t) (row_fields r).

End DataLoader.

(* ===================================================================== *)
(** ** [rag/chain.py]: the [ConversationManager] *)
(* ===================================================================== *)

Module Chain.
Import PyStr.

(** [follow_up_indicators] *)
Definition follow_up_indicators : list str :=
  [ [0x9a4; 0x9be; 0x9b0]%N;                          (* তার *)
    [0x9a4; 0x9be; 0x9a6; 0x9c7; 0x9b0]%N;            (* তাদের *)
    [0x9a4; 0x9bf; 0x9a8; 0x9bf]%N;                   (* তিনি *)
    [0x9b8; 0x9c7; 0x987]%N;                          (* সেই *)
    [0x990]%N;                                        (* ঐ *)
    lit "his"; lit "her"; lit "their"; lit "they"; lit "that"; lit "those";
    [0x995; 0x9a4; 0x99c; 0x9a8]%N;                   (* কতজন *)
    [0x995; 0x9cb; 0x9a5; 0x9be; 0x9af; 0x9bc]%N;     (* কোথায় *)
    [0x995; 0x996; 0x9a8]%N ].                        (* কখন *)

(** One entry of [self.history]: the dictionary with the keys
    ["question"] and ["answer"]. *)
Record turn : Type := Turn {
  question : str;
  answer : str
}.

(** The dictionary returned by [VoterRAGChain.query]; the source
    documents are values of the retrieval library. *)
Record response (Doc : Type) : Type := Response {
  resp_answer : str;
  source_documents : list Doc
}.
Arguments Response {Doc} _ _.
Arguments resp_answer {Doc} _.
Arguments source_documents {Doc} _.

(** What a call of the manager can change: its history, and the state of
    the services behind [self.rag_chain]. *)
Record state (World : Type) : Type := State {
  history : list turn;
  world : World
}.
Arguments State {World} _ _.
Arguments history {World} _.
Arguments world {World} _.

(** [f"Previous question: {last_q}\nCurrent question: {question}"] *)
Definition follow_up_frame (last_q question : str) : str :=
  lit "Previous question: " ++ last_q ++ [NEWLINE]
  ++ lit "Current question: " ++ question.

Section ConversationManager.

(** [str.lower], which follows the case tables of the runtime. *)
Variable lower : str -> str.

Context {exn Doc World : Type}.

(** [self.rag_chain.query]: retrieval and generation, an external call
    that answers or raises. *)
Variable rag_query : str -> World -> outcome exn (response Doc) * World.

(** Methods are state transformers that return or raise. *)
Definition M (A : Type) : Type := state World -> outcome exn A * state World.

Definition ret {A : Type} (a : A) : M A := fun st => (Returned a, st).

Definition bind {A B : Type} (c : M A) (k : A -> M B) : M B :=
  fun st =>
    match c st with
    | (Returned a, st') => k a st'
    | (Raised e, st') => (Raised e, st')
    end.

Notation "x <- c ;; k" := (bind c (fun x => k))
  (at level 100, c at next level, right associativity).
Notation "c ;;; k" := (bind c (fun _ => k))
  (at level 100, right associativity).

Definition add_to_history (question answer : str) : M unit :=
  fun st => (Returned tt, State (history st ++ [Turn question answer]) (world st)).

Definition get_history : M (list turn) :=
  fun st => (Returned (history st), st).

Definition clear_history : M unit :=
  fun st => (Returned tt, State [] (world st)).

Definition query (q : str) : M (response Doc) :=
  fun st =>
    let '(r, w) := rag_query q (world st) in (r, State (history st) w).

Definition _is_follow_up (question : str) : bool :=
  let question_lower := lower question in
  existsb (fun indicator => contains question_lower indicator)
    follow_up_indicators
  && (length (split question) <? 5).

(** [context_enhanced_question] when [rag_chain.query] is called. *)
Definition context_enhanced_question (history : list turn) (question : str)
  : str :=
  match last history with
  | Some t =>
      let last_q := Chain.question t in
      if _is_follow_up question
      then follow_up_frame last_q question
      else question
  | None => question
  end.

Definition chat (question : str) : M (response Doc) :=
  history <- get_history ;;
  let context_enhanced_question :=
    context_enhanced_question history question in
  result <- query context_enhanced_question ;;
  add_to_history question (resp_answer result) ;;;
  ret result.

End ConversationManager.

(** [str.lower] on text whose only cased characters are ASCII letters
    (Bengali has no case). *)
Definition ascii_lower (s : str) : str :=
  List.map (fun c => if (65 <=? c) && (c <=? 90) then c + 32 else c)%N s.

End Chain.

(* ===================================================================== *)
(** ** Sample data *)
(* ===================================================================== *)

Module Examples.
Import PyStr Regex DataLoader Chain.

(** The line that opens the INSERT statement of a dump. *)
Definition insert_line : str := lit "INSERT INTO voters VALUES".

(** A row of a dump, without voter identifiers and without occupation. *)
Definition sample_row : row_tuple :=
  let q (s : string) := (lit " ", TQuoted (lit s)) in
  RowTuple (lit "17")
    [ q "17"; q "17"; q "Saiful Islam"; q "saiful islam";
      (lit " ", TNull); (lit " ", TQuoted []);
      q "Sirajul Molla"; q "sirajul molla"; q "Rahima";
      (lit " ", TNull);
      q "1980-01-01"; q "Babra, Kalia"; q "1"; q "1"; q "Babra"; q "1";
      q "1"; q "male"; q "2024-01-01"; q "2024-01-01"; q "saiful islam";
      q "sirajul molla" ].

(** A dump whose only row has a name with a doubled quote. *)
Definition doubled_quote_dump : str :=
  insert_line ++ [NEWLINE]
  ++ lit "(1, '1', '1', 'O''Brien', 'obrien', NULL, NULL, 'f', 'f', 'm', "
  ++ lit "NULL, 'd', 'a', '1', '1', 'u', '1', '1', 'g', 'c', 'u', 'p', 'q');".

(** The sample row with another identifier, name and mother's name. *)
Definition row_with (id : string) (name mother_name : token) : row_tuple :=
  let q (s : string) := (lit " ", TQuoted (lit s)) in
  RowTuple (lit id)
    [ q "17"; q "17"; (lit " ", name); q "saiful islam";
      (lit " ", TNull); (lit " ", TQuoted []);
      q "Sirajul Molla"; q "sirajul molla"; (lit " ", mother_name);
      (lit " ", TNull);
      q "1980-01-01"; q "Babra, Kalia"; q "1"; q "1"; q "Babra"; q "1";
      q "1"; q "male"; q "2024-01-01"; q "2024-01-01"; q "saiful islam";
      q "sirajul molla" ].

(** A row of 23 values whose mother's name is [NULL]. *)
Definition null_mother_row : row_tuple :=
  row_with "17" (TQuoted (lit "Saiful Islam")) TNull.

(** A dump of three rows, one per line; the name of the second is
    [NULL], the name of the third is the empty string. *)
Definition null_name_dump : str :=
  insert_line ++ [NEWLINE]
  ++ row_text (row_with "1" (TQuoted (lit "Karim")) (TQuoted (lit "Rahima")))
  ++ lit "," ++ [NEWLINE]
  ++ row_text (row_with "2" TNull (TQuoted (lit "Rahima")))
  ++ lit "," ++ [NEWLINE]
  ++ row_text (row_with "3" (TQuoted []) (TQuoted (lit "Rahima")))
  ++ lit ";".


(** A dump whose only row has three values. *)
Definition short_row_dump : str :=
  insert_line ++ [NEWLINE] ++ lit "(1, 'a', 'b');".

(** A file that holds no row at all. *)
Definition no_row_dump : str := lit "DROP TABLE voters;".

(** A retrieval and generation service that answers with its query and
    keeps count of its calls. *)
Definition echo_query (q : str) (calls : nat)
  : outcome unit (response unit) * nat :=
  (Returned (Response q []), S calls).

(** A service that is down. *)
Definition failing_query (q : str) (calls : nat)
  : outcome unit (response unit) * nat :=
  (Raised tt, S calls).

End Examples.

(* ===================================================================== *)
(** ** Layouts of dumps and of documents *)
(* ===================================================================== *)

Module Shapes.
Import PyStr Regex DataLoader.

(** No row starts inside [gap]: every opening parenthesis of [gap] is
    followed, in [gap], by a character that is not a decimal digit. *)
Fixpoint gap_ok (gap : str) : bool :=
  match gap with
  | [] => true
  | c :: rest =>
      (if (c =? LPAREN)%N
       then match rest with
            | d :: _ => negb (Unicode.is_decimal d)
            | [] => false
            end
       else true)
      && gap_ok rest
  end.

(** Rows, each followed by the text that separates it from the next. *)
Fixpoint rows_text (rows : list (row_tuple * str)) : str :=
  match rows with
  | [] => []
  | (r, gap) :: rows' => row_text r ++ gap ++ rows_text rows'
  end.

(** A line that opens an INSERT statement, for [scan_line]. *)
Definition is_insert_line (line : str) : bool :=
  contains line (lit "INSERT INTO") && contains line (lit "voters").

(** The lines of the rows in the layout the fallback strategy expects:
    one row per line between parentheses, a comma after each row but the
    last, a semicolon after the last. *)
Fixpoint row_lines (bodies : list str) : list str :=
  match bodies with
  | [] => []
  | [b] => [LPAREN :: b ++ lit ");"]
  | b :: bs => (LPAREN :: b ++ lit "),") :: row_lines bs
  end.

Definition plain_char (c : N) : bool :=
  negb (c =? NEWLINE)%N && negb (c =? LPAREN)%N && negb (c =? RPAREN)%N.

(** The text of a row between its parentheses: it starts and ends with a
    character that is not a blank and holds no line feed and no
    parenthesis. *)
Definition body_ok (b : str) : bool :=
  match b with [] => false | c :: _ => negb (Unicode.is_space c) end
  && match rev b with [] => false | d :: _ => negb (Unicode.is_space d) end
  && forallb plain_char b.

(** The text of the rows after the parenthesis that opens the first. *)
Fixpoint tail_text (bodies : list str) : str :=
  match bodies with
  | [] => []
  | [b] => b ++ lit ");"
  | b :: bs => b ++ RPAREN :: COMMA :: LPAREN :: tail_text bs
  end.

(** The keys of the dictionary ['metadata']. *)
Definition metadata_keys : list string :=
  [ "id"; "name"; "father_name"; "mother_name"; "occupation"; "ward";
    "union"; "gender"; "date_of_birth"; "address"; "serial" ]%string.

(** The fields of the text body with their labels, in the order of the
    lines. *)
Definition presentation : list (string * str) :=
  [ ("name", label_name); ("phonetic_name", label_phonetic_name);
    ("father_name", label_father_name);
    ("phonetic_father_name", label_phonetic_father_name);
    ("mother_name", label_mother_name); ("occupation", label_occupation);
    ("date_of_birth", label_date_of_birth); ("address", label_address);
    ("ward", label_ward); ("ward_bn", label_ward_bn);
    ("union", label_union); ("gender", label_gender);
    ("serial", label_serial) ]%string.

(** The field holds a non-empty string: its line is written. *)
Definition present (v : voter) (key : string) : bool :=
  match v !! key with
  | Some (Some (_ :: _)) => true
  | _ => false
  end.

End Shapes.

(* ===================================================================== *)
(** ** The callers of [ConversationManager.chat] *)
(* ===================================================================== *)

Module Callers.
Import PyStr Chain.

Section Callers.

Variable lower : str -> str.
Context {exn Doc World : Type}.
Variable rag_query : str -> World -> outcome exn (response Doc) * World.

(** [rag/chain.py], the test loop of the module:
    [for question in test_questions: result = conversation_manager.chat(question)]
    (the answers are printed).  An exception ends the loop. *)
Fixpoint chat_all (test_questions : list str) : M unit :=
  match test_questions with
  | [] => ret tt
  | question :: rest =>
      bind (chat lower rag_query question) (fun _ => chat_all rest)
  end.

(** One entry of [st.session_state.messages]: the dictionary with the
    keys ["role"] and ["content"] and, for an answer, ["sources"]. *)
Record message : Type := Message {
  role : str;
  content : str;
  sources : option (list Doc)
}.

(** What a run of [main] in [app.py] can change: the messages of the
    session and the state of the conversation manager.  The manager comes
    from [initialize_system], a cached resource: one browser session is
    modelled, with no other session using the manager meanwhile. *)
Record session : Type := Session {
  messages : list message;
  manager : state World
}.

(** [str(e)] for the exception caught. *)
Variable exn_str : exn -> str.

(** [app.py], [main], the body of [if prompt := st.chat_input(...)]:
    the prompt is recorded, [chat] is called inside [try], and the answer
    or the text of the error is recorded.  The calls that only draw the
    page ([st.markdown], [st.expander], [format_voter_card], which reads
    the metadata with [get]) are left out: they are taken to return. *)
Definition handle_prompt (prompt : str) (s : session) : session :=
  let messages := messages s ++ [Message (lit "user") prompt None] in
  match chat lower rag_query prompt (manager s) with
  | (Returned result, st) =>
      let answer := resp_answer result in
      let sources := source_documents result in
      Session (messages ++ [Message (lit "assistant") answer (Some sources)])
        st
  | (Raised e, st) =>
      let error_msg := lit "Sorry, I encountered an error: " ++ exn_str e in
      Session (messages ++ [Message (lit "assistant") error_msg None]) st
  end.

(** [app.py], [main], the button "Clear Chat History". *)
Definition clear_chat (s : session) : session :=
  Session [] (snd (clear_history (exn:=exn) (manager s))).

(** What the user does on the page: send a prompt, or press the
    button.  An event is handled to its end before the next one: a run of
    the script that Streamlit would cut short, between [chat] and the
    recording of the reply, is not modelled. *)
Inductive event : Type :=
| Prompt (prompt : str)
| ClearChat.

Definition run_event (s : session) (ev : event) : session :=
  match ev with
  | Prompt prompt => handle_prompt prompt s
  | ClearChat => clear_chat s
  end.

(** The exchanges of the page that got an answer, as turns. *)
Fixpoint answered (msgs : list message) : list turn :=
  match msgs with
  | user :: reply :: rest =>
      match sources reply with
      | Some _ => Turn (content user) (content reply) :: answered rest
      | None => answered rest
      end
  | _ => []
  end.

(** The history of the manager is what the page shows as answered. *)
Definition page_invariant (s : session) : Prop :=
  history (manager s) = answered (messages s)
  /\ exists k, length (messages s) = 2 * k.

End Callers.

Arguments Message {Doc} _ _ _.
Arguments role {Doc} _.
Arguments content {Doc} _.
Arguments sources {Doc} _.
Arguments Session {Doc World} _ _.
Arguments messages {Doc World} _.
Arguments manager {Doc World} _.
Arguments answered {Doc} _.
Arguments page_invariant {Doc World} _.

End Callers.

(* ===================================================================== *)
(** ** [embeddings/vector_store.py]: [get_or_create] *)
(* ===================================================================== *)

Module VectorStore.
Import DataLoader.

(** What the methods can change: [self.vector_store] and the disk. *)
Record store_state (Store World : Type) : Type := StoreState {
  vector_store : option Store;
  disk : World
}.
Arguments StoreState {Store World} _ _.
Arguments vector_store {Store World} _.
Arguments disk {Store World} _.

Section Store.

Context {exn Store World : Type}.

(** [ValueError(message)] *)
Variable ValueError : str -> exn.
(** [os.path.exists(self.persist_directory)] *)
Variable path_exists : World -> bool.
(** [Chroma(collection_name=..., persist_directory=...)] *)
Variable open_store : World -> outcome exn Store * World.
(** [existing._collection.count()] *)
Variable collection_count : Store -> World -> outcome exn Z * World.
(** [Chroma.from_documents(documents=..., ...)] on the converted
    documents *)
Variable from_documents : list document -> World -> outcome exn Store * World.

Definition load_existing (st : store_state Store World)
  : outcome exn (option Store) * store_state Store World :=
  if path_exists (disk st) then
    match open_store (disk st) with
    | (Returned s, w) => (Returned (Some s), StoreState (Some s) w)
    | (Raised e, w) => (Raised e, StoreState (vector_store st) w)
    end
  else (Returned None, st).

Definition create_from_documents (documents : list document)
    (st : store_state Store World)
  : outcome exn Store * store_state Store World :=
  match from_documents documents (disk st) with
  | (Returned s, w) => (Returned s, StoreState (Some s) w)
  | (Raised e, w) => (Raised e, StoreState (vector_store st) w)
  end.

(** The end of [get_or_create]: "Create new if documents provided", or
    raise. *)
Definition create_or_raise (documents : option (list document))
    (st : store_state Store World)
  : outcome exn Store * store_state Store World :=
  match documents with
  | Some (d :: ds) => create_from_documents (d :: ds) st
  | _ =>
      (Raised (ValueError
         (lit "No existing vector store found and no documents provided")),
       st)
  end.

Definition get_or_create (documents : option (list document))
    (st : store_state Store World)
  : outcome exn Store * store_state Store World :=
  match load_existing st with
  | (Raised e, st1) => (Raised e, st1)
  | (Returned None, st1) => create_or_raise documents st1
  | (Returned (Some existing), st1) =>
      match collection_count existing (disk st1) with
      | (Returned count, w) =>
          if (0 <? count)%Z
          then (Returned existing, StoreState (vector_store st1) w)
          else create_or_raise documents (StoreState (vector_store st1) w)
      | (Raised _, w) =>
          create_or_raise documents (StoreState (vector_store st1) w)
      end
  end.

End Store.

End VectorStore.

(* ===================================================================== *)
(** * Facts *)
(* ===================================================================== *)

Import PyStr Regex DataLoader Chain Examples Shapes Callers VectorStore.

(** ** Strings *)

Lemma startswith_app (p r : str) : startswith (p ++ r) p = true.
Proof.
  induction p as [|c p IH]; simpl; [done|].
  by rewrite N.eqb_refl, IH.
Qed.

Lemma startswith_inv (s p : str) :
  startswith s p = true -> exists r, s = p ++ r.
Proof.
  revert s; induction p as [|c p IH]; intros s H; simpl in *.
  - by exists s.
  - destruct s as [|d s]; [done|].
    apply andb_true_iff in H as [Hc Hs]. apply N.eqb_eq in Hc as ->.
    destruct (IH _ Hs) as [r ->]. by exists r.
Qed.

Lemma contains_startswith (s needle : str) :
  startswith s needle = true -> contains s needle = true.
Proof. intros H. destruct s; simpl; by rewrite H. Qed.

Lemma contains_app (a needle b : str) :
  contains (a ++ needle ++ b) needle = true.
Proof.
  induction a as [|c a IH]; simpl.
  - apply contains_startswith, startswith_app.
  - rewrite IH. apply orb_true_r.
Qed.

Lemma contains_inv (s needle : str) :
  contains s needle = true -> exists a b, s = a ++ needle ++ b.
Proof.
  induction s as [|c s IH]; simpl; intros H.
  - rewrite orb_false_r in H. apply startswith_inv in H as [r ->].
    by exists [], r.
  - apply orb_true_iff in H as [H|H].
    + apply startswith_inv in H as [r ->]. by exists [], r.
    + destruct (IH H) as (a & b & ->). by exists (c :: a), b.
Qed.

Lemma lstrip_by_app_stop (p : N -> bool) (l t : str) (c : N) :
  p c = false -> lstrip_by p (l ++ c :: t) = lstrip_by p l ++ c :: t.
Proof.
  intros Hc. induction l as [|d l IH]; simpl.
  - by rewrite Hc.
  - destruct (p d); [apply IH | done].
Qed.

Lemma lstrip_by_idemp (p : N -> bool) (s : str) :
  lstrip_by p (lstrip_by p s) = lstrip_by p s.
Proof.
  induction s as [|c s IH]; simpl; [done|].
  destruct (p c) eqn:Hc; [done|]. simpl. by rewrite Hc.
Qed.

Lemma lstrip_by_head (p : N -> bool) (s : str) :
  lstrip_by p s = [] \/ exists c t, lstrip_by p s = c :: t /\ p c = false.
Proof.
  induction s as [|c s IH]; simpl; [by left|].
  destruct (p c) eqn:Hc; [done|]. right. by exists c, s.
Qed.

Lemma rstrip_by_cons_stop (p : N -> bool) (c : N) (t : str) :
  p c = false -> rstrip_by p (c :: t) = c :: rstrip_by p t.
Proof.
  intros Hc. unfold rstrip_by. simpl.
  rewrite lstrip_by_app_stop by done. by rewrite rev_app_distr.
Qed.

Lemma rstrip_by_idemp (p : N -> bool) (s : str) :
  rstrip_by p (rstrip_by p s) = rstrip_by p s.
Proof.
  unfold rstrip_by. by rewrite rev_involutive, lstrip_by_idemp.
Qed.

Lemma strip_idemp (s : str) : strip (strip s) = strip s.
Proof.
  unfold strip.
  destruct (lstrip_by_head Unicode.is_space s) as [E|(c & t & E & Hc)];
    rewrite E.
  - done.
  - rewrite rstrip_by_cons_stop by done. simpl. rewrite Hc.
    rewrite rstrip_by_cons_stop by done. by rewrite rstrip_by_idemp.
Qed.

(** A string that starts and ends with a non-blank character is left
    alone by [strip]. *)
Lemma strip_bounded (c d : N) (b : str) :
  Unicode.is_space c = false -> Unicode.is_space d = false ->
  strip (c :: b ++ [d]) = c :: b ++ [d].
Proof.
  intros Hc Hd. unfold strip. simpl. rewrite Hc.
  rewrite rstrip_by_cons_stop by done. f_equal.
  unfold rstrip_by. rewrite rev_app_distr. simpl. rewrite Hd.
  simpl. by rewrite rev_involutive.
Qed.

Lemma slice_1_minus_1_bounded (c d : N) (b : str) :
  slice_1_minus_1 (c :: b ++ [d]) = b.
Proof.
  unfold slice_1_minus_1. simpl.
  rewrite length_app. simpl.
  replace (length b + 1 - 0) with (S (length b)) by lia.
  simpl. by rewrite take_app_length.
Qed.

Lemma endswith_snoc (b : str) (d : N) : endswith (b ++ [d]) [d] = true.
Proof.
  unfold endswith. rewrite rev_app_distr. simpl. by rewrite N.eqb_refl.
Qed.

(** ** The matcher *)

Lemma mseq_nil (s : str) (caps : list str) (k : cont) :
  mseq [] s caps k = k s caps.
Proof. reflexivity. Qed.

Lemma mseq_cons (r : regex) (rs : list regex) (s : str) (caps : list str)
    (k : cont) :
  mseq (r :: rs) s caps k = m r s caps (fun s' caps' => mseq rs s' caps' k).
Proof. reflexivity. Qed.

Lemma m_group (body : list regex) (s : str) (caps : list str) (k : cont) :
  m (RGroup body) s caps k
  = mseq body s caps
      (fun s' caps' => k s' (caps' ++ [take (length s - length s') s])).
Proof. reflexivity. Qed.

Lemma m_alt (a b : list regex) (s : str) (caps : list str) (k : cont) :
  m (RAlt a b) s caps k = or_else (mseq a s caps k) (mseq b s caps k).
Proof. reflexivity. Qed.

Lemma m_star (p : N -> bool) (s : str) (caps : list str) (k : cont) :
  m (RStar p) s caps k = star p s (fun s' => k s' caps).
Proof. reflexivity. Qed.

Lemma m_char (c d : N) (s : str) (caps : list str) (k : cont) :
  m (RChar c) (d :: s) caps k = if (c =? d)%N then k s caps else None.
Proof. reflexivity. Qed.

Lemma m_char_same (c : N) (s : str) (caps : list str) (k : cont) :
  m (RChar c) (c :: s) caps k = k s caps.
Proof. rewrite m_char. by rewrite N.eqb_refl. Qed.

Lemma m_set (p : N -> bool) (d : N) (s : str) (caps : list str) (k : cont) :
  m (RSet p) (d :: s) caps k = if p d then k s caps else None.
Proof. reflexivity. Qed.

Lemma m_char_inv (c : N) (s : str) (caps : list str) (k : cont) (r : result) :
  m (RChar c) s caps k = Some r -> exists s', s = c :: s' /\ k s' caps = Some r.
Proof.
  destruct s as [|d s]; [done|]. rewrite m_char.
  destruct (c =? d)%N eqn:E; [|done]. apply N.eqb_eq in E as ->. eauto.
Qed.

Lemma m_set_inv (p : N -> bool) (s : str) (caps : list str) (k : cont)
    (r : result) :
  m (RSet p) s caps k = Some r ->
  exists d s', s = d :: s' /\ p d = true /\ k s' caps = Some r.
Proof.
  destruct s as [|d s]; [done|]. simpl.
  destruct (p d) eqn:E; [|done]. eauto.
Qed.

(** What a successful [p*] read: a run of [p] characters. *)
Lemma star_inv (p : N -> bool) (s : str) (k : str -> option result)
    (r : result) :
  star p s k = Some r ->
  exists w s', s = w ++ s' /\ forallb p w = true /\ k s' = Some r.
Proof.
  induction s as [|c s IH]; simpl; intros H.
  - by exists [], [].
  - destruct (p c) eqn:Hc.
    + destruct (star p s k) as [r'|] eqn:E; simpl in H.
      * injection H as ->. destruct (IH eq_refl) as (w & s' & -> & Hw & Hk).
        exists (c :: w), s'. simpl. by rewrite Hc, Hw.
      * by exists [], (c :: s).
    + by exists [], (c :: s).
Qed.

Lemma star_run (p : N -> bool) (w s : str) (k : str -> option result)
    (r : result) :
  forallb p w = true -> stops p s -> k s = Some r ->
  star p (w ++ s) k = Some r.
Proof.
  intros Hw Hs Hk. induction w as [|c w IH]; simpl in *.
  - destruct s as [|c s]; [done|]. simpl in *. by rewrite Hs.
  - apply andb_true_iff in Hw as [Hc Hw]. rewrite Hc, IH by done. done.
Qed.

Lemma take_consumed (w s : str) : take (length (w ++ s) - length s) (w ++ s) = w.
Proof.
  rewrite length_app. replace (length w + length s - length s) with (length w) by lia.
  apply take_app_length.
Qed.

Lemma lit_NULL : lit "NULL" = [78; 85; 76; 76]%N.
Proof. reflexivity. Qed.

Lemma text_NULL :
  text (lit "NULL") = [RChar 78; RChar 85; RChar 76; RChar 76]%N.
Proof. reflexivity. Qed.

Lemma digits_regex (rest : list regex) :
  group_regex Digits ++ rest
  = RGroup [RSet Unicode.is_decimal; RStar Unicode.is_decimal] :: rest.
Proof. reflexivity. Qed.

Lemma quoted_regex (rest : list regex) :
  group_regex Quoted ++ rest
  = RChar QUOTE :: RGroup [RStar not_quote] :: RChar QUOTE :: rest.
Proof. reflexivity. Qed.

Lemma null_or_quoted_regex (rest : list regex) :
  group_regex NullOrQuoted ++ rest
  = RGroup [RAlt [RChar 78; RChar 85; RChar 76; RChar 76]%N
                 [RChar QUOTE; RStar not_quote; RChar QUOTE]] :: rest.
Proof. reflexivity. Qed.

Lemma value_sep_regex (rest : list regex) :
  value_sep ++ rest = RChar COMMA :: RStar Unicode.is_space :: rest.
Proof. reflexivity. Qed.

Lemma or_else_None (b : option result) : or_else None b = b.
Proof. reflexivity. Qed.

(** ** The groups of [insert_pattern] *)

Section Groups.

Variables (rest : list regex) (caps : list str) (k : cont) (x : result).

Lemma digits_match (d s : str) :
  d <> [] -> forallb Unicode.is_decimal d = true ->
  stops Unicode.is_decimal s ->
  mseq rest s (caps ++ [d]) k = Some x ->
  mseq (group_regex Digits ++ rest) (d ++ s) caps k = Some x.
Proof.
  intros Hne Hd Hs Hk. destruct d as [|c d]; [done|].
  simpl in Hd. apply andb_true_iff in Hd as [Hc Hd].
  rewrite digits_regex. change ((c :: d) ++ s) with (c :: d ++ s).
  rewrite mseq_cons, m_group, mseq_cons, m_set, Hc.
  rewrite mseq_cons, m_star.
  apply star_run; [done..|]. rewrite mseq_nil.
  change (c :: d ++ s) with ((c :: d) ++ s). by rewrite take_consumed.
Qed.

Lemma digits_inv (s : str) :
  mseq (group_regex Digits ++ rest) s caps k = Some x ->
  exists d s', s = d ++ s' /\ d <> [] /\ forallb Unicode.is_decimal d = true
    /\ mseq rest s' (caps ++ [d]) k = Some x.
Proof.
  rewrite digits_regex, mseq_cons, m_group, mseq_cons. intros H.
  apply m_set_inv in H as (c & s1 & -> & Hc & H).
  rewrite mseq_cons, m_star in H.
  apply star_inv in H as (w & s' & -> & Hw & H). rewrite mseq_nil in H.
  change (c :: w ++ s') with ((c :: w) ++ s') in H.
  rewrite take_consumed in H.
  exists (c :: w), s'. simpl. by rewrite Hc, Hw.
Qed.

Lemma quoted_match (b s : str) :
  forallb not_quote b = true ->
  mseq rest s (caps ++ [b]) k = Some x ->
  mseq (group_regex Quoted ++ rest) (QUOTE :: b ++ QUOTE :: s) caps k = Some x.
Proof.
  intros Hb Hk. rewrite quoted_regex, mseq_cons, m_char_same.
  rewrite mseq_cons, m_group, mseq_cons, m_star.
  apply star_run; [done..|]. rewrite mseq_nil.
  by rewrite take_consumed, mseq_cons, m_char_same.
Qed.

Lemma quoted_inv (s : str) :
  mseq (group_regex Quoted ++ rest) s caps k = Some x ->
  exists b s', s = QUOTE :: b ++ QUOTE :: s' /\ forallb not_quote b = true
    /\ mseq rest s' (caps ++ [b]) k = Some x.
Proof.
  rewrite quoted_regex, mseq_cons. intros H.
  apply m_char_inv in H as (s1 & -> & H).
  rewrite mseq_cons, m_group, mseq_cons, m_star in H.
  apply star_inv in H as (b & s2 & -> & Hb & H). rewrite mseq_nil in H.
  rewrite take_consumed, mseq_cons in H.
  apply m_char_inv in H as (s' & -> & H). eauto.
Qed.

Lemma null_match (s : str) :
  mseq rest s (caps ++ [lit "NULL"]) k = Some x ->
  mseq (group_regex NullOrQuoted ++ rest) (lit "NULL" ++ s) caps k = Some x.
Proof.
  intros Hk. rewrite null_or_quoted_regex, mseq_cons, m_group, mseq_cons, m_alt.
  rewrite lit_NULL in *. simpl app.
  repeat (rewrite mseq_cons, m_char_same). rewrite !mseq_nil.
  replace (S (S (S (S (length s)))) - length s) with 4 by lia.
  simpl take. by rewrite take_0, Hk.
Qed.

Lemma null_or_quoted_match (b s : str) :
  forallb not_quote b = true ->
  mseq rest s (caps ++ [QUOTE :: b ++ [QUOTE]]) k = Some x ->
  mseq (group_regex NullOrQuoted ++ rest) (QUOTE :: b ++ QUOTE :: s) caps k
  = Some x.
Proof.
  intros Hb Hk. rewrite null_or_quoted_regex, mseq_cons, m_group, mseq_cons, m_alt.
  rewrite (mseq_cons (RChar 78)), m_char.
  change (78 =? QUOTE)%N with false. cbv iota.
  rewrite or_else_None, mseq_cons, m_char_same.
  rewrite mseq_cons, m_star. apply star_run; [done..|].
  rewrite mseq_cons, m_char_same, !mseq_nil.
  replace (QUOTE :: b ++ QUOTE :: s) with ((QUOTE :: b ++ [QUOTE]) ++ s)
    by (simpl; by rewrite <- app_assoc).
  by rewrite take_consumed.
Qed.

Lemma null_or_quoted_inv (s : str) :
  mseq (group_regex NullOrQuoted ++ rest) s caps k = Some x ->
  (exists s', s = lit "NULL" ++ s'
     /\ mseq rest s' (caps ++ [lit "NULL"]) k = Some x)
  \/ (exists b s', s = QUOTE :: b ++ QUOTE :: s'
        /\ forallb not_quote b = true
        /\ mseq rest s' (caps ++ [QUOTE :: b ++ [QUOTE]]) k = Some x).
Proof.
  rewrite null_or_quoted_regex, mseq_cons, m_group, mseq_cons, m_alt. intros H.
  match type of H with or_else ?a ?b = _ =>
    destruct a as [r|] eqn:Ha end.
  - cbv beta iota delta [or_else] in H. injection H as ->. left.
    rewrite mseq_cons in Ha. apply m_char_inv in Ha as (s1 & -> & Ha).
    rewrite mseq_cons in Ha. apply m_char_inv in Ha as (s1' & -> & Ha).
    rewrite mseq_cons in Ha. apply m_char_inv in Ha as (s1 & -> & Ha).
    rewrite mseq_cons in Ha. apply m_char_inv in Ha as (s' & -> & Ha).
    rewrite !mseq_nil in Ha. exists s'. rewrite lit_NULL. split; [done|].
    change (78 :: 85 :: 76 :: 76 :: s')%N with ([78; 85; 76; 76]%N ++ s') in Ha.
    by rewrite take_consumed in Ha.
  - right. rewrite or_else_None, mseq_cons in H. apply m_char_inv in H as (s1 & -> & H).
    rewrite mseq_cons, m_star in H.
    apply star_inv in H as (b & s2 & -> & Hb & H).
    rewrite mseq_cons in H. apply m_char_inv in H as (s' & -> & H).
    rewrite !mseq_nil in H. exists b, s'. split; [done|]. split; [done|].
    replace (QUOTE :: b ++ QUOTE :: s') with ((QUOTE :: b ++ [QUOTE]) ++ s')
      in H by (simpl; by rewrite <- app_assoc).
    by rewrite take_consumed in H.
Qed.

Lemma sep_match (ws s : str) :
  forallb Unicode.is_space ws = true -> stops Unicode.is_space s ->
  mseq rest s caps k = Some x ->
  mseq (value_sep ++ rest) (COMMA :: ws ++ s) caps k = Some x.
Proof.
  intros Hws Hs Hk. rewrite value_sep_regex, mseq_cons, m_char_same.
  rewrite mseq_cons, m_star. by apply star_run.
Qed.

Lemma sep_inv (s : str) :
  mseq (value_sep ++ rest) s caps k = Some x ->
  exists ws s', s = COMMA :: ws ++ s'
    /\ forallb Unicode.is_space ws = true /\ mseq rest s' caps k = Some x.
Proof.
  rewrite value_sep_regex, mseq_cons. intros H.
  apply m_char_inv in H as (s1 & -> & H). rewrite mseq_cons, m_star in H.
  apply star_inv in H as (ws & s' & -> & Hws & H). eauto.
Qed.

End Groups.

(** ** The whole pattern *)

Lemma insert_pattern_eq :
  insert_pattern
  = RChar LPAREN :: group_regex Digits
    ++ fields_pattern (tail insert_groups) ++ [RChar RPAREN].
Proof. reflexivity. Qed.

Lemma token_text_stops (g : group_kind) (t : token) (s : str) :
  admits g t = true -> stops Unicode.is_space (token_text t ++ s).
Proof. destruct t; intros _; reflexivity. Qed.

Lemma fields_match (gs : list group_kind) :
  forall fs rest s caps k x,
  fields_ok gs fs = true ->
  mseq rest s (caps ++ captures gs fs) k = Some x ->
  mseq (fields_pattern gs ++ rest) (fields_text fs ++ s) caps k = Some x.
Proof.
  induction gs as [|g gs IH]; intros [|[ws t] fs] rest s caps k x Hok Hk;
    try done.
  - simpl in *. by rewrite app_nil_r in Hk.
  - simpl in Hok. apply andb_true_iff in Hok as [Hok Hfs].
    apply andb_true_iff in Hok as [Hws Ht].
    cbn [fields_pattern fields_text captures] in *.
    rewrite <- !app_assoc.
    change ((COMMA :: ws ++ token_text t ++ fields_text fs) ++ s)
      with (COMMA :: (ws ++ token_text t ++ fields_text fs) ++ s).
    rewrite <- !app_assoc.
    apply sep_match; [done|by eapply token_text_stops|].
    assert (mseq (fields_pattern gs ++ rest) (fields_text fs ++ s)
              (caps ++ [capture g t]) k = Some x) as Hnext.
    { apply IH; [done|]. by rewrite <- app_assoc. }
    destruct g, t; try done; simpl token_text.
    + change ((QUOTE :: body ++ [QUOTE]) ++ fields_text fs ++ s)
        with (QUOTE :: (body ++ [QUOTE]) ++ fields_text fs ++ s).
      rewrite <- app_assoc. by apply quoted_match.
    + by apply null_match.
    + change ((QUOTE :: body ++ [QUOTE]) ++ fields_text fs ++ s)
        with (QUOTE :: (body ++ [QUOTE]) ++ fields_text fs ++ s).
      rewrite <- app_assoc. by apply null_or_quoted_match.
Qed.

Lemma fields_inv (gs : list group_kind) :
  forall rest s caps k x,
  mseq (fields_pattern gs ++ rest) s caps k = Some x ->
  exists cs s', Forall2 capture_ok gs cs
    /\ mseq rest s' (caps ++ cs) k = Some x.
Proof.
  induction gs as [|g gs IH]; intros rest s caps k x H.
  - exists [], s. split; [constructor|]. by rewrite app_nil_r.
  - cbn [fields_pattern] in H. rewrite <- !app_assoc in H.
    apply sep_inv in H as (ws & s1 & -> & Hws & H).
    assert (exists c s2, capture_ok g c
      /\ mseq (fields_pattern gs ++ rest) s2 (caps ++ [c]) k = Some x)
      as (c & s2 & Hc & H2).
    { destruct g.
      - apply digits_inv in H as (d & s2 & -> & Hne & Hd & H).
        by exists d, s2.
      - apply quoted_inv in H as (b & s2 & -> & Hb & H). by exists b, s2.
      - apply null_or_quoted_inv in H
          as [(s2 & -> & H)|(b & s2 & -> & Hb & H)].
        + exists (lit "NULL"), s2. split; [by left|done].
        + exists (QUOTE :: b ++ [QUOTE]), s2. split; [right; eauto|done]. }
    apply IH in H2 as (cs & s' & Hcs & H').
    exists (c :: cs), s'. split; [by constructor|].
    by rewrite <- app_assoc in H'.
Qed.

(** Every match of [insert_pattern] has one text per group, of the shape
    of its group. *)
Lemma match_here_insert_inv (s rest : str) (caps : list str) :
  match_here insert_pattern s = Some (caps, rest) ->
  Forall2 capture_ok insert_groups caps.
Proof.
  unfold match_here. rewrite insert_pattern_eq, mseq_cons. intros H.
  apply m_char_inv in H as (s1 & -> & H).
  apply digits_inv in H as (d & s2 & -> & Hne & Hd & H).
  apply fields_inv in H as (cs & s3 & Hcs & H).
  rewrite mseq_cons in H. apply m_char_inv in H as (s4 & -> & H).
  rewrite mseq_nil in H. injection H as <- <-.
  change insert_groups with (Digits :: tail insert_groups).
  simpl app. constructor; [done|done].
Qed.

Lemma Forall2_capture_length (caps : list str) :
  Forall2 capture_ok insert_groups caps -> length caps = 23.
Proof. intros H. by rewrite <- (Forall2_length _ _ _ H). Qed.

(** ** [findall] *)

Lemma findall_from_inv (rs : list regex) (s : str) :
  forall skip caps, caps ∈ findall_from rs skip s ->
  exists s' rest, match_here rs s' = Some (caps, rest).
Proof.
  induction s as [|c s IH]; intros skip caps H; simpl in H.
  - destruct skip; [|by apply elem_of_nil in H].
    destruct (match_here rs []) as [[caps' rest]|] eqn:E;
      [|by apply elem_of_nil in H].
    apply list_elem_of_singleton in H as ->. eauto.
  - destruct skip as [|n]; [|by eapply IH].
    destruct (match_here rs (c :: s)) as [[caps' rest]|] eqn:E;
      [|by eapply IH].
    apply elem_of_cons in H as [->|H]; [eauto|by eapply IH].
Qed.

Lemma findall_from_skip_all (rs : list regex) (s : str) :
  match_here rs [] = None -> findall_from rs (length s) s = [].
Proof.
  intros H. induction s as [|c s IH]; simpl; [by rewrite H|done].
Qed.

Lemma findall_whole (rs : list regex) (s : str) (caps : list str) :
  s <> [] -> match_here rs s = Some (caps, []) -> match_here rs [] = None ->
  findall rs s = [caps].
Proof.
  intros Hne H Hnil. destruct s as [|c s]; [done|].
  unfold findall. simpl. rewrite H. simpl.
  rewrite Nat.sub_0_r. by rewrite findall_from_skip_all.
Qed.

(** ** The fallback tokenizer *)

Lemma scan_closed (tok : str) : forall q values current,
  closed_from q tok = true ->
  fold_left scan_char tok (ScanState values current q)
  = ScanState values (current ++ tok) false.
Proof.
  induction tok as [|c t IH]; intros q values current H; simpl in *.
  - destruct q; [done|]. by rewrite app_nil_r.
  - destruct (c =? QUOTE)%N eqn:Hq.
    + destruct q; simpl; rewrite IH by done; by rewrite <- app_assoc.
    + destruct (c =? COMMA)%N eqn:Hc; destruct q; simpl in *; try done;
        rewrite IH by done; by rewrite <- app_assoc.
Qed.

Lemma scan_comma (s : str) (values : list str) (current : str) :
  fold_left scan_char (COMMA :: s) (ScanState values current false)
  = fold_left scan_char s (ScanState (values ++ [strip current]) [] false).
Proof. reflexivity. Qed.

Lemma scan_tokens (toks : list str) : forall values tok,
  Forall (fun t => closed_token t = true) (tok :: toks) ->
  fold_left scan_char (join [COMMA] (tok :: toks)) (ScanState values [] false)
  = ScanState (values ++ List.map strip (removelast (tok :: toks)))
              (List.last (tok :: toks) []) false.
Proof.
  induction toks as [|t toks IH]; intros values tok H.
  - simpl. inversion H; subst. rewrite scan_closed by done.
    by rewrite app_nil_r.
  - inversion H as [|? ? Htok H']; subst.
    change (join [COMMA] (tok :: t :: toks))
      with (tok ++ [COMMA] ++ join [COMMA] (t :: toks)).
    rewrite fold_left_app, scan_closed by done.
    change ([COMMA] ++ join [COMMA] (t :: toks))
      with (COMMA :: join [COMMA] (t :: toks)).
    rewrite scan_comma, IH by done.
    change (removelast (tok :: t :: toks)) with (tok :: removelast (t :: toks)).
    change (List.last (tok :: t :: toks) []) with (List.last (t :: toks) []).
    simpl List.map. by rewrite <- app_assoc.
Qed.

(** The values read from a record made of closed tokens separated by
    commas: one per token, stripped; a last token that is empty is not
    counted. *)
Lemma raw_values_join (toks : list str) :
  Forall (fun t => closed_token t = true) toks ->
  List.last toks [] <> [] ->
  raw_values (join [COMMA] toks) = List.map strip toks.
Proof.
  intros H Hlast. destruct toks as [|tok toks]; [done|].
  unfold raw_values. rewrite scan_tokens by done.
  destruct (List.last (tok :: toks) []) as [|c l] eqn:E; [done|].
  rewrite <- E, app_nil_l.
  pose proof (app_removelast_last (l:=tok :: toks) [] ltac:(done)) as Hsplit.
  set (r := removelast _) in *. set (x := List.last _ _) in *.
  rewrite Hsplit. by rewrite map_app.
Qed.

(** ** Building a record *)

Lemma enumerate_snoc {A : Type} (l : list A) (x : A) :
  enumerate (l ++ [x]) = enumerate l ++ [(length l, x)].
Proof.
  unfold enumerate. rewrite imap_app. simpl.
  by rewrite Nat.add_0_r.
Qed.

Section Build.

Variable step : gmap string (option str) -> nat * string -> gmap string (option str).
Variable f : nat -> option str.
Hypothesis step_insert : forall v i col, step v (i, col) = <[col := f i]> v.

Lemma build_snoc (cols : list string) (col : string) :
  fold_left step (enumerate (cols ++ [col])) ∅
  = <[col := f (length cols)]> (fold_left step (enumerate cols) ∅).
Proof.
  rewrite enumerate_snoc, fold_left_app. simpl. apply step_insert.
Qed.

Lemma build_dom (cols : list string) :
  dom (fold_left step (enumerate cols) ∅) = list_to_set cols.
Proof.
  induction cols as [|col cols IH] using rev_ind.
  - simpl. by rewrite dom_empty_L.
  - rewrite build_snoc, dom_insert_L, IH, list_to_set_app_L. simpl.
    rewrite (right_id_L ∅ (∪)). apply (comm_L (∪)).
Qed.

Lemma build_lookup (cols : list string) :
  NoDup cols -> forall i col, cols !! i = Some col ->
  fold_left step (enumerate cols) ∅ !! col = Some (f i).
Proof.
  induction cols as [|c cols IH] using rev_ind; intros Hnd i col Hi.
  - done.
  - rewrite build_snoc.
    apply NoDup_app in Hnd as (Hnd & Hfresh & _).
    destruct (decide (i < length cols)) as [Hlt|Hge].
    + rewrite lookup_app_l in Hi by done.
      rewrite lookup_insert_ne; [by apply IH|].
      intros ->. eapply Hfresh; [by eapply list_elem_of_lookup_2|].
      apply list_elem_of_singleton. done.
    + rewrite lookup_app_r in Hi by lia.
      destruct (i - length cols) as [|n] eqn:E; [|done].
      simpl in Hi. injection Hi as ->.
      assert (i = length cols) as -> by lia.
      by rewrite lookup_insert_eq.
Qed.

End Build.

Lemma voter_of_match_step (mt : list str) (v : gmap string (option str))
    (i : nat) (col : string) :
  (let '(i, col) := (i, col) in
   match mt !! i with
   | Some value => <[col := clean_match_value value]> v
   | None => <[col := None]> v
   end) = <[col := match_field mt i]> v.
Proof. unfold match_field. by destruct (mt !! i). Qed.

Lemma voter_of_values_step (values : list (option str))
    (v : gmap string (option str)) (i : nat) (col : string) :
  (let value := match values !! i with Some v => v | None => None end in
   match value with
   | None => <[col := None]> v
   | Some x =>
       if str_eqb x (lit "NULL") then <[col := None]> v
       else <[col := Some (strip_chars (lit "'") x)]> v
   end) = <[col := values_field values i]> v.
Proof.
  unfold values_field. destruct (values !! i) as [[x|]|]; simpl; try done.
  by destruct (str_eqb x (lit "NULL")).
Qed.

Lemma columns_NoDup : NoDup columns.
Proof. apply (bool_decide_unpack (NoDup columns)). vm_compute. exact I. Qed.

Lemma columns_length : length columns = 23.
Proof. reflexivity. Qed.

Lemma voter_of_match_dom (mt : list str) :
  dom (voter_of_match mt) = list_to_set columns.
Proof.
  unfold voter_of_match.
  apply (build_dom _ (match_field mt)). intros v i col.
  apply voter_of_match_step.
Qed.

Lemma voter_of_match_lookup (mt : list str) (i : nat) (col : string) :
  columns !! i = Some col -> voter_of_match mt !! col = Some (match_field mt i).
Proof.
  unfold voter_of_match.
  apply (build_lookup _ (match_field mt)); [|apply columns_NoDup].
  intros v j c. apply voter_of_match_step.
Qed.

Lemma voter_of_values_dom (cols : list string) (values : list (option str)) :
  dom (voter_of_values cols values) = list_to_set cols.
Proof.
  unfold voter_of_values.
  apply (build_dom _ (values_field values)). intros v i col.
  apply voter_of_values_step.
Qed.

Lemma voter_of_values_lookup (cols : list string) (values : list (option str))
    (i : nat) (col : string) :
  NoDup cols -> cols !! i = Some col ->
  voter_of_values cols values !! col = Some (values_field values i).
Proof.
  intros Hnd. unfold voter_of_values.
  apply (build_lookup _ (values_field values)); [|done].
  intros v j c. apply voter_of_values_step.
Qed.

(** ** Well-formed rows and the values of a match *)

Lemma fields_text_stops (fs : list (str * token)) :
  stops Unicode.is_decimal (fields_text fs ++ [RPAREN]).
Proof. destruct fs as [|[ws t] fs]; reflexivity. Qed.

Lemma match_here_row (r : row_tuple) :
  well_formed r = true ->
  match_here insert_pattern (row_text r) = Some (row_captures r, []).
Proof.
  unfold well_formed. intros H.
  apply andb_true_iff in H as [H Hfs]. apply andb_true_iff in H as [Hne Hd].
  unfold match_here, row_text, row_captures.
  rewrite insert_pattern_eq, mseq_cons, m_char_same.
  apply digits_match; [by destruct (row_id r)|done|apply fields_text_stops|].
  apply fields_match; [done|].
  by rewrite mseq_cons, m_char_same, mseq_nil.
Qed.

Lemma match_here_insert_nil : match_here insert_pattern [] = None.
Proof. reflexivity. Qed.

Lemma primary_voters_row (r : row_tuple) :
  well_formed r = true ->
  primary_voters (row_text r) = [voter_of_match (row_captures r)].
Proof.
  intros H. unfold primary_voters.
  rewrite (findall_whole _ _ (row_captures r)); [done|done| |].
  - by apply match_here_row.
  - apply match_here_insert_nil.
Qed.

Lemma primary_voters_inv (content : str) (v : gmap string (option str)) :
  v ∈ primary_voters content ->
  exists caps, v = voter_of_match caps
    /\ Forall2 capture_ok insert_groups caps.
Proof.
  unfold primary_voters. intros H.
  apply list_elem_of_fmap in H as (caps & -> & H).
  apply findall_from_inv in H as (s' & rest & H).
  exists caps. split; [done|]. by eapply match_here_insert_inv.
Qed.

Lemma is_decimal_not_quote (c : N) :
  Unicode.is_decimal c = true -> not_quote c = true.
Proof.
  intros H. unfold not_quote. destruct (c =? QUOTE)%N eqn:E; [|done].
  apply N.eqb_eq in E as ->. done.
Qed.

Lemma forallb_impl (p q : N -> bool) (s : str) :
  (forall c, p c = true -> q c = true) ->
  forallb p s = true -> forallb q s = true.
Proof.
  intros Hpq. induction s as [|c s IH]; simpl; [done|].
  intros H. apply andb_true_iff in H as [Hc Hs]. by rewrite Hpq, IH.
Qed.

Lemma startswith_quote_inv (s : str) :
  startswith s (lit "'") = true -> exists t, s = QUOTE :: t.
Proof. intros H. apply startswith_inv in H as [t ->]. by exists t. Qed.

Lemma no_quote_not_NULL_or_same (cap : str) :
  forallb not_quote cap = true ->
  clean_match_value cap = if str_eqb cap (lit "NULL") then None else Some cap.
Proof.
  intros H. unfold clean_match_value.
  destruct (str_eqb cap (lit "NULL")); [done|].
  destruct (startswith cap (lit "'")) eqn:E; [|done].
  apply startswith_quote_inv in E as [t ->]. done.
Qed.

Lemma clean_quoted_capture (b : str) :
  clean_match_value (QUOTE :: b ++ [QUOTE]) = Some b.
Proof.
  unfold clean_match_value.
  assert (str_eqb (QUOTE :: b ++ [QUOTE]) (lit "NULL") = false) as ->.
  { apply bool_decide_eq_false_2. by intros [=]. }
  change (lit "'") with [QUOTE].
  assert (startswith (QUOTE :: b ++ [QUOTE]) [QUOTE] = true) as ->
    by reflexivity.
  assert (endswith (QUOTE :: b ++ [QUOTE]) [QUOTE] = true) as ->
    by apply (endswith_snoc (QUOTE :: b)).
  simpl andb. cbv iota. by rewrite slice_1_minus_1_bounded.
Qed.

(** A value of a match never holds a quote character. *)
Lemma clean_capture_no_quote (g : group_kind) (cap x : str) :
  capture_ok g cap -> clean_match_value cap = Some x ->
  forallb not_quote x = true.
Proof.
  destruct g; simpl.
  - intros [_ Hd] H.
    assert (forallb not_quote cap = true) as Hq
      by (eapply forallb_impl; [apply is_decimal_not_quote|done]).
    rewrite no_quote_not_NULL_or_same in H by done.
    destruct (str_eqb cap (lit "NULL")); [done|]. by injection H as <-.
  - intros Hq H. rewrite no_quote_not_NULL_or_same in H by done.
    destruct (str_eqb cap (lit "NULL")); [done|]. by injection H as <-.
  - intros [->|(b & -> & Hb)] H; [done|].
    rewrite clean_quoted_capture in H. by injection H as <-.
Qed.

Lemma clean_capture_value (g : group_kind) (t : token) :
  admits g t = true -> clean_match_value (capture g t) = token_value g t.
Proof.
  destruct g, t; try done; simpl; intros H.
  - by apply no_quote_not_NULL_or_same.
  - apply clean_quoted_capture.
Qed.

Lemma clean_digits (d : str) :
  forallb Unicode.is_decimal d = true -> clean_match_value d = Some d.
Proof.
  intros Hd.
  rewrite no_quote_not_NULL_or_same
    by (eapply forallb_impl; [apply is_decimal_not_quote|done]).
  destruct (str_eqb d (lit "NULL")) eqn:E; [|done].
  apply bool_decide_eq_true_1 in E as ->. done.
Qed.

(** ** Chunks of the fallback strategy *)

Lemma dom_declared_keys (v : gmap string (option str)) :
  dom v = list_to_set columns -> has_declared_keys v.
Proof.
  intros H col. rewrite <- elem_of_dom, H. by rewrite elem_of_list_to_set.
Qed.

Lemma voter_of_values_take (values : list (option str)) :
  voter_of_values columns (take (length columns) values)
  = voter_of_values columns values.
Proof.
  apply map_eq. intros col.
  destruct (decide (col ∈ columns)) as [Hin|Hnin].
  - apply list_elem_of_lookup in Hin as [i Hi].
    rewrite !(voter_of_values_lookup _ _ i) by (done || apply columns_NoDup).
    f_equal. unfold values_field.
    rewrite lookup_take_lt; [done|]. by eapply lookup_lt_Some.
  - transitivity (@None (option str)); [|symmetry];
      apply not_elem_of_dom; rewrite voter_of_values_dom;
      by rewrite elem_of_list_to_set.
Qed.

Lemma record_voter_short (chunk : str) :
  length (parse_record_values (trim_record chunk)) < length columns ->
  record_voter columns chunk = None.
Proof.
  intros H. unfold record_voter.
  destruct (trim_record chunk) as [|c t]; [done|].
  destruct (length columns <=? _) eqn:E; [|done].
  apply Nat.leb_le in E. lia.
Qed.

Lemma record_voter_long (chunk : str) :
  trim_record chunk <> [] ->
  length columns <= length (parse_record_values (trim_record chunk)) ->
  record_voter columns chunk
  = Some (voter_of_values columns (parse_record_values (trim_record chunk))).
Proof.
  intros Hne H. unfold record_voter.
  destruct (trim_record chunk) as [|c t]; [done|].
  apply Nat.leb_le in H. by rewrite H.
Qed.

Lemma record_voter_inv (chunk : str) (v : gmap string (option str)) :
  record_voter columns chunk = Some v ->
  v = voter_of_values columns (parse_record_values (trim_record chunk))
  /\ length columns <= length (parse_record_values (trim_record chunk)).
Proof.
  unfold record_voter. destruct (trim_record chunk) as [|c t]; [done|].
  destruct (length columns <=? _) eqn:E; [|done].
  apply Nat.leb_le in E. intros [= <-]. done.
Qed.

Lemma parse_sql_alternative_inv (content : str)
    (v : gmap string (option str)) :
  v ∈ parse_sql_alternative content columns ->
  exists chunk, chunk ∈ records content /\ record_voter columns chunk = Some v.
Proof.
  unfold parse_sql_alternative. intros H.
  apply list_elem_of_omap in H as (chunk & Hin & H). eauto.
Qed.

(** ** Tokens with a doubled quote *)

Lemma closed_in_quotes (a s : str) :
  forallb not_quote a = true -> closed_from true (a ++ s) = closed_from true s.
Proof.
  induction a as [|c a IH]; simpl; [done|]. intros H.
  apply andb_true_iff in H as [Hc Ha]. unfold not_quote in Hc.
  apply negb_true_iff in Hc. rewrite Hc, andb_false_r. by apply IH.
Qed.

Lemma closed_from_quote (q : bool) (t : str) :
  closed_from q (QUOTE :: t) = closed_from (negb q) t.
Proof. reflexivity. Qed.

Lemma doubled_quote_closed (a b : str) :
  forallb not_quote a = true -> forallb not_quote b = true ->
  closed_token (doubled_quote_token a b) = true.
Proof.
  intros Ha Hb. unfold closed_token, doubled_quote_token.
  rewrite closed_from_quote. simpl negb.
  rewrite closed_in_quotes by done.
  change ([QUOTE; QUOTE] ++ b ++ [QUOTE])
    with (QUOTE :: QUOTE :: b ++ [QUOTE]).
  rewrite !closed_from_quote. simpl negb.
  by rewrite closed_in_quotes.
Qed.

Lemma doubled_quote_clean (a b : str) :
  clean_value (doubled_quote_token a b) = Some (a ++ [QUOTE; QUOTE] ++ b).
Proof.
  unfold clean_value, doubled_quote_token.
  replace (QUOTE :: a ++ [QUOTE; QUOTE] ++ b ++ [QUOTE])
    with (QUOTE :: (a ++ [QUOTE; QUOTE] ++ b) ++ [QUOTE])
    by (by rewrite <- !app_assoc).
  rewrite strip_bounded by done.
  change (lit "'") with [QUOTE].
  assert (startswith (QUOTE :: (a ++ [QUOTE; QUOTE] ++ b) ++ [QUOTE]) [QUOTE]
          = true) as -> by reflexivity.
  assert (endswith (QUOTE :: (a ++ [QUOTE; QUOTE] ++ b) ++ [QUOTE]) [QUOTE]
          = true) as ->
    by apply (endswith_snoc (QUOTE :: _)).
  simpl andb. cbv iota. by rewrite slice_1_minus_1_bounded.
Qed.

Lemma lstrip_quotes_stop (c : N) (s : str) :
  not_quote c = true ->
  lstrip_by (fun c => bool_decide (c ∈ lit "'")) (c :: s) = c :: s.
Proof.
  intros Hc. simpl. rewrite bool_decide_eq_false_2; [done|].
  intros H. apply list_elem_of_singleton in H. subst c. done.
Qed.

(** [strip("'")] leaves alone a text that neither starts nor ends with a
    quote. *)
Lemma strip_chars_quote_bounded (c d : N) (s : str) :
  not_quote c = true -> not_quote d = true ->
  strip_chars (lit "'") (c :: s ++ [d]) = c :: s ++ [d].
Proof.
  intros Hc Hd. unfold strip_chars. cbv zeta.
  rewrite (lstrip_quotes_stop c (s ++ [d]) Hc).
  unfold rstrip_by. change (c :: s ++ [d]) with ((c :: s) ++ [d]).
  rewrite rev_unit, (lstrip_quotes_stop d _ Hd).
  change (d :: rev (c :: s)) with (rev [d] ++ rev (c :: s)).
  by rewrite <- rev_app_distr, rev_involutive.
Qed.

Lemma doubled_quote_field (a b : str) (values : list (option str)) (i : nat) :
  a <> [] -> b <> [] ->
  forallb not_quote a = true -> forallb not_quote b = true ->
  values !! i = Some (Some (a ++ [QUOTE; QUOTE] ++ b)) ->
  values_field values i = Some (a ++ [QUOTE; QUOTE] ++ b).
Proof.
  intros Hane Hbne Ha Hb Hi. unfold values_field. rewrite Hi.
  destruct a as [|c a]; [done|].
  destruct (rev b) as [|d b'] eqn:Eb.
  { apply (f_equal (@rev N)) in Eb. rewrite rev_involutive in Eb. done. }
  assert (b = rev b' ++ [d]) as ->.
  { apply (f_equal (@rev N)) in Eb. by rewrite rev_involutive in Eb. }
  simpl in Ha. apply andb_true_iff in Ha as [Hc Ha].
  rewrite forallb_app in Hb. apply andb_true_iff in Hb as [Hb Hd].
  simpl in Hd. rewrite andb_true_r in Hd.
  assert (str_eqb ((c :: a) ++ [QUOTE; QUOTE] ++ rev b' ++ [d]) (lit "NULL")
          = false) as ->.
  { apply bool_decide_eq_false_2. intros E.
    apply (f_equal (forallb not_quote)) in E. rewrite forallb_app in E.
    change (forallb not_quote ([QUOTE; QUOTE] ++ rev b' ++ [d]))
      with false in E.
    by rewrite andb_false_r in E. }
  f_equal.
  replace ((c :: a) ++ [QUOTE; QUOTE] ++ rev b' ++ [d])
    with (c :: (a ++ [QUOTE; QUOTE] ++ rev b') ++ [d])
    by (simpl; by rewrite <- !app_assoc).
  by apply strip_chars_quote_bounded.
Qed.

(** ** The conversation manager *)

Lemma existsb_Exists {A : Type} (f : A -> bool) (l : list A) :
  existsb f l = true <-> Exists (fun x => f x = true) l.
Proof.
  rewrite existsb_exists, Exists_exists. split.
  - intros (x & Hin & Hx). exists x. split; [by apply list_elem_of_In|done].
  - intros (x & Hin & Hx). exists x. split; [by apply list_elem_of_In|done].
Qed.

Lemma contains_iff (s needle : str) :
  contains s needle = true <-> exists a b, s = a ++ needle ++ b.
Proof.
  split; [apply contains_inv|]. intros (a & b & ->). apply contains_app.
Qed.

Section Manager.

Variable lower : str -> str.

Lemma is_follow_up_iff (q : str) :
  _is_follow_up lower q = true
  <-> length (PyStr.split q) < 5
      /\ Exists (fun indicator => exists a b, lower q = a ++ indicator ++ b)
           follow_up_indicators.
Proof.
  unfold _is_follow_up. rewrite andb_true_iff, Nat.ltb_lt, existsb_Exists.
  split; intros [H1 H2]; split; try done;
    (eapply Exists_impl; [done|]); intros ind; by rewrite contains_iff.
Qed.

Lemma follow_up_frame_longer (last_q q : str) :
  length q < length (follow_up_frame last_q q).
Proof.
  unfold follow_up_frame. rewrite !length_app. simpl. lia.
Qed.

Lemma follow_up_frame_neq (last_q q : str) : follow_up_frame last_q q <> q.
Proof.
  intros E. pose proof (follow_up_frame_longer last_q q) as H.
  rewrite E in H. lia.
Qed.

Lemma context_enhanced_question_nil (q : str) :
  context_enhanced_question lower [] q = q.
Proof. reflexivity. Qed.

Lemma context_enhanced_question_snoc (h : list turn) (t : turn) (q : str) :
  context_enhanced_question lower (h ++ [t]) q
  = if _is_follow_up lower q then follow_up_frame (question t) q else q.
Proof. unfold context_enhanced_question. by rewrite last_snoc. Qed.

Lemma context_rewritten_iff (h : list turn) (q : str) :
  context_enhanced_question lower h q <> q
  <-> h <> [] /\ _is_follow_up lower q = true.
Proof.
  destruct h as [|t h _] using rev_ind.
  - rewrite context_enhanced_question_nil. split; [done|]. by intros [? _].
  - rewrite context_enhanced_question_snoc.
    destruct (_is_follow_up lower q); split.
    + intros _. split; [|done]. by destruct h.
    + intros _. apply follow_up_frame_neq.
    + done.
    + by intros [_ ?].
Qed.

Context {exn Doc World : Type}.
Variable rag_query : str -> World -> outcome exn (response Doc) * World.

Lemma chat_returns (q : str) (st : state World) (r : response Doc) (w : World) :
  rag_query (context_enhanced_question lower (history st) q) (world st)
  = (Returned r, w) ->
  chat lower rag_query q st
  = (Returned r, State (history st ++ [Turn q (resp_answer r)]) w).
Proof.
  intros H. unfold chat, bind, get_history, query, add_to_history, ret.
  simpl. by rewrite H.
Qed.

Lemma chat_raises (q : str) (st : state World) (e : exn) (w : World) :
  rag_query (context_enhanced_question lower (history st) q) (world st)
  = (Raised e, w) ->
  chat lower rag_query q st = (Raised e, State (history st) w).
Proof.
  intros H. unfold chat, bind, get_history, query, add_to_history, ret.
  simpl. by rewrite H.
Qed.

End Manager.

(** The indicators have [his], [her], [their], [they], [that] and
    [those], and no bare [he]: a short question is a follow-up through a
    substring such as the [her] of [weather], and [Who is he?] is not
    one. *)
Example who_is_he_is_not_a_follow_up :
  _is_follow_up ascii_lower (lit "Who is he?") = false
  /\ _is_follow_up ascii_lower (lit "Who is HER father?") = true
  /\ _is_follow_up ascii_lower (lit "weather") = true
  /\ _is_follow_up ascii_lower
       (lit "What about their ages now please") = false.
Proof. by vm_compute. Qed.

(** ** Records of the two strategies *)

Lemma clean_value_strip (tok : str) : clean_value (strip tok) = clean_value tok.
Proof. unfold clean_value. by rewrite strip_idemp. Qed.

(** The values of a record made of closed tokens separated by commas:
    one per token. *)
Lemma parse_record_values_join (toks : list str) :
  Forall (fun t => closed_token t = true) toks ->
  List.last toks [] <> [] ->
  parse_record_values (join [COMMA] toks) = List.map clean_value toks.
Proof.
  intros H Hlast. unfold parse_record_values.
  rewrite raw_values_join by done. rewrite List.map_map.
  apply List.map_ext. apply clean_value_strip.
Qed.

Lemma parse_record_values_lookup (toks : list str) (i : nat) (tok : str) :
  Forall (fun t => closed_token t = true) toks ->
  List.last toks [] <> [] ->
  toks !! i = Some tok ->
  parse_record_values (join [COMMA] toks) !! i = Some (clean_value tok).
Proof.
  intros H Hlast Hi. rewrite parse_record_values_join by done.
  change (List.map clean_value toks) with (clean_value <$> toks).
  by rewrite list_lookup_fmap, Hi.
Qed.

Lemma primary_voters_keys (content : str) (v : gmap string (option str)) :
  v ∈ primary_voters content -> has_declared_keys v.
Proof.
  intros H. apply primary_voters_inv in H as (caps & -> & _).
  apply dom_declared_keys, voter_of_match_dom.
Qed.

Lemma parse_sql_alternative_keys (content : str)
    (v : gmap string (option str)) :
  v ∈ parse_sql_alternative content columns -> has_declared_keys v.
Proof.
  intros H. apply parse_sql_alternative_inv in H as (chunk & _ & H).
  apply record_voter_inv in H as [-> _].
  apply dom_declared_keys, voter_of_values_dom.
Qed.

Lemma parse_sql_content_cases (content : str) :
  parse_sql_content content = primary_voters content
  \/ parse_sql_content content = parse_sql_alternative content columns.
Proof.
  unfold parse_sql_content. case_bool_decide; [by right|by left].
Qed.

Lemma parse_sql_content_keys (content : str) (v : gmap string (option str)) :
  v ∈ parse_sql_content content -> has_declared_keys v.
Proof.
  destruct (parse_sql_content_cases content) as [-> | ->].
  - apply primary_voters_keys.
  - apply parse_sql_alternative_keys.
Qed.

Lemma parse_sql_content_row (r : row_tuple) :
  well_formed r = true ->
  parse_sql_content (row_text r) = [voter_of_match (row_captures r)].
Proof.
  intros H. unfold parse_sql_content.
  by rewrite primary_voters_row.
Qed.

Lemma captures_lookup (gs : list group_kind) :
  forall fs i g ws t,
  fields_ok gs fs = true -> gs !! i = Some g -> fs !! i = Some (ws, t) ->
  captures gs fs !! i = Some (capture g t) /\ admits g t = true.
Proof.
  induction gs as [|g0 gs IH]; intros [|[ws0 t0] fs] i g ws t Hok Hg Hf;
    try done.
  simpl in Hok. apply andb_true_iff in Hok as [Hok Hfs].
  apply andb_true_iff in Hok as [_ Ht].
  destruct i as [|i]; simpl in *.
  - by injection Hg as <-; injection Hf as <- <-.
  - by eapply IH.
Qed.

(** The record of a well-formed row, value by value. *)
Lemma row_field_value (r : row_tuple) (i : nat) (g : group_kind)
    (ws : str) (t : token) (col : string) :
  well_formed r = true ->
  tail insert_groups !! i = Some g -> row_fields r !! i = Some (ws, t) ->
  columns !! S i = Some col ->
  voter_of_match (row_captures r) !! col = Some (token_value g t).
Proof.
  intros Hwf Hg Hf Hcol. rewrite (voter_of_match_lookup _ (S i)) by done.
  unfold well_formed in Hwf. apply andb_true_iff in Hwf as [_ Hok].
  destruct (captures_lookup _ _ _ _ _ _ Hok Hg Hf) as [Hc Ht].
  unfold match_field, row_captures. rewrite lookup_cons, Hc.
  by rewrite clean_capture_value.
Qed.

Lemma row_id_value (r : row_tuple) :
  well_formed r = true ->
  voter_of_match (row_captures r) !! "id"%string = Some (Some (row_id r)).
Proof.
  intros Hwf. rewrite (voter_of_match_lookup _ 0) by done.
  unfold well_formed in Hwf. apply andb_true_iff in Hwf as [Hwf _].
  apply andb_true_iff in Hwf as [_ Hd].
  unfold match_field, row_captures. rewrite lookup_cons.
  by rewrite clean_digits.
Qed.

(** No value of the primary strategy holds a quote character. *)
Lemma primary_values_no_quote (content : str)
    (v : gmap string (option str)) (col : string) (x : str) :
  v ∈ primary_voters content -> v !! col = Some (Some x) ->
  forallb not_quote x = true.
Proof.
  intros H Hx. apply primary_voters_inv in H as (caps & -> & Hcaps).
  assert (col ∈ columns) as Hin.
  { apply (dom_declared_keys _ (voter_of_match_dom caps)). by eexists. }
  apply list_elem_of_lookup in Hin as [i Hi].
  rewrite (voter_of_match_lookup _ i) in Hx by done.
  injection Hx as Hx. unfold match_field in Hx.
  destruct (caps !! i) as [cap|] eqn:Ecap; [|done].
  assert (exists g, insert_groups !! i = Some g) as [g Hg].
  { apply lookup_lt_is_Some.
    rewrite (Forall2_length _ _ _ Hcaps). by eapply lookup_lt_Some. }
  eapply clean_capture_no_quote; [|done].
  by eapply (Forall2_lookup_lr _ _ _ i).
Qed.

(** ** The Document Synthesizer *)

Lemma text_part_null (v : gmap string (option str)) (key : string)
    (label : str) :
  v !! key = Some None -> text_part v key label = [].
Proof. intros H. unfold text_part. by rewrite H. Qed.

Lemma metadata_occupation (v : gmap string (option str)) :
  doc_metadata (voter_document v) !! "occupation"%string
  = Some (get_or_empty v "occupation").
Proof. reflexivity. Qed.

Lemma metadata_id (v : gmap string (option str)) :
  doc_metadata (voter_document v) !! "id"%string
  = Some (Some (py_str (get_or_empty v "id"))).
Proof. reflexivity. Qed.

(** ** More on the fallback tokenizer *)

Lemma scan_tokens_snoc_empty (toks : list str) :
  Forall (fun t => closed_token t = true) toks ->
  raw_values (join [COMMA] (toks ++ [[]])) = List.map strip toks.
Proof.
  intros H. destruct toks as [|tok toks]; [done|].
  unfold raw_values.
  change ((tok :: toks) ++ [[]]) with (tok :: (toks ++ [[]])).
  rewrite scan_tokens.
  - change (tok :: toks ++ [[]]) with ((tok :: toks) ++ [[]]).
    by rewrite last_last, removelast_last.
  - change (tok :: toks ++ [[]]) with ((tok :: toks) ++ [[]]).
    apply Forall_app. split; [done|]. by repeat constructor.
Qed.

Lemma scan_char_in_quotes (c : N) (values : list str) (current : str) :
  (c =? QUOTE)%N = false ->
  scan_char (ScanState values current true) c
  = ScanState values (current ++ [c]) true.
Proof.
  intros Hc. unfold scan_char. rewrite Hc. simpl.
  by rewrite andb_false_r.
Qed.

(** Inside an open quote nothing separates: the characters up to the
    next quote are added to the value being read. *)
Lemma scan_in_quotes (body : str) (values : list str) (current : str) :
  forallb not_quote body = true ->
  fold_left scan_char body (ScanState values current true)
  = ScanState values (current ++ body) true.
Proof.
  revert current. induction body as [|c body IH]; intros current H.
  - by rewrite app_nil_r.
  - simpl in H. apply andb_true_iff in H as [Hc H].
    unfold not_quote in Hc. apply negb_true_iff in Hc.
    cbn [fold_left]. rewrite scan_char_in_quotes by done.
    rewrite IH by done. by rewrite <- app_assoc.
Qed.

Lemma raw_values_open_quote (toks : list str) (body : str) :
  Forall (fun t => closed_token t = true) toks ->
  forallb not_quote body = true ->
  raw_values (join [COMMA] (toks ++ [QUOTE :: body]))
  = List.map strip toks ++ [strip (QUOTE :: body)].
Proof.
  intros H Hb. unfold raw_values.
  assert (forall values,
    fold_left scan_char (join [COMMA] (toks ++ [QUOTE :: body]))
      (ScanState values [] false)
    = ScanState (values ++ List.map strip toks) (QUOTE :: body) true) as Hscan.
  { induction toks as [|tok toks IH]; intros values.
    - simpl join. simpl fold_left at 1.
      change (scan_char (ScanState values [] false) QUOTE)
        with (ScanState values [QUOTE] true).
      rewrite scan_in_quotes by done. by rewrite app_nil_r.
    - inversion H as [|? ? Htok H']; subst.
      assert (join [COMMA] ((tok :: toks) ++ [QUOTE :: body])
              = tok ++ COMMA :: join [COMMA] (toks ++ [QUOTE :: body])) as ->.
      { simpl. by destruct (toks ++ [QUOTE :: body]) eqn:E;
          [destruct toks|]. }
      rewrite fold_left_app, scan_closed by done.
      rewrite scan_comma, IH by done.
      simpl. by rewrite <- app_assoc. }
  by rewrite Hscan.
Qed.

Lemma lstrip_by_all (p : N -> bool) (s : str) :
  forallb p s = true -> lstrip_by p s = [].
Proof.
  induction s as [|c s IH]; simpl; [done|]. intros H.
  apply andb_true_iff in H as [Hc Hs]. rewrite Hc. by apply IH.
Qed.

Lemma strip_blank (ws : str) :
  forallb Unicode.is_space ws = true -> strip ws = [].
Proof. intros H. unfold strip. by rewrite lstrip_by_all. Qed.

Lemma blank_closed (ws : str) :
  forallb Unicode.is_space ws = true -> closed_token ws = true.
Proof.
  unfold closed_token. induction ws as [|c ws IH]; simpl; [done|].
  intros H. apply andb_true_iff in H as [Hc Hs].
  destruct (c =? QUOTE)%N eqn:Eq.
  { apply N.eqb_eq in Eq. subst c. done. }
  destruct (c =? COMMA)%N eqn:Ec.
  { apply N.eqb_eq in Ec. subst c. done. }
  simpl. by apply IH.
Qed.

(** ** Several rows *)

Lemma match_here_row_app (r : row_tuple) (s : str) :
  well_formed r = true ->
  match_here insert_pattern (row_text r ++ s) = Some (row_captures r, s).
Proof.
  unfold well_formed. intros H.
  apply andb_true_iff in H as [H Hfs]. apply andb_true_iff in H as [Hne Hd].
  unfold match_here, row_text, row_captures.
  change ((LPAREN :: row_id r ++ fields_text (row_fields r) ++ [RPAREN]) ++ s)
    with (LPAREN :: (row_id r ++ fields_text (row_fields r) ++ [RPAREN]) ++ s).
  rewrite <- !app_assoc.
  rewrite insert_pattern_eq, mseq_cons, m_char_same.
  apply digits_match; [by destruct (row_id r)|done| |].
  - by destruct (row_fields r) as [|[ws t] fs].
  - apply fields_match; [done|].
    change ([RPAREN] ++ s) with (RPAREN :: s).
    by rewrite mseq_cons, m_char_same, mseq_nil.
Qed.

Lemma match_here_not_paren (c : N) (s : str) :
  (c =? LPAREN)%N = false -> match_here insert_pattern (c :: s) = None.
Proof.
  intros H. unfold match_here.
  rewrite insert_pattern_eq, mseq_cons, m_char.
  rewrite N.eqb_sym in H. by rewrite H.
Qed.

Lemma match_here_paren_not_digit (d : N) (s : str) :
  Unicode.is_decimal d = false ->
  match_here insert_pattern (LPAREN :: d :: s) = None.
Proof.
  intros H. unfold match_here.
  rewrite insert_pattern_eq, mseq_cons, m_char_same.
  by rewrite digits_regex, mseq_cons, m_group, mseq_cons, m_set, H.
Qed.

Lemma findall_from_skip (rs : list regex) (w s : str) :
  findall_from rs (length w) (w ++ s) = findall_from rs 0 s.
Proof. induction w as [|c w IH]; [done|]. apply IH. Qed.

Lemma findall_gap (gap s : str) :
  gap_ok gap = true ->
  findall_from insert_pattern 0 (gap ++ s) = findall_from insert_pattern 0 s.
Proof.
  induction gap as [|c gap IH]; [done|]. intros H.
  cbn [gap_ok] in H. apply andb_true_iff in H as [Hc Hgap].
  change ((c :: gap) ++ s) with (c :: (gap ++ s)). cbn [findall_from].
  assert (match_here insert_pattern (c :: gap ++ s) = None) as ->.
  { destruct (c =? LPAREN)%N eqn:E.
    - apply N.eqb_eq in E as ->.
      destruct gap as [|d gap]; [done|].
      apply match_here_paren_not_digit. by apply negb_true_iff.
    - by apply match_here_not_paren. }
  by apply IH.
Qed.

Lemma findall_row (r : row_tuple) (s : str) :
  well_formed r = true ->
  findall_from insert_pattern 0 (row_text r ++ s)
  = row_captures r :: findall_from insert_pattern 0 s.
Proof.
  intros Hwf. pose proof (match_here_row_app r s Hwf) as Hm.
  unfold row_text in *.
  set (w := row_id r ++ fields_text (row_fields r) ++ [RPAREN]) in *.
  change ((LPAREN :: w) ++ s) with (LPAREN :: (w ++ s)) in *.
  cbn [findall_from]. rewrite Hm. f_equal.
  replace (length (LPAREN :: w ++ s) - length s - 1) with (length w)
    by (simpl; rewrite length_app; lia).
  apply findall_from_skip.
Qed.

Lemma findall_rows (rows : list (row_tuple * str)) :
  Forall (fun rg => well_formed rg.1 = true /\ gap_ok rg.2 = true) rows ->
  findall_from insert_pattern 0 (rows_text rows)
  = List.map (fun rg => row_captures rg.1) rows.
Proof.
  induction rows as [|[r gap] rows IH]; intros H; [done|].
  inversion H as [|? ? [Hwf Hgap] H']; subst. simpl in Hwf, Hgap.
  cbn [rows_text List.map]. rewrite findall_row by done.
  rewrite findall_gap by done. by rewrite IH.
Qed.

(** ** Texts the fallback strategy cannot read *)

Lemma split_on_no_sep (sep : N) (s cur : str) :
  forallb (fun c => negb (c =? sep)%N) s = true ->
  split_on sep cur s = [cur ++ s].
Proof.
  revert cur. induction s as [|c s IH]; intros cur H; simpl.
  - by rewrite app_nil_r.
  - simpl in H. apply andb_true_iff in H as [Hc Hs].
    apply negb_true_iff in Hc. rewrite Hc, IH by done.
    by rewrite <- app_assoc.
Qed.

Lemma scan_line_no_insert (lines : list str) (current_values : str) :
  Forall (fun line =>
            contains line (lit "INSERT INTO") && contains line (lit "voters")
            = false) lines ->
  fold_left scan_line lines (false, current_values) = (false, current_values).
Proof.
  induction lines as [|line lines IH]; intros H; [done|].
  inversion H as [|? ? Hline H']; subst.
  cbn [fold_left]. unfold scan_line at 2. rewrite Hline. by apply IH.
Qed.

Lemma records_of_nothing (content : str) :
  snd (fold_left scan_line (split_on NEWLINE [] content) (false, [])) = [] ->
  parse_sql_alternative content columns = [].
Proof.
  intros H. unfold parse_sql_alternative, records.
  destruct (fold_left scan_line _ _) as [in_values current_values].
  simpl in H. subst current_values. reflexivity.
Qed.

(** ** Lines *)

Lemma split_on_app_no_sep (sep : N) (l s cur : str) :
  forallb (fun c => negb (c =? sep)%N) l = true ->
  split_on sep cur (l ++ s) = split_on sep (cur ++ l) s.
Proof.
  revert cur. induction l as [|c l IH]; intros cur H; simpl.
  - by rewrite app_nil_r.
  - simpl in H. apply andb_true_iff in H as [Hc Hl].
    apply negb_true_iff in Hc. rewrite Hc, IH by done.
    by rewrite <- app_assoc.
Qed.

(** Cutting at the separator what was joined with it gives the parts
    back, when no part holds the separator. *)
Lemma split_on_join (sep : N) (parts : list str) :
  parts <> [] ->
  Forall (fun l => forallb (fun c => negb (c =? sep)%N) l = true) parts ->
  split_on sep [] (join [sep] parts) = parts.
Proof.
  intros Hne H. destruct parts as [|l parts]; [done|]. clear Hne.
  revert l H. induction parts as [|l2 parts IH]; intros l H.
  - inversion H; subst. simpl. by rewrite split_on_no_sep.
  - inversion H as [|? ? Hl H']; subst.
    change (join [sep] (l :: l2 :: parts))
      with (l ++ sep :: join [sep] (l2 :: parts)).
    rewrite split_on_app_no_sep by done. cbn [split_on].
    rewrite N.eqb_refl, IH by done. done.
Qed.

Lemma scan_line_rows (lines : list str) (current_values : str) :
  Forall (fun line => is_insert_line line = false) lines ->
  fold_left scan_line lines (true, current_values)
  = (true, current_values ++ concat lines).
Proof.
  revert current_values.
  induction lines as [|line lines IH]; intros cv H.
  - simpl. by rewrite app_nil_r.
  - inversion H as [|? ? Hline H']; subst.
    cbn [fold_left]. unfold scan_line at 2. unfold is_insert_line in Hline.
    rewrite Hline, IH by done. simpl. by rewrite <- app_assoc.
Qed.

(** ** The row separator *)

Lemma star_stop (p : N -> bool) (c : N) (s : str)
    (k : str -> option result) :
  p c = false -> star p (c :: s) k = k (c :: s).
Proof. intros H. simpl. by rewrite H. Qed.

Lemma m_opt_other (c d : N) (s : str) (caps : list str) (k : cont) :
  (c =? d)%N = false -> m (ROpt c) (d :: s) caps k = k (d :: s) caps.
Proof. intros H. simpl. by rewrite H. Qed.

Lemma sep_here_not_rparen (c : N) (s : str) :
  (c =? RPAREN)%N = false -> match_here row_split_pattern (c :: s) = None.
Proof.
  intros H. unfold match_here, row_split_pattern.
  rewrite mseq_cons, m_char. rewrite N.eqb_sym in H. by rewrite H.
Qed.

Lemma sep_here (s : str) :
  match_here row_split_pattern (RPAREN :: COMMA :: LPAREN :: s)
  = Some ([], s).
Proof.
  unfold match_here, row_split_pattern.
  rewrite mseq_cons, m_char_same, mseq_cons, m_char_same.
  rewrite mseq_cons, m_star, star_stop by done.
  rewrite mseq_cons, m_opt_other by done.
  by rewrite mseq_cons, m_char_same, mseq_nil.
Qed.

Lemma split_from_plain (b s cur : str) :
  forallb plain_char b = true ->
  split_from row_split_pattern 0 cur (b ++ s)
  = split_from row_split_pattern 0 (cur ++ b) s.
Proof.
  revert cur. induction b as [|c b IH]; intros cur H.
  - by rewrite app_nil_r.
  - simpl in H. apply andb_true_iff in H as [Hc Hb].
    unfold plain_char in Hc. apply andb_true_iff in Hc as [_ Hc].
    apply negb_true_iff in Hc.
    change ((c :: b) ++ s) with (c :: (b ++ s)). cbn [split_from].
    rewrite sep_here_not_rparen by done. rewrite IH by done.
    by rewrite <- app_assoc.
Qed.

Lemma split_from_sep (s cur : str) :
  split_from row_split_pattern 0 cur (RPAREN :: COMMA :: LPAREN :: s)
  = cur :: split_from row_split_pattern 0 [] s.
Proof.
  cbn [split_from]. rewrite sep_here.
  replace (length (RPAREN :: COMMA :: LPAREN :: s) - length s - 1) with 2
    by (simpl; lia).
  reflexivity.
Qed.

Lemma split_from_end (cur : str) :
  split_from row_split_pattern 0 cur (lit ");") = [cur ++ lit ");"].
Proof.
  transitivity [(cur ++ [RPAREN]) ++ [59%N]]; [reflexivity|].
  by rewrite <- app_assoc.
Qed.

(** ** Trimming a chunk *)

Lemma endswith_app (s p : str) : endswith (s ++ p) p = true.
Proof. unfold endswith. rewrite rev_app_distr. apply startswith_app. Qed.

Lemma endswith_inv (s p : str) :
  endswith s p = true -> exists t, s = t ++ p.
Proof.
  unfold endswith. intros H. apply startswith_inv in H as [r Hr].
  exists (rev r). apply (f_equal (@rev N)) in Hr.
  by rewrite rev_involutive, rev_app_distr, rev_involutive in Hr.
Qed.

Lemma slice_to_minus_app (s p : str) :
  slice_to_minus (length p) (s ++ p) = s.
Proof.
  unfold slice_to_minus. rewrite length_app.
  replace (length s + length p - length p) with (length s) by lia.
  apply take_app_length.
Qed.

Lemma startswith_one (c d : N) (s : str) :
  startswith (c :: s) [d] = (d =? c)%N.
Proof. simpl. apply andb_true_r. Qed.

Lemma strip_id (s : str) :
  match s with [] => false | c :: _ => negb (Unicode.is_space c) end = true ->
  match rev s with [] => false | d :: _ => negb (Unicode.is_space d) end
  = true ->
  strip s = s.
Proof.
  intros Hhd Hlast. unfold strip, rstrip_by.
  destruct s as [|c s]; [done|]. apply negb_true_iff in Hhd.
  cbn [lstrip_by]. rewrite Hhd.
  destruct (rev (c :: s)) as [|d t] eqn:E; [done|].
  apply negb_true_iff in Hlast. cbn [lstrip_by]. rewrite Hlast.
  by rewrite <- E, rev_involutive.
Qed.

Lemma plain_not_endswith_rparen (b p : str) :
  forallb plain_char b = true -> endswith b (RPAREN :: p) = false.
Proof.
  intros H. destruct (endswith b (RPAREN :: p)) eqn:E; [|done].
  apply endswith_inv in E as [t ->].
  rewrite forallb_app in H. apply andb_true_iff in H as [_ H]. done.
Qed.

(** A chunk of the separator pattern, with or without the parenthesis
    that opens the statement body and the end of the statement, is
    trimmed to the text of its row. *)
Lemma trim_record_body (b : str) (lp semi : bool) :
  body_ok b = true ->
  trim_record ((if lp then [LPAREN] else [])
               ++ b ++ (if semi then lit ");" else [])) = b.
Proof.
  unfold body_ok. intros H. apply andb_true_iff in H as [H Hplain].
  apply andb_true_iff in H as [Hhd Hlast].
  unfold trim_record.
  rewrite strip_id.
  - assert ((if startswith ((if lp then [LPAREN] else [])
                            ++ b ++ (if semi then lit ");" else []))
                  (lit "(")
             then slice_from_1 ((if lp then [LPAREN] else [])
                                ++ b ++ (if semi then lit ");" else []))
             else (if lp then [LPAREN] else [])
                  ++ b ++ (if semi then lit ");" else []))
            = b ++ (if semi then lit ");" else [])) as ->.
    { destruct lp; [done|]. destruct b as [|c b]; [done|].
      simpl in Hplain. apply andb_true_iff in Hplain as [Hc _].
      unfold plain_char in Hc. apply andb_true_iff in Hc as [Hc _].
      apply andb_true_iff in Hc as [_ Hc]. apply negb_true_iff in Hc.
      rewrite N.eqb_sym in Hc.
      change ([] ++ (c :: b) ++ (if semi then lit ");" else []))
        with (c :: b ++ (if semi then lit ");" else [])).
      change (lit "(") with [LPAREN]. rewrite startswith_one.
      by rewrite Hc. }
    destruct semi.
    + rewrite endswith_app.
      change 2 with (length (lit ");")). rewrite slice_to_minus_app.
      change (lit ")") with [RPAREN].
      rewrite (plain_not_endswith_rparen b []) by exact Hplain.
      reflexivity.
    + rewrite app_nil_r.
      change (lit ");") with (RPAREN :: [59%N]).
      change (lit ")") with [RPAREN].
      rewrite (plain_not_endswith_rparen b [59%N]) by exact Hplain.
      rewrite (plain_not_endswith_rparen b []) by exact Hplain.
      reflexivity.
  - destruct lp; [done|]. by destruct b.
  - rewrite !rev_app_distr. destruct semi; [done|]. simpl.
    by destruct (rev b).
Qed.

Lemma record_voter_trim (x y : str) :
  trim_record x = trim_record y ->
  record_voter columns x = record_voter columns y.
Proof. intros H. unfold record_voter. by rewrite H. Qed.

(** ** A statement with one row per line *)

Lemma concat_row_lines (b : str) (bs : list str) :
  concat (row_lines (b :: bs)) = LPAREN :: tail_text (b :: bs).
Proof.
  revert b. induction bs as [|b2 bs IH]; intros b.
  - simpl. by rewrite app_nil_r.
  - change (row_lines (b :: b2 :: bs))
      with ((LPAREN :: b ++ lit "),") :: row_lines (b2 :: bs)).
    change (tail_text (b :: b2 :: bs))
      with (b ++ RPAREN :: COMMA :: LPAREN :: tail_text (b2 :: bs)).
    cbn [concat]. rewrite IH. simpl. by rewrite <- app_assoc.
Qed.

Lemma records_of_tail_text (bs : list str) :
  forall (b : str) (lp : bool),
  Forall (fun b => body_ok b = true) (b :: bs) ->
  omap (record_voter columns)
    (split_from row_split_pattern 0 (if lp then [LPAREN] else [])
       (tail_text (b :: bs)))
  = omap (record_voter columns) (b :: bs).
Proof.
  induction bs as [|b2 bs IH]; intros b lp H;
    inversion H as [|? ? Hb H']; subst;
    pose proof Hb as Hplain; unfold body_ok in Hplain;
    apply andb_true_iff in Hplain as [_ Hplain].
  - cbn [tail_text]. rewrite split_from_plain by done.
    rewrite split_from_end. cbn [omap list_omap].
    rewrite (record_voter_trim _ b); [done|].
    rewrite <- app_assoc, (trim_record_body b lp true) by done.
    symmetry. rewrite <- (trim_record_body b false false) at 2 by done.
    simpl. by rewrite app_nil_r.
  - change (tail_text (b :: b2 :: bs))
      with (b ++ RPAREN :: COMMA :: LPAREN :: tail_text (b2 :: bs)).
    rewrite split_from_plain by done. rewrite split_from_sep.
    cbn [omap list_omap]. rewrite (IH b2 false) by done.
    rewrite (record_voter_trim _ b); [done|].
    pose proof (trim_record_body b lp false Hb) as E1.
    rewrite app_nil_r in E1. rewrite E1.
    pose proof (trim_record_body b false false Hb) as E2.
    simpl in E2. rewrite app_nil_r in E2. by rewrite E2.
Qed.

Lemma record_voter_of_tokens (toks : list str) :
  Forall (fun t => closed_token t = true) toks ->
  List.last toks [] <> [] ->
  body_ok (join [COMMA] toks) = true ->
  record_voter columns (join [COMMA] toks)
  = if length columns <=? length toks
    then Some (voter_of_values columns (List.map clean_value toks))
    else None.
Proof.
  intros Hclosed Hlast Hbody. unfold record_voter.
  pose proof (trim_record_body _ false false Hbody) as E.
  simpl in E. rewrite app_nil_r in E. rewrite E.
  destruct (join [COMMA] toks) as [|c b] eqn:Eb; [done|]. rewrite <- Eb.
  rewrite parse_record_values_join by done. by rewrite length_map.
Qed.

Lemma row_lines_no_newline (bodies : list str) :
  Forall (fun b => body_ok b = true) bodies ->
  Forall (fun l => forallb (fun c => negb (c =? NEWLINE)%N) l = true)
    (row_lines bodies).
Proof.
  assert (forall b suffix, body_ok b = true ->
            forallb (fun c => negb (c =? NEWLINE)%N) suffix = true ->
            forallb (fun c => negb (c =? NEWLINE)%N) (LPAREN :: b ++ suffix)
            = true) as Hline.
  { intros b suffix Hb Hs. unfold body_ok in Hb.
    apply andb_true_iff in Hb as [_ Hb].
    cbn [forallb]. rewrite forallb_app, Hs, andb_true_r. simpl.
    eapply forallb_impl; [|done]. intros c Hc. unfold plain_char in Hc.
    apply andb_true_iff in Hc as [Hc _]. by apply andb_true_iff in Hc as [Hc _]. }
  induction bodies as [|b bs IH]; intros H; [constructor|].
  inversion H as [|? ? Hb H']; subst.
  destruct bs as [|b2 bs].
  - constructor; [by apply Hline|constructor].
  - change (row_lines (b :: b2 :: bs))
      with ((LPAREN :: b ++ lit "),") :: row_lines (b2 :: bs)).
    constructor; [by apply Hline|by apply IH].
Qed.

Lemma records_of_rows (rows : list (list str)) :
  Forall (fun toks =>
            Forall (fun t => closed_token t = true) toks
            /\ List.last toks [] <> []
            /\ body_ok (join [COMMA] toks) = true) rows ->
  omap (record_voter columns) (List.map (join [COMMA]) rows)
  = omap (fun toks =>
            if length columns <=? length toks
            then Some (voter_of_values columns (List.map clean_value toks))
            else None) rows.
Proof.
  induction rows as [|toks rows IH]; intros H; [done|].
  inversion H as [|? ? (Hclosed & Hlast & Hbody) H']; subst.
  cbn [List.map omap list_omap].
  rewrite record_voter_of_tokens, IH by done. done.
Qed.

Lemma rows_bodies_ok (rows : list (list str)) :
  Forall (fun toks =>
            Forall (fun t => closed_token t = true) toks
            /\ List.last toks [] <> []
            /\ body_ok (join [COMMA] toks) = true) rows ->
  Forall (fun b => body_ok b = true) (List.map (join [COMMA]) rows).
Proof.
  intros Hrows. apply Forall_forall. intros b Hb.
  apply list_elem_of_fmap in Hb as (toks & -> & Hin).
  rewrite Forall_forall in Hrows. by destruct (Hrows toks Hin) as (_ & _ & ?).
Qed.

(** The fallback strategy on one INSERT line followed by one row per
    line: the chunks are the texts of the rows between their
    parentheses. *)
Lemma parse_sql_alternative_lines (header : str) (bodies : list str) :
  is_insert_line header = true ->
  forallb (fun c => negb (c =? NEWLINE)%N) header = true ->
  bodies <> [] ->
  Forall (fun b => body_ok b = true) bodies ->
  Forall (fun line => is_insert_line line = false) (row_lines bodies) ->
  parse_sql_alternative (join [NEWLINE] (header :: row_lines bodies)) columns
  = omap (record_voter columns) bodies.
Proof.
  intros Hheader Hnl Hne Hbodies Hlines.
  unfold parse_sql_alternative, records.
  rewrite split_on_join;
    [|done|constructor; [done|by apply row_lines_no_newline]].
  cbn [fold_left]. unfold scan_line at 2.
  unfold is_insert_line in Hheader. rewrite Hheader.
  rewrite scan_line_rows by done. rewrite app_nil_l.
  destruct bodies as [|b bodies]; [done|].
  rewrite concat_row_lines. unfold re_split. cbn [split_from].
  rewrite sep_here_not_rparen by done.
  by rewrite (records_of_tail_text _ _ true) by done.
Qed.

(** On a statement with one row per line, the fallback strategy emits
    the record of every row that has at least 23 values. *)
Lemma fallback_record_of_row (header : str) (rows : list (list str))
    (toks : list str) :
  is_insert_line header = true ->
  forallb (fun c => negb (c =? NEWLINE)%N) header = true ->
  Forall (fun toks =>
            Forall (fun t => closed_token t = true) toks
            /\ List.last toks [] <> []
            /\ body_ok (join [COMMA] toks) = true) rows ->
  Forall (fun line => is_insert_line line = false)
    (row_lines (List.map (join [COMMA]) rows)) ->
  toks ∈ rows -> length columns <= length toks ->
  voter_of_values columns (List.map clean_value toks)
  ∈ parse_sql_alternative
      (join [NEWLINE] (header :: row_lines (List.map (join [COMMA]) rows)))
      columns.
Proof.
  intros Hheader Hnl Hrows Hlines Hin Hlen.
  rewrite parse_sql_alternative_lines;
    [|done|done| |by apply rows_bodies_ok|done].
  - rewrite records_of_rows by done.
    apply list_elem_of_omap. exists toks. split; [done|].
    apply Nat.leb_le in Hlen. by rewrite Hlen.
  - intros E. apply fmap_nil_inv in E. subst rows.
    by apply elem_of_nil in Hin.
Qed.

(** The record of the fallback strategy for a row of tokens, value by
    value. *)
Lemma fallback_row_value (toks : list str) (i : nat) (tok : str)
    (col : string) :
  toks !! i = Some tok -> columns !! i = Some col ->
  voter_of_values columns (List.map clean_value toks) !! col
  = Some (values_field (List.map clean_value toks) i).
Proof.
  intros Hi Hcol.
  by rewrite (voter_of_values_lookup _ _ i) by (done || apply columns_NoDup).
Qed.

Lemma row_tokens_text (r : row_tuple) :
  row_text r = LPAREN :: join [COMMA] (row_tokens r) ++ [RPAREN].
Proof.
  unfold row_text, row_tokens. f_equal. rewrite app_assoc. f_equal.
  generalize (row_id r). induction (row_fields r) as [|[ws t] fs IH];
    intros hd.
  - simpl. by rewrite app_nil_r.
  - change (join [COMMA]
              (hd :: List.map (fun '(ws, t) => ws ++ token_text t)
                       ((ws, t) :: fs)))
      with (hd ++ [COMMA]
            ++ join [COMMA]
                 ((ws ++ token_text t)
                  :: List.map (fun '(ws, t) => ws ++ token_text t) fs)).
    rewrite <- IH. cbn [fields_text]. simpl. by rewrite <- !app_assoc.
Qed.

(** ** Rows outside the grammar of [insert_pattern] *)

(** A run of [p] characters followed by a character that is not one is
    read in one way only. *)
Lemma run_unique (p : N -> bool) (w : str) :
  forall w' s s',
  forallb p w = true -> forallb p w' = true -> stops p s -> stops p s' ->
  w ++ s = w' ++ s' -> w = w' /\ s = s'.
Proof.
  induction w as [|c w IH]; intros [|c' w'] s s' Hw Hw' Hs Hs' E;
    simpl in *.
  - done.
  - subst s. simpl in Hs. apply andb_true_iff in Hw' as [Hc _]. congruence.
  - subst s'. simpl in Hs'. apply andb_true_iff in Hw as [Hc _]. congruence.
  - injection E as -> E. apply andb_true_iff in Hw as [_ Hw].
    apply andb_true_iff in Hw' as [_ Hw'].
    destruct (IH w' s s') as [-> ->]; done.
Qed.

Section Deterministic.

Variables (rest : list regex) (caps : list str) (k : cont) (x : result).

Lemma sep_quoted_det (ws b s : str) :
  forallb Unicode.is_space ws = true -> forallb not_quote b = true ->
  mseq (value_sep ++ group_regex Quoted ++ rest)
    (COMMA :: ws ++ QUOTE :: b ++ QUOTE :: s) caps k = Some x ->
  mseq rest s (caps ++ [b]) k = Some x.
Proof.
  intros Hws Hb H. apply sep_inv in H as (ws' & s1 & E & Hws' & H).
  apply quoted_inv in H as (b' & s2 & -> & Hb' & H).
  injection E as E.
  apply run_unique with (p := Unicode.is_space) in E as [_ E];
    [|done..].
  injection E as E.
  apply run_unique with (p := not_quote) in E as [-> E];
    [|done..].
  by injection E as ->.
Qed.

Lemma sep_null_det (ws s : str) :
  forallb Unicode.is_space ws = true ->
  mseq (value_sep ++ group_regex NullOrQuoted ++ rest)
    (COMMA :: ws ++ lit "NULL" ++ s) caps k = Some x ->
  mseq rest s (caps ++ [lit "NULL"]) k = Some x.
Proof.
  intros Hws H. apply sep_inv in H as (ws' & s1 & E & Hws' & H).
  injection E as E.
  apply null_or_quoted_inv in H as [(s2 & -> & H)|(b & s2 & -> & Hb & H)].
  - apply run_unique with (p := Unicode.is_space) in E as [_ E];
      [|done..].
    rewrite lit_NULL in E. simpl in E. by injection E as ->.
  - apply run_unique with (p := Unicode.is_space) in E as [_ E];
      [|done..].
    discriminate E.
Qed.

Lemma sep_null_or_quoted_det (ws b s : str) :
  forallb Unicode.is_space ws = true -> forallb not_quote b = true ->
  mseq (value_sep ++ group_regex NullOrQuoted ++ rest)
    (COMMA :: ws ++ QUOTE :: b ++ QUOTE :: s) caps k = Some x ->
  mseq rest s (caps ++ [QUOTE :: b ++ [QUOTE]]) k = Some x.
Proof.
  intros Hws Hb H. apply sep_inv in H as (ws' & s1 & E & Hws' & H).
  injection E as E.
  apply null_or_quoted_inv in H as [(s2 & -> & H)|(b' & s2 & -> & Hb' & H)].
  - apply run_unique with (p := Unicode.is_space) in E as [_ E];
      [|done..].
    discriminate E.
  - apply run_unique with (p := Unicode.is_space) in E as [_ E];
      [|done..].
    injection E as E.
    apply run_unique with (p := not_quote) in E as [-> E];
      [|done..].
    by injection E as ->.
Qed.

(** On a value of its grammar a group reads the value and nothing else. *)
Lemma field_det (g : group_kind) (ws : str) (t : token) (s : str) :
  forallb Unicode.is_space ws = true -> admits g t = true ->
  mseq (value_sep ++ group_regex g ++ rest)
    (COMMA :: ws ++ token_text t ++ s) caps k = Some x ->
  mseq rest s (caps ++ [capture g t]) k = Some x.
Proof.
  intros Hws Ht H. destruct g, t; try done; simpl in Ht; cbn [capture].
  - apply (sep_quoted_det ws); [done..|].
    replace (token_text (TQuoted body) ++ s)
      with (QUOTE :: body ++ QUOTE :: s) in H
      by (simpl; by rewrite <- app_assoc).
    done.
  - by apply (sep_null_det ws).
  - apply (sep_null_or_quoted_det ws); [done..|].
    replace (token_text (TQuoted body) ++ s)
      with (QUOTE :: body ++ QUOTE :: s) in H
      by (simpl; by rewrite <- app_assoc).
    done.
Qed.

End Deterministic.

Lemma doubled_quote_first_inv (body : str) :
  doubled_quote_first body = true ->
  exists a b, forallb not_quote a = true
    /\ body = a ++ QUOTE :: QUOTE :: b.
Proof.
  induction body as [|c body IH]; [done|]. cbn [doubled_quote_first].
  destruct (c =? QUOTE)%N eqn:Ec.
  - apply N.eqb_eq in Ec as ->. destruct body as [|d body]; [done|].
    intros Hd. apply N.eqb_eq in Hd as ->. by exists [], body.
  - intros H. destruct (IH H) as (a & b & Ha & ->).
    exists (c :: a), b. split; [|done]. simpl. unfold not_quote at 1.
    by rewrite Ec, Ha.
Qed.

Lemma sep_quoted_rejects_null (rest : list regex) (caps : list str)
    (k : cont) (ws s : str) :
  forallb Unicode.is_space ws = true ->
  mseq (value_sep ++ group_regex Quoted ++ rest)
    (COMMA :: ws ++ lit "NULL" ++ s) caps k = None.
Proof.
  intros Hws.
  destruct (mseq _ _ caps k) as [x|] eqn:H; [exfalso|done].
  apply sep_inv in H as (ws' & s1 & E & Hws' & H).
  apply quoted_inv in H as (b' & s2 & -> & Hb' & H).
  injection E as E.
  apply run_unique with (p := Unicode.is_space) in E as [_ E];
    [|done..].
  discriminate E.
Qed.

Lemma fields_pattern_not_quote (gs : list group_kind) (rest : list regex)
    (s : str) (caps : list str) (k : cont) :
  mseq (fields_pattern gs ++ RChar RPAREN :: rest) (QUOTE :: s) caps k
  = None.
Proof.
  destruct gs as [|g gs].
  - cbn [fields_pattern app]. by rewrite mseq_cons, m_char.
  - cbn [fields_pattern]. rewrite <- !app_assoc, value_sep_regex.
    by rewrite mseq_cons, m_char.
Qed.

(** A quoted string with a doubled quote: the group stops at the first
    quote of the pair, and what follows the group cannot start with the
    second. *)
Lemma sep_group_rejects_doubled_quote (g : group_kind)
    (gs : list group_kind) (rest : list regex) (caps : list str) (k : cont)
    (ws a s : str) :
  g <> Digits ->
  forallb Unicode.is_space ws = true -> forallb not_quote a = true ->
  mseq (value_sep ++ group_regex g
        ++ fields_pattern gs ++ RChar RPAREN :: rest)
    (COMMA :: ws ++ QUOTE :: a ++ QUOTE :: QUOTE :: s) caps k = None.
Proof.
  intros Hg Hws Ha.
  destruct (mseq _ _ caps k) as [x|] eqn:H; [exfalso|done].
  apply sep_inv in H as (ws' & s1 & E & Hws' & H).
  injection E as E.
  assert (forall b' s2, forallb not_quote b' = true ->
            QUOTE :: a ++ QUOTE :: QUOTE :: s = QUOTE :: b' ++ QUOTE :: s2 ->
            s2 = QUOTE :: s) as Hsame.
  { intros b' s2 Hb' E'. injection E' as E'.
    apply run_unique with (p := not_quote) in E' as [_ E']; [|done..].
    by injection E' as <-. }
  destruct g.
  - done.
  - apply quoted_inv in H as (b' & s2 & -> & Hb' & H).
    apply run_unique with (p := Unicode.is_space) in E as [_ E];
      [|done..].
    apply Hsame in E as ->; [|done].
    by rewrite fields_pattern_not_quote in H.
  - apply null_or_quoted_inv in H as [(s2 & -> & H)|(b' & s2 & -> & Hb' & H)].
    + apply run_unique with (p := Unicode.is_space) in E as [_ E];
        [|done..].
      discriminate E.
    + apply run_unique with (p := Unicode.is_space) in E as [_ E];
        [|done..].
      apply Hsame in E as ->; [|done].
      by rewrite fields_pattern_not_quote in H.
Qed.

Lemma field_rejected (g : group_kind) (gs : list group_kind)
    (rest : list regex) (caps : list str) (k : cont) (ws : str) (t : token)
    (s : str) :
  forallb Unicode.is_space ws = true -> rejects g t = true ->
  mseq (value_sep ++ group_regex g
        ++ fields_pattern gs ++ RChar RPAREN :: rest)
    (COMMA :: ws ++ token_text t ++ s) caps k = None.
Proof.
  intros Hws Hr. destruct t as [|body].
  - destruct g; try done. by apply sep_quoted_rejects_null.
  - assert (g <> Digits) as Hg by (by destruct g).
    assert (doubled_quote_first body = true) as Hd by (by destruct g).
    apply doubled_quote_first_inv in Hd as (a & b & Ha & ->).
    replace (token_text (TQuoted (a ++ QUOTE :: QUOTE :: b)) ++ s)
      with (QUOTE :: a ++ QUOTE :: QUOTE :: (b ++ [QUOTE]) ++ s)
      by (simpl; by rewrite <- !app_assoc).
    by apply sep_group_rejects_doubled_quote.
Qed.

Lemma fields_rejected (i : nat) :
  forall gs fs g ws t s caps k,
  fields_ok (take i gs) (take i fs) = true ->
  gs !! i = Some g -> fs !! i = Some (ws, t) ->
  forallb Unicode.is_space ws = true -> rejects g t = true ->
  mseq (fields_pattern gs ++ [RChar RPAREN]) (fields_text fs ++ s) caps k
  = None.
Proof.
  induction i as [|i IH];
    intros [|g0 gs] [|[ws0 t0] fs] g ws t s caps k Hok Hg Hf Hws Hr;
    try done.
  - injection Hg as ->. injection Hf as -> ->.
    cbn [fields_pattern fields_text]. rewrite <- !app_assoc.
    change ((COMMA :: ws ++ token_text t ++ fields_text fs) ++ s)
      with (COMMA :: (ws ++ token_text t ++ fields_text fs) ++ s).
    rewrite <- !app_assoc. by apply field_rejected.
  - cbn [take fields_ok] in Hok.
    apply andb_true_iff in Hok as [Hok Hrest].
    apply andb_true_iff in Hok as [Hws0 Ht0].
    destruct (mseq _ _ caps k) as [x|] eqn:H; [exfalso|done].
    cbn [fields_pattern fields_text] in H. rewrite <- !app_assoc in H.
    change ((COMMA :: ws0 ++ token_text t0 ++ fields_text fs) ++ s)
      with (COMMA :: (ws0 ++ token_text t0 ++ fields_text fs) ++ s) in H.
    rewrite <- !app_assoc in H.
    apply field_det in H; [|done..].
    by rewrite (IH gs fs g ws t) in H.
Qed.

(** A row with a value its group cannot read, after values that are in
    the grammar: the pattern does not match at the parenthesis that opens
    the row. *)
Lemma match_here_row_rejected (r : row_tuple) (i : nat) (g : group_kind)
    (ws : str) (t : token) (rest : str) :
  forallb Unicode.is_decimal (row_id r) = true ->
  fields_ok (take i (tail insert_groups)) (take i (row_fields r)) = true ->
  tail insert_groups !! i = Some g ->
  row_fields r !! i = Some (ws, t) ->
  forallb Unicode.is_space ws = true -> rejects g t = true ->
  match_here insert_pattern (row_text r ++ rest) = None.
Proof.
  intros Hid Hok Hg Hf Hws Hr.
  destruct (match_here _ _) as [x|] eqn:H; [exfalso|done].
  unfold match_here, row_text in H.
  rewrite insert_pattern_eq, mseq_cons in H.
  apply m_char_inv in H as (s1 & E & H). injection E as <-.
  apply digits_inv in H as (d & s2 & E & Hne & Hd & H).
  pose proof H as H'.
  change (tail insert_groups)
    with (Quoted :: tail (tail insert_groups)) in H'.
  cbn [fields_pattern] in H'. rewrite <- !app_assoc in H'.
  apply sep_inv in H' as (ws' & s3 & -> & _ & _).
  destruct (row_fields r) as [|[ws0 t0] fs] eqn:Ef; [done|].
  cbn [fields_text] in E. rewrite <- ?app_assoc in E.
  change ((COMMA :: ws0 ++ token_text t0 ++ fields_text fs) ++ [RPAREN] ++ rest)
    with (COMMA :: (ws0 ++ token_text t0 ++ fields_text fs) ++ [RPAREN] ++ rest)
    in E.
  apply run_unique with (p := Unicode.is_decimal) in E as [_ E];
    [|done..].
  rewrite <- E in H.
  change (COMMA :: (ws0 ++ token_text t0 ++ fields_text fs) ++ [RPAREN] ++ rest)
    with (fields_text ((ws0, t0) :: fs) ++ [RPAREN] ++ rest) in H.
  by rewrite (fields_rejected i _ _ g ws t) in H.
Qed.

Lemma tail_groups_not_digits (i : nat) (g : group_kind) :
  tail insert_groups !! i = Some g -> g <> Digits.
Proof.
  intros H. assert (Forall (fun g => g <> Digits) (tail insert_groups)) as HF
    by (repeat constructor; done).
  by eapply Forall_lookup_1 in HF.
Qed.

Lemma doubled_quote_first_app (a b : str) :
  forallb not_quote a = true ->
  doubled_quote_first (a ++ QUOTE :: QUOTE :: b) = true.
Proof.
  induction a as [|c a IH]; [done|]. simpl. intros H.
  apply andb_true_iff in H as [Hc Ha]. unfold not_quote in Hc.
  destruct (c =? QUOTE)%N; [done|]. by apply IH.
Qed.

Lemma null_or_quoted_columns (i : nat) (col : string) :
  columns !! i = Some col ->
  insert_groups !! i = Some NullOrQuoted
  <-> col ∈ ["voter_id_bn"; "voter_id"; "occupation"]%string.
Proof.
  intros Hcol.
  do 23 (destruct i as [|i];
         [injection Hcol as <-; split; intros H;
          first [ discriminate H
                | reflexivity
                | by (rewrite !elem_of_cons;
                      repeat first [left; reflexivity | right])
                | by (repeat (apply elem_of_cons in H as [H|H];
                              [discriminate H|]);
                      apply elem_of_nil in H) ]|]).
  done.
Qed.

(* ===================================================================== *)
(** * The claims *)
(* ===================================================================== *)

(** C1, as stated, fails: the row of [doubled_quote_dump] has the name
    token ['O''Brien'].  The primary pattern matches nothing, the
    fallback emits one record, and its name holds both quote characters
    of the pair (two apostrophes), not the single apostrophe of
    [O'Brien]. *)
Lemma C1_counterexample :
  primary_voters doubled_quote_dump = []
  /\ exists v, parse_sql_content doubled_quote_dump = [v]
       /\ v !! "name"%string = Some (Some (lit "O''Brien"))
       /\ v !! "name"%string <> Some (Some (lit "O'Brien"))
       /\ length (List.filter (N.eqb QUOTE) (lit "O''Brien")) = 2.
Proof.
  assert (primary_voters doubled_quote_dump = []) as Hprimary
    by (vm_compute; reflexivity).
  split; [done|].
  assert (exists chunk, records doubled_quote_dump = [chunk]
            /\ trim_record chunk <> []
            /\ length columns
               <= length (parse_record_values (trim_record chunk))
            /\ values_field (parse_record_values (trim_record chunk)) 3
               = Some (lit "O''Brien"))
    as (chunk & Hrecords & Hne & Hlen & Hname).
  { eexists. split; [vm_compute; reflexivity|].
    split; [vm_compute; discriminate|].
    split; [vm_compute; lia|]. vm_compute; reflexivity. }
  exists (voter_of_values columns (parse_record_values (trim_record chunk))).
  assert (voter_of_values columns (parse_record_values (trim_record chunk))
            !! "name"%string = Some (Some (lit "O''Brien"))) as Hv.
  { rewrite (voter_of_values_lookup _ _ 3)
      by (reflexivity || apply columns_NoDup).
    by rewrite Hname. }
  split; [|split; [done|split; [|reflexivity]]].
  - unfold parse_sql_content. rewrite Hprimary.
    unfold parse_sql_alternative. rewrite Hrecords.
    cbn [omap list_omap]. by rewrite record_voter_long.
  - rewrite Hv. vm_compute. discriminate.
Qed.

(** C1, amended: a quoted token whose body is a non-empty run [a] of
    non-quote characters, a doubled quote and a non-empty run [b] of
    non-quote characters is read by the fallback tokenizer as one value,
    commas of [a] and [b] included, and that value keeps the two quote
    characters of the pair: in [parse_record_values], in the record,
    and in the result of [parse_sql_alternative] on a statement with one
    row per line.
    No value of a record of the primary strategy holds a quote character,
    and [insert_pattern] does not match at the parenthesis that opens a
    row with such a token after values of its grammar (it can still match
    further on, at a parenthesis followed by a digit inside a string). *)
Theorem C1_doubled_quote_kept_as_two_quotes (a b : str) :
  a <> [] -> b <> [] ->
  forallb not_quote a = true -> forallb not_quote b = true ->
  closed_token (doubled_quote_token a b) = true
  /\ (forall toks i tok,
        Forall (fun t => closed_token t = true) toks ->
        List.last toks [] <> [] ->
        toks !! i = Some tok -> strip tok = doubled_quote_token a b ->
        parse_record_values (join [COMMA] toks) !! i
        = Some (Some (a ++ [QUOTE; QUOTE] ++ b)))
  /\ (forall values i col,
        columns !! i = Some col ->
        values !! i = Some (Some (a ++ [QUOTE; QUOTE] ++ b)) ->
        voter_of_values columns values !! col
        = Some (Some (a ++ [QUOTE; QUOTE] ++ b)))
  /\ (forall content v col x,
        v ∈ primary_voters content -> v !! col = Some (Some x) ->
        forallb not_quote x = true)
  /\ (forall r i g ws rest,
        forallb Unicode.is_decimal (row_id r) = true ->
        fields_ok (take i (tail insert_groups)) (take i (row_fields r))
        = true ->
        tail insert_groups !! i = Some g ->
        row_fields r !! i = Some (ws, TQuoted (a ++ [QUOTE; QUOTE] ++ b)) ->
        forallb Unicode.is_space ws = true ->
        token_text (TQuoted (a ++ [QUOTE; QUOTE] ++ b))
        = doubled_quote_token a b
        /\ match_here insert_pattern (row_text r ++ rest) = None)
  /\ (forall header rows toks i tok col,
        is_insert_line header = true ->
        forallb (fun c => negb (c =? NEWLINE)%N) header = true ->
        Forall (fun toks =>
                  Forall (fun t => closed_token t = true) toks
                  /\ List.last toks [] <> []
                  /\ body_ok (join [COMMA] toks) = true) rows ->
        Forall (fun line => is_insert_line line = false)
          (row_lines (List.map (join [COMMA]) rows)) ->
        toks ∈ rows -> length columns <= length toks ->
        toks !! i = Some tok -> columns !! i = Some col ->
        strip tok = doubled_quote_token a b ->
        exists v,
          v ∈ parse_sql_alternative
                (join [NEWLINE]
                   (header :: row_lines (List.map (join [COMMA]) rows)))
                columns
          /\ v = voter_of_values columns (List.map clean_value toks)
          /\ v !! col = Some (Some (a ++ [QUOTE; QUOTE] ++ b))).
Proof.
  intros Hane Hbne Ha Hb. split; [by apply doubled_quote_closed|].
  split; [|split; [|split; [|split]]].
  - intros toks i tok Hclosed Hlast Hi Htok.
    rewrite (parse_record_values_lookup _ _ tok) by done.
    by rewrite <- clean_value_strip, Htok, doubled_quote_clean.
  - intros values i col Hcol Hi.
    rewrite (voter_of_values_lookup _ _ i) by (done || apply columns_NoDup).
    f_equal. by apply doubled_quote_field.
  - apply primary_values_no_quote.
  - intros r i g ws rest Hid Hok Hg Hf Hws. split.
    + unfold doubled_quote_token. simpl. by rewrite <- !app_assoc.
    + apply (match_here_row_rejected r i g ws
               (TQuoted (a ++ [QUOTE; QUOTE] ++ b))); try done.
      pose proof (tail_groups_not_digits _ _ Hg) as Hnd.
      destruct g; [done|..]; by apply doubled_quote_first_app.
  - intros header rows toks i tok col Hheader Hnl Hrows Hlines Hin Hlen
      Hi Hcol Htok.
    exists (voter_of_values columns (List.map clean_value toks)).
    split; [by apply fallback_record_of_row|]. split; [done|].
    rewrite (fallback_row_value toks i tok) by done. f_equal.
    apply doubled_quote_field; [done..|].
    change (List.map clean_value toks) with (clean_value <$> toks).
    rewrite list_lookup_fmap, Hi. cbn [fmap option_fmap option_map].
    by rewrite <- clean_value_strip, Htok, doubled_quote_clean.
Qed.

Lemma C1_witness :
  parse_record_values
    (join [COMMA] [lit "1"; lit " 'O''Brien, Pat'"; lit " NULL"]) !! 1
  = Some (Some (lit "O''Brien, Pat"))
  /\ match_here insert_pattern
       (row_text (row_with "1" (TQuoted (lit "O''Brien"))
                    (TQuoted (lit "Rahima"))) ++ lit ";")
     = None
  /\ exists v,
       v ∈ parse_sql_alternative
             (join [NEWLINE]
                (insert_line
                 :: row_lines
                      (List.map (join [COMMA])
                         [row_tokens
                            (row_with "1" (TQuoted (lit "O''Brien"))
                               (TQuoted (lit "Rahima")))])))
             columns
       /\ v !! "name"%string = Some (Some (lit "O''Brien")).
Proof.
  split; [|split].
  - refine (proj1 (proj2 (C1_doubled_quote_kept_as_two_quotes
              (lit "O") (lit "Brien, Pat") _ _ _ _))
            [lit "1"; lit " 'O''Brien, Pat'"; lit " NULL"] 1
            (lit " 'O''Brien, Pat'") _ _ _ _);
      try done.
    repeat constructor.
  - refine (proj2 (proj1 (proj2 (proj2 (proj2 (proj2
              (C1_doubled_quote_kept_as_two_quotes
                 (lit "O") (lit "Brien") _ _ _ _)))))
              (row_with "1" (TQuoted (lit "O''Brien"))
                 (TQuoted (lit "Rahima")))
              2 Quoted (lit " ") (lit ";") _ _ _ _ _));
      done.
  - assert (lit "O" <> []) as Ha by done.
    assert (lit "Brien" <> []) as Hb by done.
    destruct (proj2 (proj2 (proj2 (proj2 (proj2
                (C1_doubled_quote_kept_as_two_quotes
                   (lit "O") (lit "Brien") Ha Hb eq_refl eq_refl)))))
                insert_line
                [row_tokens (row_with "1" (TQuoted (lit "O''Brien"))
                               (TQuoted (lit "Rahima")))]
                (row_tokens (row_with "1" (TQuoted (lit "O''Brien"))
                               (TQuoted (lit "Rahima"))))
                3 (lit " 'O''Brien'") "name"%string)
      as (v & Hin & _ & Hname); try reflexivity.
    + repeat constructor; done.
    + repeat constructor.
    + apply list_elem_of_here.
    + by exists v.
Defined.

(** C2: the dispatcher rewrites the query (the question is treated as a
    follow-up) if and only if the history is not empty, the question has
    fewer than 5 whitespace-delimited words and the lowercased question
    contains one of the indicators; [_is_follow_up] alone decides the last
    two conditions; with an empty history the query is the question. *)
Theorem C2_follow_up_classification (lower : str -> str)
    (h : list turn) (q : str) :
  (context_enhanced_question lower h q <> q
   <-> h <> []
       /\ length (PyStr.split q) < 5
       /\ Exists (fun indicator => exists a b, lower q = a ++ indicator ++ b)
            follow_up_indicators)
  /\ (_is_follow_up lower q = true
      <-> length (PyStr.split q) < 5
          /\ Exists (fun indicator =>
                       exists a b, lower q = a ++ indicator ++ b)
               follow_up_indicators)
  /\ context_enhanced_question lower [] q = q
  /\ length follow_up_indicators = 14.
Proof.
  split; [|split; [apply is_follow_up_iff|done]].
  rewrite context_rewritten_iff, is_follow_up_iff. tauto.
Qed.

(** C3, as stated, fails on the labels: after a first turn, the follow-up
    [his father?] is sent as [Previous question: ...] and
    [Current question: ...], with capital initials, not as
    [previous question: ...] and [current question: ...].  The service
    [echo_query] answers with the query it received, so the second answer
    in the history shows the query that was sent. *)
Lemma C3_counterexample :
  let q1 := lit "Who is Saiful Islam?" in
  let q2 := lit "his father?" in
  let sent := lit "Previous question: Who is Saiful Islam?" ++ [NEWLINE]
              ++ lit "Current question: his father?" in
  let claimed := lit "previous question: Who is Saiful Islam?" ++ [NEWLINE]
                 ++ lit "current question: his father?" in
  _is_follow_up ascii_lower q2 = true
  /\ bind (chat ascii_lower echo_query q1)
          (fun _ => chat ascii_lower echo_query q2) (State [] 0)
     = (Returned (Response sent []), State [Turn q1 q1; Turn q2 sent] 2)
  /\ sent <> claimed.
Proof. split; [by vm_compute|]. split; [by vm_compute|]. by vm_compute. Qed.

(** C3, amended: when [chat(Q1)] returns and [Q2] is a follow-up, the
    query sent for [Q2] is [Previous question: <Q1>], a line feed,
    [Current question: <Q2>] (capital initials), built from the question
    of the last turn only; after both calls the history has gained the
    two turns with the questions as asked and the answers returned. *)
Theorem C3_follow_up_query_and_history (lower : str -> str)
    {exn Doc World : Type}
    (rag_query : str -> World -> outcome exn (response Doc) * World)
    (st : state World) (Q1 Q2 : str) (r1 r2 : response Doc) (w1 w2 : World) :
  rag_query (context_enhanced_question lower (history st) Q1) (world st)
  = (Returned r1, w1) ->
  _is_follow_up lower Q2 = true ->
  rag_query (lit "Previous question: " ++ Q1 ++ [NEWLINE]
             ++ lit "Current question: " ++ Q2) w1
  = (Returned r2, w2) ->
  context_enhanced_question lower
    (history st ++ [Turn Q1 (resp_answer r1)]) Q2
  = lit "Previous question: " ++ Q1 ++ [NEWLINE]
    ++ lit "Current question: " ++ Q2
  /\ bind (chat lower rag_query Q1) (fun _ => chat lower rag_query Q2) st
     = (Returned r2,
        State (history st
               ++ [Turn Q1 (resp_answer r1); Turn Q2 (resp_answer r2)]) w2).
Proof.
  intros H1 Hf H2.
  assert (context_enhanced_question lower
            (history st ++ [Turn Q1 (resp_answer r1)]) Q2
          = follow_up_frame Q1 Q2) as Hq
    by (by rewrite context_enhanced_question_snoc, Hf).
  split; [done|].
  unfold bind at 1. rewrite (chat_returns _ _ _ _ _ _ H1).
  rewrite (chat_returns lower rag_query Q2 _ r2 w2).
  - simpl. by rewrite <- app_assoc.
  - simpl. by rewrite Hq.
Qed.

Lemma C3_witness :
  context_enhanced_question ascii_lower
    ([] ++ [Turn (lit "Who is Saiful Islam?") (lit "Who is Saiful Islam?")])
    (lit "his father?")
  = lit "Previous question: " ++ lit "Who is Saiful Islam?" ++ [NEWLINE]
    ++ lit "Current question: " ++ lit "his father?".
Proof.
  refine (proj1 (C3_follow_up_query_and_history ascii_lower echo_query
            (State [] 0) (lit "Who is Saiful Islam?") (lit "his father?")
            (Response (lit "Who is Saiful Islam?") [])
            (Response (lit "Previous question: "
                       ++ lit "Who is Saiful Islam?" ++ [NEWLINE]
                       ++ lit "Current question: " ++ lit "his father?") [])
            1 2 _ _ _)); reflexivity.
Defined.

(** C4, at the failing input: the record parsed from [sample_row], whose
    occupation is [NULL].  The text body has no occupation line, but the
    ['occupation'] entry of the metadata is [None], not the empty string:
    [voter.get('occupation', '')] uses its default for a missing key
    only, and the parser always sets the key. *)
Theorem C4_null_occupation_metadata_is_null :
  exists v,
    parse_sql_content (row_text sample_row) = [v]
    /\ v !! "occupation"%string = Some None
    /\ text_part v "occupation" label_occupation = []
    /\ Forall (fun line => startswith line label_occupation = false)
         (text_parts v)
    /\ doc_metadata (voter_document v) !! "occupation"%string = Some None
    /\ doc_metadata (voter_document v) !! "occupation"%string
       <> Some (Some []).
Proof.
  eexists. split; [by apply parse_sql_content_row|].
  assert (voter_of_match (row_captures sample_row) !! "occupation"%string
          = Some None) as Hocc
    by (by rewrite (row_field_value sample_row 9 NullOrQuoted (lit " ") TNull)).
  split; [done|]. split; [by apply text_part_null|].
  split; [by vm_compute; repeat constructor|].
  rewrite metadata_occupation. unfold get_or_empty. by rewrite Hocc.
Qed.

(** C5, as stated, fails: the only row of [short_row_dump] has three
    values, fewer than the 23 declared fields, and no record is emitted
    for it (nothing is padded). *)
Lemma C5_counterexample :
  records short_row_dump = [lit "(1, 'a', 'b');"]
  /\ parse_record_values (trim_record (lit "(1, 'a', 'b');"))
     = [Some (lit "1"); Some (lit "a"); Some (lit "b")]
  /\ record_voter columns (lit "(1, 'a', 'b');") = None
  /\ parse_sql_alternative short_row_dump columns = []
  /\ parse_sql_content short_row_dump = [].
Proof. repeat split; by vm_compute. Qed.

(** C5, amended: in the fallback strategy a row chunk with fewer values
    than declared fields emits no record; a non-empty chunk with at least
    as many values emits the record of its first 23 values, the value of
    index [i] under the column of index [i], and the excess is
    discarded.  The records of the strategy are those of its chunks. *)
Theorem C5_short_rows_dropped_excess_discarded (chunk : str) :
  (length (parse_record_values (trim_record chunk)) < length columns ->
   record_voter columns chunk = None)
  /\ (trim_record chunk <> [] ->
      length columns <= length (parse_record_values (trim_record chunk)) ->
      record_voter columns chunk
      = Some (voter_of_values columns
                (take (length columns)
                   (parse_record_values (trim_record chunk))))
      /\ forall i col, columns !! i = Some col ->
           voter_of_values columns
             (take (length columns)
                (parse_record_values (trim_record chunk))) !! col
           = Some (values_field
                     (parse_record_values (trim_record chunk)) i))
  /\ (forall content,
        parse_sql_alternative content columns
        = omap (record_voter columns) (records content)).
Proof.
  split; [apply record_voter_short|]. split; [|done].
  intros Hne Hlen. rewrite voter_of_values_take.
  split; [by apply record_voter_long|].
  intros i col Hcol. apply voter_of_values_lookup; [apply columns_NoDup|done].
Qed.

Lemma C5_witness :
  record_voter columns (lit "(1, 'a', 'b');") = None.
Proof.
  apply (proj1 (C5_short_rows_dropped_excess_discarded
                  (lit "(1, 'a', 'b');"))).
  vm_compute. lia.
Defined.

(** C6, as stated, fails: [no_row_dump] gives no row to either strategy,
    and [parse_sql_dump] returns the empty list; nothing is raised, and
    the caller [load_voters_from_sql] goes on with no record. *)
Lemma C6_counterexample :
  let read_text (path : string) : outcome unit str := Returned no_row_dump in
  primary_voters no_row_dump = []
  /\ parse_sql_alternative no_row_dump columns = []
  /\ parse_sql_dump read_text "./voters.sql" = Returned []
  /\ (forall e, parse_sql_dump read_text "./voters.sql" <> Raised e)
  /\ load_voters_from_sql read_text "./voters.sql" = Returned ([], []).
Proof. repeat split; by vm_compute. Qed.

(** C6, amended: when the file is read and both strategies yield no row,
    [parse_sql_dump] returns the empty list of records to its caller and
    [load_voters_from_sql] returns no record and no document; nothing is
    raised. *)
Theorem C6_exhaustion_returns_empty_list {exn : Type}
    (read_text : string -> outcome exn str) (file_path : string)
    (content : str) :
  read_text file_path = Returned content ->
  primary_voters content = [] ->
  parse_sql_alternative content columns = [] ->
  parse_sql_dump read_text file_path = Returned []
  /\ load_voters_from_sql read_text file_path = Returned ([], []).
Proof.
  intros Hread Hprimary Hfallback.
  assert (parse_sql_dump read_text file_path = Returned []) as H.
  { unfold parse_sql_dump, parse_sql_content.
    by rewrite Hread, Hprimary, Hfallback. }
  split; [done|]. unfold load_voters_from_sql. by rewrite H.
Qed.

Lemma C6_witness :
  parse_sql_dump (fun _ : string => @Returned unit str no_row_dump)
    "./voters.sql" = Returned [].
Proof.
  apply (proj1 (C6_exhaustion_returns_empty_list
                  (fun _ : string => @Returned unit str no_row_dump)
                  "./voters.sql" no_row_dump eq_refl eq_refl eq_refl)).
Defined.

(** C7, as stated, fails on its second half: [null_mother_row] is a
    row-tuple of 23 values, a decimal identifier and 22 values that are
    [NULL] or a string between quotes, with [NULL] under [mother_name].
    Parsed alone, or on the line of the INSERT statement, it yields no
    record at all. *)
Lemma C7_counterexample :
  length (row_fields null_mother_row) = 22
  /\ forallb Unicode.is_decimal (row_id null_mother_row) = true
  /\ plain_fields (row_fields null_mother_row) = true
  /\ row_fields null_mother_row !! 8 = Some (lit " ", TNull)
  /\ columns !! 9 = Some "mother_name"%string
  /\ parse_sql_content (row_text null_mother_row) = []
  /\ parse_sql_content
       (insert_line ++ lit " " ++ row_text null_mother_row ++ lit ";") = [].
Proof. repeat split; vm_compute; reflexivity. Qed.

(** C7, amended: there are 23 declared fields, and every record of the
    primary strategy, of the fallback strategy and of [parse_sql_dump]
    has exactly the declared keys, each mapped to a string or to [None].
    A row-tuple in the grammar of [insert_pattern] parsed alone yields
    exactly one record, whose identifier is the integer as written.  A
    row-tuple with a decimal identifier that has, after values of the
    grammar, a value its group cannot read (a bare [NULL] where the
    pattern wants a quoted string, or a quoted string whose first inner
    quote character is doubled) is not in that grammar and is not matched
    at its opening parenthesis.  Through the fallback strategy, a row
    written on its own line after the INSERT line, in a text where the
    pattern matches nothing, gives one record if it has at least 23
    values and none otherwise. *)
Theorem C7_records_have_all_declared_keys :
  length columns = 23
  /\ (forall content v,
        v ∈ primary_voters content
        \/ v ∈ parse_sql_alternative content columns
        \/ v ∈ parse_sql_content content ->
        has_declared_keys v
        /\ forall col, col ∈ columns ->
             exists x : option str, v !! col = Some x)
  /\ (forall r, well_formed r = true ->
        exists v, parse_sql_content (row_text r) = [v]
          /\ has_declared_keys v
          /\ v !! "id"%string = Some (Some (row_id r)))
  /\ (forall r i g ws t rest,
        forallb Unicode.is_decimal (row_id r) = true ->
        fields_ok (take i (tail insert_groups)) (take i (row_fields r))
        = true ->
        tail insert_groups !! i = Some g ->
        row_fields r !! i = Some (ws, t) ->
        forallb Unicode.is_space ws = true -> rejects g t = true ->
        well_formed r = false
        /\ match_here insert_pattern (row_text r ++ rest) = None)
  /\ (forall header toks,
        is_insert_line header = true ->
        forallb (fun c => negb (c =? NEWLINE)%N) header = true ->
        Forall (fun t => closed_token t = true) toks ->
        List.last toks [] <> [] ->
        body_ok (join [COMMA] toks) = true ->
        is_insert_line (LPAREN :: join [COMMA] toks ++ lit ");") = false ->
        primary_voters
          (join [NEWLINE] [header; LPAREN :: join [COMMA] toks ++ lit ");"])
        = [] ->
        parse_sql_content
          (join [NEWLINE] [header; LPAREN :: join [COMMA] toks ++ lit ");"])
        = if length columns <=? length toks
          then [voter_of_values columns (List.map clean_value toks)]
          else []).
Proof.
  split; [done|]. split; [|split; [|split]].
  - intros content v H.
    assert (has_declared_keys v) as Hkeys.
    { destruct H as [H|[H|H]].
      - by eapply primary_voters_keys.
      - by eapply parse_sql_alternative_keys.
      - by eapply parse_sql_content_keys. }
    split; [done|]. intros col Hcol. by apply Hkeys.
  - intros r Hwf. exists (voter_of_match (row_captures r)).
    split; [by apply parse_sql_content_row|].
    split; [apply dom_declared_keys, voter_of_match_dom|].
    by apply row_id_value.
  - intros r i g ws t rest Hid Hok Hg Hf Hws Hr.
    assert (match_here insert_pattern (row_text r ++ rest) = None) as Hno
      by (by eapply match_here_row_rejected).
    split; [|done].
    destruct (well_formed r) eqn:Hwf; [|done].
    by rewrite match_here_row_app in Hno.
  - intros header toks Hheader Hnl Hclosed Hlast Hbody Hline Hprimary.
    unfold parse_sql_content. rewrite Hprimary.
    change (join [NEWLINE] [header; LPAREN :: join [COMMA] toks ++ lit ");"])
      with (join [NEWLINE] (header :: row_lines [join [COMMA] toks])).
    rewrite parse_sql_alternative_lines;
      [|done|done|done|by repeat constructor|by repeat constructor].
    cbn [omap list_omap]. rewrite record_voter_of_tokens by done.
    by destruct (length columns <=? length toks).
Qed.

Lemma C7_witness :
  (exists v, parse_sql_content (row_text sample_row) = [v]
     /\ has_declared_keys v
     /\ v !! "id"%string = Some (Some (row_id sample_row)))
  /\ (well_formed null_mother_row = false
      /\ match_here insert_pattern (row_text null_mother_row ++ lit ";")
         = None)
  /\ parse_sql_content
       (join [NEWLINE]
          [insert_line;
           LPAREN :: join [COMMA] (row_tokens null_mother_row) ++ lit ");"])
     = [voter_of_values columns
          (List.map clean_value (row_tokens null_mother_row))].
Proof.
  split; [|split].
  - apply (proj1 (proj2 (proj2 C7_records_have_all_declared_keys))
             sample_row).
    reflexivity.
  - apply (proj1 (proj2 (proj2 (proj2 C7_records_have_all_declared_keys)))
             null_mother_row 8 Quoted (lit " ") TNull (lit ";"));
      reflexivity.
  - apply (proj2 (proj2 (proj2 (proj2 C7_records_have_all_declared_keys)))
             insert_line (row_tokens null_mother_row));
      try reflexivity; try done.
    repeat constructor.
Defined.

(** C8, as stated, fails on "every position" and "always":
    [null_name_dump] has three rows, one per line, and the second has a
    bare [NULL] under [name].  The primary strategy yields the records of
    the first and of the third row only, so the fallback strategy is not
    consulted: the [NULL] of the second row parses to nothing, its row is
    lost; the [''] of the third row gives the empty string. *)
Lemma C8_counterexample :
  let r1 := row_with "1" (TQuoted (lit "Karim")) (TQuoted (lit "Rahima")) in
  let r2 := row_with "2" TNull (TQuoted (lit "Rahima")) in
  let r3 := row_with "3" (TQuoted []) (TQuoted (lit "Rahima")) in
  contains null_name_dump (row_text r2) = true
  /\ row_fields r2 !! 2 = Some (lit " ", TNull)
  /\ columns !! 3 = Some "name"%string
  /\ parse_sql_content null_name_dump
     = [voter_of_match (row_captures r1); voter_of_match (row_captures r3)]
  /\ List.map (fun v => (v !! "id"%string, v !! "name"%string))
       (parse_sql_content null_name_dump)
     = [ (Some (Some (lit "1")), Some (Some (lit "Karim")));
         (Some (Some (lit "3")), Some (Some [])) ].
Proof.
  intros r1 r2 r3.
  split; [vm_compute; reflexivity|]. split; [reflexivity|].
  split; [reflexivity|].
  assert (findall insert_pattern null_name_dump
          = [row_captures r1; row_captures r3]) as Hfind
    by (vm_compute; reflexivity).
  assert (parse_sql_content null_name_dump
          = [voter_of_match (row_captures r1);
             voter_of_match (row_captures r3)]) as Hparse.
  { unfold parse_sql_content, primary_voters. rewrite Hfind. reflexivity. }
  split; [done|]. rewrite Hparse. cbn [List.map].
  rewrite !row_id_value by reflexivity.
  rewrite (row_field_value r1 2 Quoted (lit " ") (TQuoted (lit "Karim")))
    by reflexivity.
  rewrite (row_field_value r3 2 Quoted (lit " ") (TQuoted []))
    by reflexivity.
  reflexivity.
Qed.

(** C8, amended: [NULL] and [''] never meet, wherever a record is made
    from them.  In the fallback strategy, at every position of a row, a
    token that is [NULL] gives [None] and a token that is [''] gives the
    empty string: in [parse_record_values], in the record, and in the
    result of [parse_sql_alternative] on a statement with one row per
    line.  In the primary strategy a row in the grammar of
    [insert_pattern] gives [None] where it has [NULL] and the empty
    string where it has ['']; the pattern admits [NULL] under
    [voter_id_bn], [voter_id] and [occupation] only, and does not match
    at the parenthesis that opens a row with a bare [NULL] at another
    position: in place of the identifier, or after values of the grammar
    where the pattern wants a quoted string.  The clean-up of one match
    group and of one value do the same, and [None] is not the empty
    string. *)
Theorem C8_null_and_empty_string_stay_distinct :
  (forall toks i tok,
     Forall (fun t => closed_token t = true) toks ->
     List.last toks [] <> [] -> toks !! i = Some tok ->
     (strip tok = lit "NULL" ->
      parse_record_values (join [COMMA] toks) !! i = Some None)
     /\ (strip tok = lit "''" ->
         parse_record_values (join [COMMA] toks) !! i = Some (Some [])))
  /\ (forall values i col, columns !! i = Some col ->
        (values !! i = Some None ->
         voter_of_values columns values !! col = Some None)
        /\ (values !! i = Some (Some []) ->
            voter_of_values columns values !! col = Some (Some [])))
  /\ (forall header rows toks i tok col,
        is_insert_line header = true ->
        forallb (fun c => negb (c =? NEWLINE)%N) header = true ->
        Forall (fun toks =>
                  Forall (fun t => closed_token t = true) toks
                  /\ List.last toks [] <> []
                  /\ body_ok (join [COMMA] toks) = true) rows ->
        Forall (fun line => is_insert_line line = false)
          (row_lines (List.map (join [COMMA]) rows)) ->
        toks ∈ rows -> length columns <= length toks ->
        toks !! i = Some tok -> columns !! i = Some col ->
        exists v,
          v ∈ parse_sql_alternative
                (join [NEWLINE]
                   (header :: row_lines (List.map (join [COMMA]) rows)))
                columns
          /\ v = voter_of_values columns (List.map clean_value toks)
          /\ (strip tok = lit "NULL" -> v !! col = Some None)
          /\ (strip tok = lit "''" -> v !! col = Some (Some [])))
  /\ (forall r i g ws t col,
        well_formed r = true ->
        tail insert_groups !! i = Some g ->
        row_fields r !! i = Some (ws, t) ->
        columns !! S i = Some col ->
        exists v, parse_sql_content (row_text r) = [v]
          /\ (t = TNull -> v !! col = Some None)
          /\ (t = TQuoted [] -> v !! col = Some (Some [])))
  /\ (forall r i ws rest,
        forallb Unicode.is_decimal (row_id r) = true ->
        fields_ok (take i (tail insert_groups)) (take i (row_fields r))
        = true ->
        tail insert_groups !! i = Some Quoted ->
        row_fields r !! i = Some (ws, TNull) ->
        forallb Unicode.is_space ws = true ->
        match_here insert_pattern (row_text r ++ rest) = None)
  /\ (forall r rest, row_id r = lit "NULL" ->
        match_here insert_pattern (row_text r ++ rest) = None)
  /\ (forall i col, columns !! i = Some col ->
        insert_groups !! i = Some NullOrQuoted
        <-> col ∈ ["voter_id_bn"; "voter_id"; "occupation"]%string)
  /\ clean_match_value (lit "NULL") = None
  /\ clean_match_value (lit "''") = Some []
  /\ clean_value (lit "NULL") = None
  /\ clean_value (lit "''") = Some []
  /\ @None str <> Some [].
Proof.
  split; [|split; [|split; [|split; [|split; [|split; [|split]]]]]].
  - intros toks i tok Hclosed Hlast Hi.
    rewrite (parse_record_values_lookup _ _ tok) by done.
    rewrite <- clean_value_strip. split; by intros ->.
  - intros values i col Hcol.
    rewrite (voter_of_values_lookup _ _ i) by (done || apply columns_NoDup).
    unfold values_field. split; by intros ->.
  - intros header rows toks i tok col Hheader Hnl Hrows Hlines Hin Hlen
      Hi Hcol.
    exists (voter_of_values columns (List.map clean_value toks)).
    split; [|split; [done|]].
    + by apply fallback_record_of_row.
    + rewrite (fallback_row_value toks i tok) by done.
      unfold values_field.
      change (List.map clean_value toks) with (clean_value <$> toks).
      rewrite list_lookup_fmap, Hi. cbn [fmap option_fmap option_map].
      rewrite <- clean_value_strip. split; by intros ->.
  - intros r i g ws t col Hwf Hg Hf Hcol.
    exists (voter_of_match (row_captures r)).
    split; [by apply parse_sql_content_row|].
    rewrite (row_field_value r i g ws t) by done.
    split; intros ->; [by destruct g|].
    destruct g; [|done..].
    pose proof Hwf as Hwf'. unfold well_formed in Hwf'.
    apply andb_true_iff in Hwf' as [_ Hok].
    by destruct (captures_lookup _ _ _ _ _ _ Hok Hg Hf) as [_ ?].
  - intros r i ws rest Hid Hok Hg Hf Hws.
    by apply (match_here_row_rejected r i Quoted ws TNull).
  - intros r rest Hid. unfold row_text. rewrite Hid.
    by apply match_here_paren_not_digit.
  - apply null_or_quoted_columns.
  - done.
Qed.

Lemma C8_witness :
  (parse_record_values
     (join [COMMA] [lit "7"; lit " NULL"; lit " ''"; lit " 'x'"]) !! 1
   = Some None
   /\ parse_record_values
        (join [COMMA] [lit "7"; lit " NULL"; lit " ''"; lit " 'x'"]) !! 2
      = Some (Some []))
  /\ (let r1 := row_with "1" (TQuoted (lit "Karim")) (TQuoted (lit "Rahima")) in
      let r2 := row_with "2" TNull (TQuoted (lit "Rahima")) in
      let r3 := row_with "3" (TQuoted []) (TQuoted (lit "Rahima")) in
      exists v,
        v ∈ parse_sql_alternative
              (join [NEWLINE]
                 (insert_line
                  :: row_lines
                       (List.map (join [COMMA])
                          [row_tokens r1; row_tokens r2; row_tokens r3])))
              columns
        /\ v !! "id"%string = Some (Some (lit "2"))
        /\ v !! "name"%string = Some None)
  /\ match_here insert_pattern
       (row_text (row_with "2" TNull (TQuoted (lit "Rahima"))) ++ lit ",")
     = None.
Proof.
  split; [split|split].
  - refine (proj1 (proj1 C8_null_and_empty_string_stay_distinct
              [lit "7"; lit " NULL"; lit " ''"; lit " 'x'"] 1 (lit " NULL")
              _ _ _) _); try done.
    repeat constructor.
  - refine (proj2 (proj1 C8_null_and_empty_string_stay_distinct
              [lit "7"; lit " NULL"; lit " ''"; lit " 'x'"] 2 (lit " ''")
              _ _ _) _); try done.
    repeat constructor.
  - intros r1 r2 r3.
    destruct (proj1 (proj2 (proj2 C8_null_and_empty_string_stay_distinct))
                insert_line
                [row_tokens r1; row_tokens r2; row_tokens r3] (row_tokens r2)
                3 (lit " NULL") "name"%string)
      as (v & Hin & Hv & Hnull & _); try reflexivity.
    + repeat constructor; done.
    + repeat constructor.
    + apply list_elem_of_further, list_elem_of_here.
    + exists v. split; [done|]. split; [|by apply Hnull].
      rewrite Hv.
      by rewrite (fallback_row_value _ 0 (lit "2")).
  - apply (proj1 (proj2 (proj2 (proj2 (proj2
                    C8_null_and_empty_string_stay_distinct))))
             (row_with "2" TNull (TQuoted (lit "Rahima"))) 2 (lit " ")
             (lit ",")); reflexivity.
Defined.

(** C9: when the retrieval and generation call raises, [chat] raises the
    same exception to its caller and the history is the one before the
    call: no turn is appended. *)
Theorem C9_failed_query_leaves_history (lower : str -> str)
    {exn Doc World : Type}
    (rag_query : str -> World -> outcome exn (response Doc) * World)
    (st : state World) (q : str) (e : exn) (w : World) :
  rag_query (context_enhanced_question lower (history st) q) (world st)
  = (Raised e, w) ->
  chat lower rag_query q st = (Raised e, State (history st) w)
  /\ history (snd (chat lower rag_query q st)) = history st.
Proof.
  intros H. rewrite (chat_raises _ _ _ _ _ _ H). done.
Qed.

Lemma C9_witness :
  chat ascii_lower failing_query (lit "his father?")
    (State [Turn (lit "Who is Saiful Islam?") (lit "A voter.")] 0)
  = (Raised tt,
     State [Turn (lit "Who is Saiful Islam?") (lit "A voter.")] 1).
Proof.
  apply (proj1 (C9_failed_query_leaves_history ascii_lower failing_query
                  (State [Turn (lit "Who is Saiful Islam?") (lit "A voter.")]
                     0)
                  (lit "his father?") tt 1 eq_refl)).
Defined.

(** C10: for a record whose ['id'] key is present with the value [None],
    the identifier of the document and the ['id'] entry of its metadata
    are the four characters [None], not the empty string. *)
Theorem C10_null_identifier_is_the_text_None (v : voter) :
  v !! "id"%string = Some None ->
  doc_id (voter_document v) = lit "None"
  /\ doc_metadata (voter_document v) !! "id"%string = Some (Some (lit "None"))
  /\ length (lit "None") = 4
  /\ lit "None" <> [].
Proof.
  intros H. rewrite metadata_id. unfold voter_document, get_or_empty.
  simpl doc_id. by rewrite H.
Qed.

Lemma C10_witness :
  doc_id (voter_document (<["id"%string := None]> ∅)) = lit "None".
Proof.
  apply (proj1 (C10_null_identifier_is_the_text_None
                  (<["id"%string := None]> ∅) (lookup_insert_eq _ _ _))).
Defined.

(* ===================================================================== *)
(** * Further properties *)
(* ===================================================================== *)

(** ** More on the fallback tokenizer *)

(** X1 [parse_record_values]: a record made of tokens separated by
    commas, where every comma of a token is inside quotes and every quote
    is closed, gives one value per token, in order: a comma inside a
    quoted string does not separate. *)
Theorem X1_one_value_per_closed_token (toks : list str) :
  Forall (fun t => closed_token t = true) toks ->
  List.last toks [] <> [] ->
  parse_record_values (join [COMMA] toks) = List.map clean_value toks
  /\ length (parse_record_values (join [COMMA] toks)) = length toks.
Proof.
  intros H Hlast. rewrite parse_record_values_join by done.
  by rewrite length_map.
Qed.

Lemma X1_witness :
  parse_record_values
    (join [COMMA] [lit "1"; lit " 'Babra, Kalia'"; lit " NULL"])
  = [Some (lit "1"); Some (lit "Babra, Kalia"); None].
Proof.
  refine (proj1 (X1_one_value_per_closed_token
            [lit "1"; lit " 'Babra, Kalia'"; lit " NULL"] _ _)); [|done].
  repeat constructor.
Defined.

(** X2 [parse_record_values]: the text after the last comma counts as a
    value only when it is not empty.  A record that ends with a comma
    gives no value for the empty text after it, while blanks after the
    last comma give one more value, the empty string. *)
Theorem X2_text_after_the_last_comma (toks : list str) (ws : str) :
  Forall (fun t => closed_token t = true) toks ->
  ws <> [] -> forallb Unicode.is_space ws = true ->
  parse_record_values (join [COMMA] (toks ++ [[]]))
  = List.map clean_value toks
  /\ parse_record_values (join [COMMA] (toks ++ [ws]))
     = List.map clean_value toks ++ [Some []].
Proof.
  intros H Hne Hws. split.
  - unfold parse_record_values. rewrite scan_tokens_snoc_empty by done.
    rewrite List.map_map. apply List.map_ext, clean_value_strip.
  - rewrite parse_record_values_join.
    + rewrite List.map_app. simpl. f_equal.
      unfold clean_value. by rewrite strip_blank.
    + apply Forall_app. split; [done|].
      constructor; [by apply blank_closed|constructor].
    + by rewrite last_last.
Qed.

Lemma X2_witness :
  parse_record_values (join [COMMA] ([lit "1"; lit "'a'"] ++ [[]]))
  = [Some (lit "1"); Some (lit "a")]
  /\ parse_record_values (join [COMMA] ([lit "1"; lit "'a'"] ++ [lit " "]))
     = [Some (lit "1"); Some (lit "a"); Some []].
Proof.
  refine (X2_text_after_the_last_comma [lit "1"; lit "'a'"] (lit " ") _ _ _);
    [|done|done].
  repeat constructor.
Defined.

(** X3 [parse_record_values]: a quote that is never closed swallows the
    rest of the record.  After closed tokens, a last token that opens a
    quote and has no other quote is read as a single value, whatever
    commas follow the quote; nothing is raised and nothing is dropped. *)
Theorem X3_open_quote_swallows_the_rest (toks : list str) (body : str) :
  Forall (fun t => closed_token t = true) toks ->
  forallb not_quote body = true ->
  parse_record_values (join [COMMA] (toks ++ [QUOTE :: body]))
  = List.map clean_value toks ++ [clean_value (QUOTE :: body)]
  /\ length (parse_record_values (join [COMMA] (toks ++ [QUOTE :: body])))
     = S (length toks).
Proof.
  intros H Hb.
  assert (parse_record_values (join [COMMA] (toks ++ [QUOTE :: body]))
          = List.map clean_value toks ++ [clean_value (QUOTE :: body)]) as E.
  { unfold parse_record_values. rewrite raw_values_open_quote by done.
    rewrite List.map_app, List.map_map. simpl.
    rewrite clean_value_strip. f_equal.
    apply List.map_ext, clean_value_strip. }
  split; [done|]. rewrite E, length_app, length_map. simpl. lia.
Qed.

Lemma X3_witness :
  parse_record_values (join [COMMA] ([lit "1"] ++ [QUOTE :: lit "a, b, c"]))
  = [Some (lit "1"); Some (lit "'a, b, c")].
Proof.
  refine (proj1 (X3_open_quote_swallows_the_rest [lit "1"] (lit "a, b, c")
                   _ _)); [|done].
  repeat constructor.
Defined.

(** X4 [parse_sql_alternative], [parse_sql_dump]: the quoted string
    ['NULL'] is not kept apart from the absent value everywhere.  In a
    record of the fallback strategy it becomes [None]; in a record of the
    primary strategy it becomes [None] in the columns whose group is a
    plain quoted string and stays the text [NULL] in the three columns
    whose group admits [NULL]. *)
Theorem X4_quoted_NULL_text :
  (forall toks i tok col,
     Forall (fun t => closed_token t = true) toks ->
     List.last toks [] <> [] ->
     toks !! i = Some tok -> strip tok = lit "'NULL'" ->
     columns !! i = Some col ->
     parse_record_values (join [COMMA] toks) !! i = Some (Some (lit "NULL"))
     /\ voter_of_values columns (parse_record_values (join [COMMA] toks))
          !! col = Some None)
  /\ (forall r i g ws col,
        well_formed r = true ->
        tail insert_groups !! i = Some g ->
        row_fields r !! i = Some (ws, TQuoted (lit "NULL")) ->
        columns !! S i = Some col ->
        exists v, parse_sql_content (row_text r) = [v]
          /\ v !! col = match g with
                        | NullOrQuoted => Some (Some (lit "NULL"))
                        | _ => Some None
                        end).
Proof.
  split.
  - intros toks i tok col Hclosed Hlast Hi Htok Hcol.
    assert (parse_record_values (join [COMMA] toks) !! i
            = Some (Some (lit "NULL"))) as Hv.
    { rewrite (parse_record_values_lookup _ _ tok) by done.
      by rewrite <- clean_value_strip, Htok. }
    split; [done|].
    rewrite (voter_of_values_lookup _ _ i) by (done || apply columns_NoDup).
    unfold values_field. by rewrite Hv.
  - intros r i g ws col Hwf Hg Hf Hcol.
    exists (voter_of_match (row_captures r)).
    split; [by apply parse_sql_content_row|].
    rewrite (row_field_value r i g ws (TQuoted (lit "NULL"))) by done.
    pose proof Hwf as Hok. unfold well_formed in Hok.
    apply andb_true_iff in Hok as [_ Hok].
    destruct (captures_lookup _ _ _ _ _ _ Hok Hg Hf) as [_ Hadm].
    by destruct g.
Qed.

Lemma X4_witness :
  parse_record_values (join [COMMA] [lit "7"; lit " 'NULL'"]) !! 1
  = Some (Some (lit "NULL"))
  /\ voter_of_values columns
       (parse_record_values (join [COMMA] [lit "7"; lit " 'NULL'"]))
       !! "serial_bn"%string = Some None.
Proof.
  refine (proj1 X4_quoted_NULL_text [lit "7"; lit " 'NULL'"] 1
            (lit " 'NULL'") "serial_bn"%string _ _ _ _ _); try done.
  repeat constructor.
Defined.

(** X5 [parse_sql_dump]: in every record of the primary strategy the
    identifier is a string, never [None]: the non-empty run of decimal
    digits the pattern read; it is also the identifier of the document
    made from the record. *)
Theorem X5_primary_identifier_is_decimal (content : str) (v : voter) :
  v ∈ primary_voters content ->
  exists d, v !! "id"%string = Some (Some d)
    /\ d <> [] /\ forallb Unicode.is_decimal d = true
    /\ doc_id (voter_document v) = d.
Proof.
  intros H. apply primary_voters_inv in H as (caps & -> & Hcaps).
  change insert_groups with (Digits :: tail insert_groups) in Hcaps.
  apply Forall2_cons_inv_l in Hcaps as (d & caps' & [Hne Hd] & _ & ->).
  assert (voter_of_match (d :: caps') !! "id"%string = Some (Some d)) as Hid.
  { rewrite (voter_of_match_lookup _ 0) by done.
    unfold match_field. simpl. by rewrite clean_digits. }
  exists d. repeat split; try done.
  unfold voter_document, get_or_empty. cbn [doc_id]. by rewrite Hid.
Qed.

Lemma X5_witness :
  exists d, voter_of_match (row_captures sample_row) !! "id"%string
            = Some (Some d)
    /\ d <> [] /\ forallb Unicode.is_decimal d = true
    /\ doc_id (voter_document (voter_of_match (row_captures sample_row))) = d.
Proof.
  apply (X5_primary_identifier_is_decimal (row_text sample_row)).
  rewrite primary_voters_row by reflexivity. apply list_elem_of_here.
Defined.

(** ** Several rows *)

(** X6 [parse_sql_dump]: on a text made of well-formed rows, with
    before, between and after them any text in which no opening
    parenthesis is followed by a decimal digit, the primary strategy
    yields exactly one record per row, in the order of the text; with at
    least one row the fallback strategy is not consulted. *)
Theorem X6_one_record_per_row_in_order (gap0 : str)
    (rows : list (row_tuple * str)) :
  gap_ok gap0 = true ->
  Forall (fun rg => well_formed rg.1 = true /\ gap_ok rg.2 = true) rows ->
  primary_voters (gap0 ++ rows_text rows)
  = List.map (fun rg => voter_of_match (row_captures rg.1)) rows
  /\ length (primary_voters (gap0 ++ rows_text rows)) = length rows
  /\ (rows <> [] ->
      parse_sql_content (gap0 ++ rows_text rows)
      = List.map (fun rg => voter_of_match (row_captures rg.1)) rows).
Proof.
  intros Hgap Hrows.
  assert (primary_voters (gap0 ++ rows_text rows)
          = List.map (fun rg => voter_of_match (row_captures rg.1)) rows)
    as E.
  { unfold primary_voters, findall.
    rewrite findall_gap, findall_rows by done. by rewrite List.map_map. }
  split; [done|]. split; [by rewrite E, length_map|].
  intros Hne. unfold parse_sql_content. rewrite E.
  destruct rows; [done|]. done.
Qed.

Lemma X6_witness :
  length (primary_voters
            ((insert_line ++ [NEWLINE])
             ++ rows_text [(sample_row, COMMA :: [NEWLINE]);
                           (sample_row, lit ";")])) = 2.
Proof.
  refine (proj1 (proj2 (X6_one_record_per_row_in_order
            (insert_line ++ [NEWLINE])
            [(sample_row, COMMA :: [NEWLINE]); (sample_row, lit ";")] _ _)));
    [reflexivity|].
  repeat constructor.
Defined.

(** ** Texts the fallback strategy cannot read *)

(** X7 [parse_sql_alternative]: the fallback strategy reads only the
    lines that follow a line holding both [INSERT INTO] and [voters].  It
    recovers nothing from a text without line feed (the values written on
    the INSERT line itself are skipped with it), and nothing from a text
    none of whose lines holds both words. *)
Theorem X7_fallback_needs_rows_after_the_insert_line (content : str) :
  (forallb (fun c => negb (c =? NEWLINE)%N) content = true ->
   parse_sql_alternative content columns = [])
  /\ (Forall (fun line =>
                contains line (lit "INSERT INTO")
                && contains line (lit "voters") = false)
        (split_on NEWLINE [] content) ->
      parse_sql_alternative content columns = []).
Proof.
  split; intros H; apply records_of_nothing.
  - rewrite split_on_no_sep by done. cbn [fold_left app].
    unfold scan_line. by destruct (_ && _).
  - by rewrite scan_line_no_insert.
Qed.

Lemma X7_witness :
  parse_sql_alternative
    (lit "INSERT INTO voters VALUES " ++ row_text sample_row ++ lit ";")
    columns = [].
Proof.
  apply (proj1 (X7_fallback_needs_rows_after_the_insert_line _)).
  reflexivity.
Defined.

(** ** A statement with one row per line *)

(** X8 [parse_sql_alternative]: on a dump in the layout it expects, one
    line that opens the INSERT statement and then one row per line
    (a row between parentheses, a comma after each row but the last and
    a semicolon after the last, no parenthesis and no line feed inside a
    row, every comma of a value inside quotes), the fallback strategy
    yields, in the order of the text, the record of every row that has at
    least 23 values, built from the cleaned values, and no record for a
    row that has fewer. *)
Theorem X8_fallback_reads_one_row_per_line (header : str)
    (rows : list (list str)) :
  is_insert_line header = true ->
  forallb (fun c => negb (c =? NEWLINE)%N) header = true ->
  rows <> [] ->
  Forall (fun toks =>
            Forall (fun t => closed_token t = true) toks
            /\ List.last toks [] <> []
            /\ body_ok (join [COMMA] toks) = true) rows ->
  Forall (fun line => is_insert_line line = false)
    (row_lines (List.map (join [COMMA]) rows)) ->
  parse_sql_alternative
    (join [NEWLINE] (header :: row_lines (List.map (join [COMMA]) rows)))
    columns
  = omap (fun toks =>
            if length columns <=? length toks
            then Some (voter_of_values columns (List.map clean_value toks))
            else None) rows.
Proof.
  intros Hheader Hnl Hne Hrows Hlines.
  rewrite parse_sql_alternative_lines;
    [by apply records_of_rows|done|done| |by apply rows_bodies_ok|done].
  by destruct rows.
Qed.

Lemma X8_witness :
  length
    (parse_sql_alternative
       (join [NEWLINE]
          (insert_line
           :: row_lines
                (List.map (join [COMMA])
                   [ lit "NULL" :: replicate 22 (lit " 'a, b'");
                     [lit "2"; lit " 'too short'"];
                     lit "3" :: replicate 23 (lit " NULL") ])))
       columns) = 2.
Proof.
  rewrite (X8_fallback_reads_one_row_per_line insert_line
             [ lit "NULL" :: replicate 22 (lit " 'a, b'");
               [lit "2"; lit " 'too short'"];
               lit "3" :: replicate 23 (lit " NULL") ]);
    [reflexivity|reflexivity|reflexivity|done| |].
  - repeat constructor; done.
  - repeat constructor.
Defined.

(** ** More on the Document Synthesizer *)

Lemma text_parts_presentation (v : voter) :
  text_parts v
  = concat (List.map (fun kl => text_part v kl.1 kl.2) presentation).
Proof. unfold text_parts, presentation. simpl. by rewrite app_nil_r. Qed.

Lemma text_part_present (v : voter) (key : string) (label : str) :
  text_part v key label
  = if present v key
    then [label ++ default [] (default None (v !! key))]
    else [].
Proof.
  unfold text_part, present. by destruct (v !! key) as [[[|c x]|]|].
Qed.

Lemma join_nil_inv (sep : str) (parts : list str) :
  Forall (fun p => p <> []) parts -> join sep parts = [] -> parts = [].
Proof.
  intros H E. destruct parts as [|p parts]; [done|].
  inversion H as [|? ? Hp _]; subst. exfalso. apply Hp.
  destruct parts; simpl in E; [done|]. by apply app_eq_nil in E as [? _].
Qed.

Lemma text_part_lines (v : voter) (key : string) (label : str)
    (P : str -> Prop) :
  (forall c x, v !! key = Some (Some (c :: x)) -> P (label ++ c :: x)) ->
  Forall P (text_part v key label).
Proof.
  intros H. unfold text_part.
  destruct (v !! key) as [[[|c x]|]|]; try constructor; [by apply H|constructor].
Qed.

Lemma text_parts_lines (v : voter) (P : str -> Prop) :
  (forall key label c x, (key, label) ∈ presentation ->
     v !! key = Some (Some (c :: x)) -> P (label ++ c :: x)) ->
  Forall P (text_parts v).
Proof.
  intros H. rewrite text_parts_presentation.
  apply Forall_concat, Forall_forall. intros part Hpart.
  apply list_elem_of_fmap in Hpart as ([key label] & -> & Hin).
  apply text_part_lines. intros c x. by apply H.
Qed.

Lemma text_parts_count (v : voter) (fields : list (string * str)) :
  length (concat (List.map (fun kl => text_part v kl.1 kl.2) fields))
  = length (List.filter (fun kl => present v kl.1) fields).
Proof.
  induction fields as [|[key label] fields IH]; [done|].
  cbn [List.map concat List.filter fst snd].
  rewrite length_app, IH, text_part_present.
  by destruct (present v key).
Qed.

(** X9 [create_voter_documents]: the text body is empty exactly when
    none of the 13 presented fields holds a non-empty string ([None],
    the empty string and a missing key all leave the field out).  The
    body is the parts joined by line feeds; there is one part per
    presented field that holds a non-empty string, so at most 13, and no
    part is empty.  (A part is one line of the body when the value holds
    no line feed.) *)
Theorem X9_text_body_empty_iff_no_field (v : voter) :
  (doc_content (voter_document v) = []
   <-> forall key label, (key, label) ∈ presentation -> present v key = false)
  /\ doc_content (voter_document v) = join [NEWLINE] (text_parts v)
  /\ length (text_parts v)
     = length (List.filter (fun kl => present v kl.1) presentation)
  /\ length (text_parts v) <= 13
  /\ Forall (fun part => part <> []) (text_parts v).
Proof.
  assert (Forall (fun part => part <> []) (text_parts v)) as Hne.
  { apply text_parts_lines. intros key label c x _ _ E.
    by apply app_eq_nil in E as [_ ?]. }
  assert (length (text_parts v)
          = length (List.filter (fun kl => present v kl.1) presentation))
    as Hcount by (rewrite text_parts_presentation; apply text_parts_count).
  split; [|split; [done|split; [done|split; [|done]]]].
  - split.
    + intros E key label Hin.
      apply join_nil_inv in E; [|done].
      rewrite text_parts_presentation in E.
      destruct (present v key) eqn:Hp; [|done]. exfalso.
      assert (text_part v key label ∈
                List.map (fun kl => text_part v kl.1 kl.2) presentation)
        as Hpart.
      { apply list_elem_of_fmap. by exists (key, label). }
      rewrite text_part_present, Hp in Hpart.
      apply list_elem_of_In, in_split in Hpart as (l1 & l2 & Hsplit).
      rewrite Hsplit, concat_app in E. simpl in E.
      by apply app_eq_nil in E as [_ ?].
    + intros H. simpl. rewrite text_parts_presentation.
      replace (concat _) with (@nil str); [done|]. symmetry.
      assert (Forall (fun part : list str => part = [])
                (List.map (fun kl => text_part v kl.1 kl.2) presentation))
        as Hall.
      { apply Forall_forall. intros part Hpart.
        apply list_elem_of_fmap in Hpart as ([key label] & -> & Hin).
        cbn [fst snd]. by rewrite text_part_present, (H key label Hin). }
      induction Hall as [|part parts -> _ IH]; [done|]. simpl. apply IH.
  - rewrite Hcount.
    etransitivity; [apply List.filter_length_le|]. reflexivity.
Qed.

(** X10 [create_voter_documents]: whatever the record holds, the
    metadata has exactly the 11 keys of the dictionary literal; the
    identifier is always a string; under each other key a missing field
    gives the empty string and a field that is present gives its value as
    it is, [None] included. *)
Theorem X10_metadata_keys_and_defaults (v : voter) :
  dom (doc_metadata (voter_document v)) = list_to_set metadata_keys
  /\ (exists s, doc_metadata (voter_document v) !! "id"%string
                = Some (Some s) /\ doc_id (voter_document v) = s)
  /\ (forall key, key ∈ metadata_keys -> key <> "id"%string ->
        doc_metadata (voter_document v) !! key
        = Some (match v !! key with
                | Some x => x
                | None => Some []
                end)).
Proof.
  split; [|split].
  - unfold voter_document, metadata_of. cbn [doc_metadata].
    rewrite !dom_insert_L, dom_empty_L. unfold metadata_keys.
    cbn [list_to_set foldr]. reflexivity.
  - eexists. split; [apply metadata_id|done].
  - intros key Hin Hid. unfold metadata_keys in Hin.
    repeat (apply elem_of_cons in Hin as [->|Hin]); try done;
      try reflexivity.
    by apply elem_of_nil in Hin.
Qed.

Lemma presentation_labels_no_newline :
  Forall (fun kl => forallb (fun c => negb (c =? NEWLINE)%N) kl.2 = true)
    presentation.
Proof. repeat constructor. Qed.

(** X11 [create_voter_documents]: when no presented field of the record
    holds a line feed and at least one holds a non-empty string, cutting
    the text body at the line feeds gives back the lines, one per
    non-empty field. *)
Theorem X11_text_body_lines_round_trip (v : voter) :
  text_parts v <> [] ->
  (forall key label x, (key, label) ∈ presentation ->
     v !! key = Some (Some x) ->
     forallb (fun c => negb (c =? NEWLINE)%N) x = true) ->
  split_on NEWLINE [] (doc_content (voter_document v)) = text_parts v.
Proof.
  intros Hne Hvalues. cbn [voter_document doc_content].
  apply split_on_join; [done|].
  apply text_parts_lines. intros key label c x Hin Hv.
  rewrite forallb_app. apply andb_true_iff. split.
  - pose proof presentation_labels_no_newline as Hl.
    rewrite Forall_forall in Hl. apply (Hl (key, label) Hin).
  - by apply (Hvalues key label).
Qed.

Lemma X11_witness :
  split_on NEWLINE []
    (doc_content (voter_document
       (<["name"%string := Some (lit "Saiful")]>
          (<["ward"%string := Some (lit "1")]> ∅))))
  = text_parts (<["name"%string := Some (lit "Saiful")]>
                  (<["ward"%string := Some (lit "1")]> ∅)).
Proof.
  apply X11_text_body_lines_round_trip.
  - by vm_compute.
  - intros key label x Hin.
    unfold presentation in Hin.
    repeat (apply elem_of_cons in Hin as [[= -> ->]|Hin]);
      try (by apply elem_of_nil in Hin); vm_compute; by intros [= <-].
Defined.

Section Loader.

Context {exn : Type}.
Variable read_text : string -> outcome exn str.

(** X12 [load_voters_from_sql]: on a file made of rows in the grammar of
    [insert_pattern], with before, between and after them any text in
    which no opening parenthesis is followed by a decimal digit, the
    loader returns one record and one document per row, in the order of
    the file; the identifier of each record, of its document and of the
    document's metadata is the integer of the row as written. *)
Theorem X12_loader_one_document_per_row (file_path : string) (gap0 : str)
    (rows : list (row_tuple * str)) :
  read_text file_path = Returned (gap0 ++ rows_text rows) ->
  gap_ok gap0 = true ->
  Forall (fun rg => well_formed rg.1 = true /\ gap_ok rg.2 = true) rows ->
  rows <> [] ->
  exists voters documents,
    load_voters_from_sql read_text file_path = Returned (voters, documents)
    /\ List.map (fun v : voter => v !! "id"%string) voters
       = List.map (fun rg => Some (Some (row_id rg.1))) rows
    /\ List.map doc_id documents = List.map (fun rg => row_id rg.1) rows
    /\ List.map (fun d => doc_metadata d !! "id"%string) documents
       = List.map (fun rg => Some (Some (row_id rg.1))) rows.
Proof.
  intros Hread Hgap Hrows Hne.
  assert (parse_sql_content (gap0 ++ rows_text rows)
          = List.map (fun rg => voter_of_match (row_captures rg.1)) rows)
    as Hparse.
  { unfold parse_sql_content, primary_voters, findall.
    rewrite findall_gap, findall_rows by done. rewrite List.map_map.
    by destruct rows. }
  eexists _, _. split.
  { unfold load_voters_from_sql, parse_sql_dump.
    by rewrite Hread, Hparse. }
  unfold create_voter_documents. rewrite !List.map_map.
  assert (forall rg, rg ∈ rows ->
            voter_of_match (row_captures rg.1) !! "id"%string
            = Some (Some (row_id rg.1))) as Hid.
  { intros rg Hin. apply row_id_value.
    rewrite Forall_forall in Hrows. by destruct (Hrows rg Hin). }
  split; [|split]; apply map_ext_in; intros rg Hin;
    apply list_elem_of_In in Hin; pose proof (Hid rg Hin) as E.
  - done.
  - unfold voter_document, get_or_empty. cbn [doc_id]. by rewrite E.
  - rewrite metadata_id. unfold get_or_empty. by rewrite E.
Qed.

End Loader.

Lemma X12_witness :
  exists voters documents,
    load_voters_from_sql
      (fun _ : string =>
         @Returned unit str
           ((insert_line ++ [NEWLINE])
            ++ rows_text [(sample_row, COMMA :: [NEWLINE]);
                          (sample_row, lit ";")]))
      "./voters.sql"
    = Returned (voters, documents)
    /\ List.map (fun v : voter => v !! "id"%string) voters
       = [Some (Some (lit "17")); Some (Some (lit "17"))]
    /\ List.map doc_id documents = [lit "17"; lit "17"]
    /\ List.map (fun d => doc_metadata d !! "id"%string) documents
       = [Some (Some (lit "17")); Some (Some (lit "17"))].
Proof.
  apply (X12_loader_one_document_per_row (fun _ : string => Returned _) "./voters.sql"
           (insert_line ++ [NEWLINE])
           [(sample_row, COMMA :: [NEWLINE]); (sample_row, lit ";")]);
    [reflexivity|reflexivity| |done].
  repeat constructor.
Defined.

(** ** More on the conversation manager *)

Section ManagerMore.

Variable lower : str -> str.
Context {exn Doc World : Type}.
Variable rag_query : str -> World -> outcome exn (response Doc) * World.

(** X13 [ConversationManager.chat]: only the question of the last turn
    is consulted.  Two histories whose last turns have the same question
    give the same query, whatever the earlier turns and the answers. *)
Theorem X13_only_the_last_question_matters (h1 h2 : list turn)
    (t1 t2 : turn) (q : str) :
  question t1 = question t2 ->
  context_enhanced_question lower (h1 ++ [t1]) q
  = context_enhanced_question lower (h2 ++ [t2]) q.
Proof.
  intros H. rewrite !context_enhanced_question_snoc. by rewrite H.
Qed.

(** X14 [ConversationManager.clear_history], [chat]: after
    [clear_history] the next question is sent verbatim, even when it is
    worded as a follow-up, and the history holds that turn alone; the
    services behind the chain are not touched by the reset. *)
Theorem X14_clear_history_then_chat (st : state World) (q : str)
    (r : response Doc) (w : World) :
  rag_query q (world st) = (Returned r, w) ->
  clear_history (exn:=exn) st = (Returned tt, State [] (world st))
  /\ bind clear_history (fun _ => chat lower rag_query q) st
     = (Returned r, State [Turn q (resp_answer r)] w).
Proof.
  intros H. split; [done|]. unfold bind at 1. cbn [clear_history].
  by rewrite (chat_returns lower rag_query q _ r w).
Qed.

Lemma chat_only_appends (st : state World) (q : str) :
  match chat lower rag_query q st with
  | (Returned r, st') =>
      history st' = history st ++ [Turn q (resp_answer r)]
  | (Raised _, st') => history st' = history st
  end.
Proof.
  destruct (rag_query (context_enhanced_question lower (history st) q)
              (world st)) as [[r|e] w] eqn:E.
  - by rewrite (chat_returns _ _ _ _ _ _ E).
  - by rewrite (chat_raises _ _ _ _ _ _ E).
Qed.

(** X15 [ConversationManager.chat]: a call never removes or edits a
    turn.  Whether it returns or raises, the old history is kept in
    front; a call that returns adds exactly one turn, with the question
    as asked and the answer returned, and a call that raises adds
    none. *)
Theorem X15_chat_only_appends (st : state World) (q : str) :
  match chat lower rag_query q st with
  | (Returned r, st') =>
      history st' = history st ++ [Turn q (resp_answer r)]
  | (Raised _, st') => history st' = history st
  end.
Proof. apply chat_only_appends. Qed.

(** X16 [rag/chain.py], the test loop: after the loop over the test
    questions the history holds, behind the turns it had, the questions
    that were answered, in the order asked and as asked; all of them when
    the loop ends normally, and only those before the first failure when
    a call raises. *)
Theorem X16_loop_records_the_questions_in_order (qs : list str) :
  forall st : state World,
  exists n, n <= length qs
    /\ List.map question (history (snd (chat_all lower rag_query qs st)))
       = List.map question (history st) ++ take n qs
    /\ (forall u, fst (chat_all lower rag_query qs st) = Returned u ->
        n = length qs)
    /\ ((exists e, fst (chat_all lower rag_query qs st) = Raised e) ->
        n < length qs).
Proof.
  induction qs as [|q qs IH]; intros st.
  - exists 0. simpl. rewrite app_nil_r. repeat split; try done.
    by intros [e ?].
  - cbn [chat_all]. unfold bind.
    pose proof (chat_only_appends st q) as Hstep.
    destruct (chat lower rag_query q st) as [[r|e] st'].
    + destruct (IH st') as (n & Hn & Hq & Hret & Hraise).
      exists (S n). split; [simpl; lia|]. split.
      * rewrite Hq, Hstep, List.map_app. simpl. by rewrite <- app_assoc.
      * split; [intros u Hu; simpl; f_equal; by eapply Hret|].
        intros He. simpl. apply Hraise in He. lia.
    + exists 0. simpl. rewrite Hstep, app_nil_r.
      repeat split; try done; try lia.
Qed.

End ManagerMore.

Lemma X13_witness :
  context_enhanced_question ascii_lower
    ([] ++ [Turn (lit "Who is Saiful?") (lit "A voter.")]) (lit "his ward?")
  = context_enhanced_question ascii_lower
      ([Turn (lit "x") (lit "y")] ++ [Turn (lit "Who is Saiful?") (lit "?")])
      (lit "his ward?").
Proof. by apply X13_only_the_last_question_matters. Defined.

Lemma X14_witness :
  bind clear_history (fun _ => chat ascii_lower echo_query (lit "his ward?"))
    (State [Turn (lit "Who is Saiful?") (lit "A voter.")] 0)
  = (Returned (Response (lit "his ward?") []),
     State [Turn (lit "his ward?") (lit "his ward?")] 1).
Proof.
  apply (proj2 (X14_clear_history_then_chat ascii_lower echo_query
                  (State [Turn (lit "Who is Saiful?") (lit "A voter.")] 0)
                  (lit "his ward?") (Response (lit "his ward?") []) 1
                  eq_refl)).
Defined.

(** ** The page *)

Section Page.

Variable lower : str -> str.
Context {exn Doc World : Type}.
Variable rag_query : str -> World -> outcome exn (response Doc) * World.
Variable exn_str : exn -> str.

(** X17 [app.py, main]: every prompt adds exactly two messages to the
    session, the prompt and one reply, and never raises.  The reply has
    sources exactly when [chat] returned; then the manager's history has
    gained the turn of the prompt and the answer shown.  Otherwise the
    reply is the text of the error and the history is as before. *)
Theorem X17_prompt_adds_two_messages (prompt : str)
    (s : session (Doc:=Doc) (World:=World)) :
  exists reply,
    messages (handle_prompt lower rag_query exn_str prompt s)
    = messages s ++ [Message (lit "user") prompt None; reply]
    /\ role reply = lit "assistant"
    /\ match sources reply with
       | Some _ =>
           history (manager (handle_prompt lower rag_query exn_str prompt s))
           = history (manager s) ++ [Turn prompt (content reply)]
       | None =>
           history (manager (handle_prompt lower rag_query exn_str prompt s))
           = history (manager s)
           /\ exists e,
                content reply
                = lit "Sorry, I encountered an error: " ++ exn_str e
       end.
Proof.
  unfold handle_prompt.
  pose proof (chat_only_appends lower rag_query (manager s) prompt)
    as Hstep.
  destruct (chat lower rag_query prompt (manager s)) as [[r|e] st'];
    eexists; cbn [messages manager]; rewrite <- app_assoc;
    (split; [reflexivity|]); (split; [reflexivity|]); cbn [sources content].
  - done.
  - split; [done|]. by exists e.
Qed.

End Page.

Section PageInvariant.

Variable lower : str -> str.
Context {exn Doc World : Type}.
Variable rag_query : str -> World -> outcome exn (response Doc) * World.
Variable exn_str : exn -> str.

Lemma answered_app_even (k : nat) :
  forall msgs rest : list (message (Doc:=Doc)),
  length msgs = 2 * k ->
  answered (msgs ++ rest) = answered msgs ++ answered rest.
Proof.
  induction k as [|k IH]; intros msgs rest Hlen.
  - by destruct msgs.
  - destruct msgs as [|u [|r msgs]]; simpl in Hlen; try lia.
    cbn [app answered]. rewrite IH by lia. by destruct (sources r).
Qed.

Lemma handle_prompt_invariant (prompt : str) (s : session) :
  page_invariant s ->
  page_invariant (handle_prompt lower rag_query exn_str prompt s).
Proof.
  intros [Hh [k Hk]]. unfold handle_prompt.
  pose proof (chat_only_appends lower rag_query (manager s) prompt) as Hstep.
  destruct (chat lower rag_query prompt (manager s)) as [[r|e] st'];
    (split; [|exists (S k); cbn [messages]; rewrite !length_app; simpl; lia]);
    cbn [messages manager]; rewrite <- app_assoc;
    rewrite (answered_app_even k) by done; rewrite Hstep, Hh.
  - done.
  - simpl. by rewrite app_nil_r.
Qed.

Lemma clear_chat_invariant (s : session (Doc:=Doc) (World:=World)) :
  page_invariant (clear_chat (exn:=exn) s).
Proof. split; [done|]. by exists 0. Qed.

(** X18 [app.py, main]: in a single session that starts with no message
    and an empty history, where every prompt and every press on "Clear
    Chat History" is handled to its end before the next one (no rerun
    cuts a run between [chat] and the recording of the reply) and the
    calls that only draw the page return, after any sequence of prompts
    and presses the history of the conversation manager is exactly the
    list of the exchanges of the page that got an answer, in order (the
    failed exchanges are shown but not remembered), and the page holds an
    even number of messages. *)
Theorem X18_history_matches_answered_messages (events : list event)
    (w : World) :
  history (manager
             (fold_left (run_event lower rag_query exn_str) events
                (Session [] (State [] w))))
  = answered (messages
                (fold_left (run_event lower rag_query exn_str) events
                   (Session [] (State [] w))))
  /\ exists k,
       length (messages
                 (fold_left (run_event lower rag_query exn_str) events
                    (Session [] (State [] w)))) = 2 * k.
Proof.
  assert (forall s, page_invariant s ->
            page_invariant
              (fold_left (run_event lower rag_query exn_str) events s))
    as Hrun.
  { induction events as [|ev events IH]; intros s Hs; [done|].
    cbn [fold_left]. apply IH. destruct ev; cbn [run_event].
    - by apply handle_prompt_invariant.
    - apply clear_chat_invariant. }
  apply Hrun. split; [done|]. by exists 0.
Qed.

End PageInvariant.

(** ** The vector store *)

Section StoreFacts.

Context {exn Store World : Type}.
Variable ValueError : str -> exn.
Variable path_exists : World -> bool.
Variable open_store : World -> outcome exn Store * World.
Variable collection_count : Store -> World -> outcome exn Z * World.
Variable from_documents : list document -> World -> outcome exn Store * World.

(** X19 [VoterVectorStore.get_or_create]: a persisted store that holds
    at least one document wins.  When the directory exists, the store
    opens and its count is positive, that store is returned and becomes
    [self.vector_store], whatever documents were passed: they are not
    indexed. *)
Theorem X19_existing_store_wins (documents : option (list document))
    (st : store_state Store World) (s : Store) (w1 w2 : World) (n : Z) :
  path_exists (disk st) = true ->
  open_store (disk st) = (Returned s, w1) ->
  collection_count s w1 = (Returned n, w2) ->
  (0 < n)%Z ->
  get_or_create ValueError path_exists open_store collection_count
    from_documents documents st
  = (Returned s, StoreState (Some s) w2).
Proof.
  intros Hpath Hopen Hcount Hn. unfold get_or_create, load_existing.
  rewrite Hpath, Hopen. cbn [disk]. rewrite Hcount.
  apply Z.ltb_lt in Hn. by rewrite Hn.
Qed.

(** X20 [VoterVectorStore.get_or_create]: without documents ([None] or
    an empty list) nothing is created.  The call returns a store only
    when the directory exists, the store opens and its count is positive;
    with no directory it raises the ValueError of the last line and
    leaves the state as it was. *)
Theorem X20_no_documents_no_creation (documents : option (list document))
    (st : store_state Store World) :
  documents = None \/ documents = Some [] ->
  (forall s st',
     get_or_create ValueError path_exists open_store collection_count
       from_documents documents st = (Returned s, st') ->
     path_exists (disk st) = true
     /\ exists w1 n w2,
          open_store (disk st) = (Returned s, w1)
          /\ collection_count s w1 = (Returned n, w2)
          /\ (0 < n)%Z
          /\ st' = StoreState (Some s) w2)
  /\ (path_exists (disk st) = false ->
      get_or_create ValueError path_exists open_store collection_count
        from_documents documents st
      = (Raised (ValueError
           (lit "No existing vector store found and no documents provided")),
         st)).
Proof.
  intros Hdocs.
  assert (forall st0, create_or_raise ValueError from_documents documents st0
            = (Raised (ValueError
                 (lit "No existing vector store found and no documents provided")),
               st0)) as Hraise.
  { intros st0. by destruct Hdocs as [-> | ->]. }
  unfold get_or_create, load_existing. split.
  - intros s st'. destruct (path_exists (disk st)) eqn:Hpath.
    + destruct (open_store (disk st)) as [[s1|e] w1] eqn:Hopen; [|done].
      cbn [disk vector_store].
      destruct (collection_count s1 w1) as [[n|e] w2] eqn:Hcount.
      * destruct (0 <? n)%Z eqn:Hn.
        -- intros [= <- <-]. split; [done|]. exists w1, n, w2.
           apply Z.ltb_lt in Hn. done.
        -- by rewrite Hraise.
      * by rewrite Hraise.
    + by rewrite Hraise.
  - intros ->. apply Hraise.
Qed.

End StoreFacts.

Lemma X19_witness :
  get_or_create (World:=unit) (fun msg : str => msg) (fun _ => true)
    (fun w => (Returned 7, w)) (fun _ w => (Returned 3%Z, w))
    (fun _ w => (Returned 8, w))
    (Some [voter_document ∅]) (StoreState None tt)
  = (Returned 7, StoreState (Some 7) tt).
Proof.
  by apply (X19_existing_store_wins (fun msg : str => msg) (fun _ => true)
              (fun w => (Returned 7, w)) (fun _ w => (Returned 3%Z, w))
              (fun _ w => (Returned 8, w)) (Some [voter_document ∅])
              (StoreState None tt) 7 tt tt 3%Z).
Defined.

Lemma X20_witness :
  get_or_create (Store:=nat) (World:=unit) (fun msg : str => msg)
    (fun _ => false) (fun w => (Returned 7, w))
    (fun _ w => (Returned 3%Z, w)) (fun _ w => (Returned 8, w))
    (Some []) (StoreState None tt)
  = (Raised (lit "No existing vector store found and no documents provided"),
     StoreState None tt).
Proof.
  apply (proj2 (X20_no_documents_no_creation (fun msg : str => msg)
                  (fun _ => false) (fun w => (Returned 7, w))
                  (fun _ w => (Returned 3%Z, w)) (fun _ w => (Returned 8, w))
                  (Some []) (StoreState None tt) (or_intror eq_refl))).
  reflexivity.
Defined.

(** ** Apostrophes at the ends of a value *)

Lemma rstrip_by_last (p : N -> bool) (s : str) :
  match rev (rstrip_by p s) with
  | [] => True
  | d :: _ => p d = false
  end.
Proof.
  unfold rstrip_by. rewrite rev_involutive.
  by destruct (lstrip_by_head p (rev s)) as [-> | (c & t & -> & Hc)].
Qed.

Lemma strip_by_head (p : N -> bool) (s : str) :
  match rstrip_by p (lstrip_by p s) with
  | [] => True
  | c :: _ => p c = false
  end.
Proof.
  destruct (lstrip_by_head p s) as [-> | (c & t & -> & Hc)]; [done|].
  by rewrite rstrip_by_cons_stop.
Qed.

Lemma quote_in_set (c : N) :
  bool_decide (c ∈ lit "'") = false -> (c =? QUOTE)%N = false.
Proof.
  intros H. apply bool_decide_eq_false_1 in H.
  apply N.eqb_neq. intros ->. apply H. by apply list_elem_of_singleton.
Qed.

(** The text left by [strip("'")] neither starts nor ends with a
    quote. *)
Lemma strip_chars_quote_ends (s : str) :
  startswith (strip_chars (lit "'") s) (lit "'") = false
  /\ endswith (strip_chars (lit "'") s) (lit "'") = false.
Proof.
  unfold strip_chars. cbv zeta.
  set (p := fun c : N => bool_decide (c ∈ lit "'")).
  pose proof (strip_by_head p s) as Hhd.
  pose proof (rstrip_by_last p (lstrip_by p s)) as Hlast.
  unfold endswith. change (lit "'") with [QUOTE].
  destruct (rstrip_by p (lstrip_by p s)) as [|c t]; [done|]. split.
  - rewrite startswith_one, N.eqb_sym. by apply quote_in_set.
  - destruct (rev (c :: t)) as [|d u]; [done|].
    change (rev [QUOTE]) with [QUOTE].
    rewrite startswith_one, N.eqb_sym. by apply quote_in_set.
Qed.

(** X21 [parse_sql_alternative], [parse_sql_dump]: no string of a record
    starts or ends with an apostrophe, in either strategy: the fallback
    strips the apostrophes at both ends of every value and the primary
    pattern admits none.  So a doubled quote at the end of a quoted string
    is lost: the token of [a] followed by a doubled quote gives the value
    [a]. *)
Theorem X21_no_apostrophe_at_the_ends :
  (forall content v col x,
     v ∈ parse_sql_content content -> v !! col = Some (Some x) ->
     startswith x (lit "'") = false /\ endswith x (lit "'") = false)
  /\ (forall a c values i col,
        forallb not_quote (c :: a) = true ->
        columns !! i = Some col ->
        values !! i
        = Some (clean_value (QUOTE :: (c :: a) ++ [QUOTE; QUOTE; QUOTE])) ->
        voter_of_values columns values !! col = Some (Some (c :: a))).
Proof.
  split.
  - intros content v col x Hv Hx.
    destruct (parse_sql_content_cases content) as [E|E]; rewrite E in Hv.
    + pose proof (primary_values_no_quote _ _ _ _ Hv Hx) as Hq.
      split.
      * destruct (startswith x (lit "'")) eqn:Hs; [|done].
        apply startswith_inv in Hs as [t ->]. done.
      * destruct (endswith x (lit "'")) eqn:He; [|done].
        apply endswith_inv in He as [t ->].
        rewrite forallb_app in Hq. by apply andb_true_iff in Hq as [_ ?].
    + apply parse_sql_alternative_inv in Hv as (chunk & _ & Hv).
      apply record_voter_inv in Hv as [-> _].
      assert (col ∈ columns) as Hin.
      { apply (dom_declared_keys _
                 (voter_of_values_dom columns
                    (parse_record_values (trim_record chunk)))).
        by eexists. }
      apply list_elem_of_lookup in Hin as [i Hi].
      rewrite (voter_of_values_lookup _ _ i) in Hx
        by (done || apply columns_NoDup).
      injection Hx as Hx. unfold values_field in Hx.
      destruct (_ !! i) as [[y|]|]; try done.
      destruct (str_eqb y (lit "NULL")); [done|]. injection Hx as <-.
      apply strip_chars_quote_ends.
  - intros a c values i col Hq Hcol Hi.
    rewrite (voter_of_values_lookup _ _ i) by (done || apply columns_NoDup).
    unfold values_field. rewrite Hi.
    assert (clean_value (QUOTE :: (c :: a) ++ [QUOTE; QUOTE; QUOTE])
            = Some ((c :: a) ++ [QUOTE; QUOTE])) as ->.
    { unfold clean_value.
      replace (QUOTE :: (c :: a) ++ [QUOTE; QUOTE; QUOTE])
        with (QUOTE :: ((c :: a) ++ [QUOTE; QUOTE]) ++ [QUOTE])
        by (by rewrite <- app_assoc).
      rewrite strip_bounded by done. change (lit "'") with [QUOTE].
      assert (startswith (QUOTE :: ((c :: a) ++ [QUOTE; QUOTE]) ++ [QUOTE])
                [QUOTE] = true) as -> by reflexivity.
      assert (endswith (QUOTE :: ((c :: a) ++ [QUOTE; QUOTE]) ++ [QUOTE])
                [QUOTE] = true) as ->
        by apply (endswith_snoc (QUOTE :: _)).
      simpl andb. cbv iota. by rewrite slice_1_minus_1_bounded. }
    assert (str_eqb ((c :: a) ++ [QUOTE; QUOTE]) (lit "NULL") = false) as ->.
    { apply bool_decide_eq_false_2. intros E.
      apply (f_equal (forallb not_quote)) in E. rewrite forallb_app in E.
      change (forallb not_quote [QUOTE; QUOTE]) with false in E.
      by rewrite andb_false_r in E. }
    apply (f_equal (fun y : str => Some (Some y))).
    unfold strip_chars. cbv zeta.
    simpl in Hq. apply andb_true_iff in Hq as [Hc Ha].
    change ((c :: a) ++ [QUOTE; QUOTE]) with (c :: (a ++ [QUOTE; QUOTE])).
    rewrite (lstrip_quotes_stop c _ Hc).
    unfold rstrip_by.
    change (c :: a ++ [QUOTE; QUOTE]) with ((c :: a) ++ [QUOTE] ++ [QUOTE]).
    rewrite app_assoc, !rev_unit. cbn [lstrip_by].
    assert (bool_decide (QUOTE ∈ lit "'") = true) as ->
      by (apply bool_decide_eq_true_2; by apply list_elem_of_singleton).
    destruct (rev (c :: a)) as [|d u] eqn:E.
    { apply (f_equal (@rev N)) in E. by rewrite rev_involutive in E. }
    assert (not_quote d = true) as Hd.
    { assert (forallb not_quote (rev (c :: a)) = true) as Hr.
      { rewrite forallb_forall. intros y Hy.
        apply in_rev in Hy.
        assert (forallb not_quote (c :: a) = true) as Hca
          by (simpl; by rewrite Hc, Ha).
        rewrite forallb_forall in Hca. by apply Hca. }
      rewrite E in Hr. simpl in Hr. by apply andb_true_iff in Hr as [? _]. }
    rewrite (lstrip_quotes_stop d _ Hd). rewrite <- E.
    by rewrite rev_involutive.
Qed.

Lemma X21_witness :
  voter_of_values columns
    [Some (lit "1"); clean_value (QUOTE :: lit "abc" ++ [QUOTE; QUOTE; QUOTE])]
    !! "serial_bn"%string
  = Some (Some (lit "abc")).
Proof.
  by apply (proj2 X21_no_apostrophe_at_the_ends (lit "bc")
              (N_of_ascii "a") _ 1).
Defined.
